(** * Species links: a model of [species_link.py]

    Text is modelled as a list of code points below 256 ([list ascii]);
    Python's string operations are written out on such lists.  Python
    exceptions are values of [exn], fallible code returns [result]. *)

From Stdlib Require Import Ascii String.
From Stdlib Require Import List Arith Bool ZArith Lia.
Import ListNotations.

Set Implicit Arguments.

Definition str := list ascii.

(** A string literal of the source. *)
Definition lit (s : string) : str := list_ascii_of_string s.

Definition str_eqb (a b : str) : bool :=
  if list_eq_dec ascii_dec a b then true else false.

(** ** Python string primitives *)

Module Py.

Definition space : ascii := " "%char.
Definition newline : ascii := "010"%char.

(** [str.isspace] on one code point below 256: the separators of
    [str.split()] called without an argument. *)
Definition is_whitespace (c : ascii) : bool :=
  let n := nat_of_ascii c in
  ((9 <=? n) && (n <=? 13)) || ((28 <=? n) && (n <=? 32))
  || (n =? 133) || (n =? 160).

(** [s.split()]: maximal runs of non-whitespace characters. *)
Fixpoint split_from (cur : str) (s : str) : list str :=
  match s with
  | [] => match cur with [] => [] | _ => [rev cur] end
  | c :: s' =>
      if is_whitespace c
      then match cur with
           | [] => split_from [] s'
           | _ => rev cur :: split_from [] s'
           end
      else split_from (c :: cur) s'
  end.

Definition split (s : str) : list str := split_from [] s.

(** [s.split(sep)] for a one-character separator: every separator cuts,
    empty pieces are kept, the result is never empty. *)
Fixpoint split_on_from (sep : ascii) (cur : str) (s : str) : list str :=
  match s with
  | [] => [rev cur]
  | c :: s' =>
      if Ascii.eqb c sep
      then rev cur :: split_on_from sep [] s'
      else split_on_from sep (c :: cur) s'
  end.

Definition split_on (sep : ascii) (s : str) : list str :=
  split_on_from sep [] s.

(** [sep.join(parts)]. *)
Fixpoint join (sep : str) (parts : list str) : str :=
  match parts with
  | [] => []
  | [p] => p
  | p :: ps => p ++ sep ++ join sep ps
  end.

Fixpoint starts_with (p s : str) : bool :=
  match p, s with
  | [], _ => true
  | _ :: _, [] => false
  | a :: p', b :: s' => Ascii.eqb a b && starts_with p' s'
  end.

(** [p in s] for strings. *)
Fixpoint contains (p s : str) : bool :=
  starts_with p s || match s with [] => false | _ :: s' => contains p s' end.

(** [s.replace(old, new)]: leftmost occurrences, not overlapping.
    [skip] counts the characters of an occurrence still to be dropped. *)
Fixpoint replace_from (old new : str) (skip : nat) (s : str) : str :=
  match s with
  | [] => []
  | c :: s' =>
      match skip with
      | S k => replace_from old new k s'
      | 0 => if starts_with old s
             then new ++ replace_from old new (length old - 1) s'
             else c :: replace_from old new 0 s'
      end
  end.

Definition replace (old new s : str) : str :=
  match old with
  | [] => new ++ flat_map (fun c => c :: new) s
  | _ => replace_from old new 0 s
  end.

(** [s.lower()] on code points below 256. *)
Definition lower_char (c : ascii) : ascii :=
  let n := nat_of_ascii c in
  if ((65 <=? n) && (n <=? 90))
     || ((192 <=? n) && (n <=? 222) && negb (n =? 215))
  then ascii_of_nat (n + 32) else c.

Definition lower (s : str) : str := map lower_char s.

(** Slices with non-negative bounds: [s[a:b]], [s[:a]], [s[a:]]. *)
Definition slice (s : str) (a b : nat) : str := skipn a (firstn b s).

End Py.

(** ** The link formatter *)

(** The double quote of the markup. *)
Definition dq : ascii := "034"%char.

(** [tokens[i]]; every use below is guarded by the length of [tokens]. *)
Definition tok (tokens : list str) (i : nat) : str := nth i tokens [].

Definition sp (name : str) : str := lit "<sp>" ++ name ++ lit "</sp>".

(** The opening tag shared by every f-string of the formatter. *)
Definition taxon_open (genus species subprefix subspecies : str) : str :=
  lit "<taxon genus=" ++ [dq] ++ genus ++ [dq]
  ++ lit " species=" ++ [dq] ++ species ++ [dq]
  ++ lit " sub-prefix=" ++ [dq] ++ subprefix ++ [dq]
  ++ lit " sub-species=" ++ [dq] ++ subspecies ++ [dq] ++ lit ">".

Definition taxon_close : str := lit "</taxon>".

Definition genus_spp (tokens : list str) : str :=
  let genus := tok tokens 0 in
  taxon_open genus [] [] [] ++ sp genus ++ taxon_close.

Definition genus_species (tokens : list str) : str :=
  let genus := tok tokens 0 in
  let species := tok tokens 1 in
  taxon_open genus species [] []
  ++ sp genus ++ lit " " ++ sp species ++ taxon_close.

Definition genus_species_subprefix_subspecies (tokens : list str) : str :=
  let genus := tok tokens 0 in
  let species := tok tokens 1 in
  let subprefix := tok tokens 2 in
  let subspecies := tok tokens 3 in
  taxon_open genus species subprefix subspecies
  ++ sp genus ++ lit " " ++ sp species ++ lit " " ++ subprefix ++ lit " "
  ++ sp subspecies ++ taxon_close.

Definition genus_species_subspecies (tokens : list str) : str :=
  Py.replace (lit "  ") (lit " ")
    (genus_species_subprefix_subspecies
       [tok tokens 0; tok tokens 1; []; tok tokens 2]).

Definition genus_PARgenusPAR_subspecies (tokens : list str) : str :=
  let genus := tok tokens 0 in
  let species := Py.slice (tok tokens 1) 1 (length (tok tokens 1) - 1) in
  let subspecies := tok tokens 2 in
  taxon_open genus species [] subspecies
  ++ sp genus ++ lit " " ++ sp (tok tokens 1) ++ lit " " ++ sp subspecies
  ++ taxon_close.

Definition genus_PARnamePAR_species (tokens : list str) : str :=
  let genus := tok tokens 0 in
  let name := tok tokens 1 in
  let species := tok tokens 2 in
  taxon_open genus species [] []
  ++ sp genus ++ lit " " ++ name ++ lit " " ++ sp species ++ taxon_close.

(** [tokens[2:-1]] and [tokens[-1]]. *)
Definition genus_species_MERGE_subspecies (tokens : list str) : str :=
  let genus := tok tokens 0 in
  let species := tok tokens 1 in
  let merge := Py.join (lit " ") (skipn 2 (removelast tokens)) in
  let subspecies := last tokens [] in
  taxon_open genus species [] subspecies
  ++ sp genus ++ lit " " ++ sp species ++ lit " " ++ merge ++ lit " "
  ++ sp subspecies ++ taxon_close.

Definition is_enclosed_match (s1 s2 : str) : bool :=
  if negb (length s2 =? length s1 + 2) then false
  else str_eqb (Py.lower s1) (Py.lower (Py.slice s2 1 (length s2 - 1))).

Definition is_parenthetical (s : str) : bool :=
  if length s <? 2 then false
  else str_eqb (firstn 1 s) (lit "(") && str_eqb [last s Py.space] (lit ")").

(** [t in {"sp.", "spp."}]. *)
Definition is_sp_marker (t : str) : bool :=
  str_eqb t (lit "sp.") || str_eqb t (lit "spp.").

Definition get_species_link (link : str) : str :=
  let tokens := Py.split link in
  match length tokens with
  | 1 => genus_spp tokens
  | 2 => if is_sp_marker (tok tokens 1)
         then genus_spp tokens
         else genus_species tokens
  | 3 => if negb (is_sp_marker (tok tokens 1))
         then if is_enclosed_match (tok tokens 0) (tok tokens 1)
              then genus_PARgenusPAR_subspecies tokens
              else if is_parenthetical (tok tokens 1)
                   then genus_PARnamePAR_species tokens
                   else genus_species_subspecies tokens
         else link
  | 4 => genus_species_subprefix_subspecies tokens
  | n => if 4 <? n then genus_species_MERGE_subspecies tokens else link
  end.

(** [remove_blank_chars]: the [while] loop removes at least one character
    per round, so [length text] rounds are enough (see
    [remove_blank_chars_settled]). *)
Fixpoint collapse_spaces (fuel : nat) (text : str) : str :=
  match fuel with
  | 0 => text
  | S fuel' =>
      if Py.contains (lit "  ") text
      then collapse_spaces fuel' (Py.replace (lit "  ") (lit " ") text)
      else text
  end.

Definition remove_blank_chars (text : str) : str :=
  let text := Py.replace [Py.newline] (lit " ") text in
  collapse_spaces (length text) text.

(** ** The fragment of Python's [re] the module uses

    Literals, backslash escapes, [.], [^], [$], character sets without
    ranges, groups with alternatives, and the greedy [*] and [?].  A
    pattern is compiled to a [regex] and run by a backtracking matcher
    that tries alternatives in the order of [re].  Syntax outside the
    fragment is reported as [Unsupported]. *)

Module Re.

Inductive error : Type :=
| MissingParen      (* missing ), unterminated subpattern *)
| UnbalancedParen   (* unbalanced parenthesis *)
| NothingToRepeat   (* nothing to repeat *)
| MultipleRepeat    (* multiple repeat *)
| UnterminatedSet   (* unterminated character set *)
| BadEscape         (* bad escape (end of pattern) *)
| Unsupported.      (* valid or not, outside the modelled fragment *)

Inductive regex : Type :=
| Eps
| Lit (c : ascii)
| Any
| CharSet (cs : list ascii)
| Bol
| Eol
| Seq (r1 r2 : regex)
| Alt (r1 r2 : regex)
| Group (r : regex)
| Opt (r : regex)
| Star (r : regex).

Definition span : Type := (nat * nat)%type.

(** *** [re.escape] *)

Definition special_chars : str :=
  lit "()[]{}?*+-|^$\.&~# "
  ++ map ascii_of_nat [9; 10; 13; 11; 12].

Definition is_special (c : ascii) : bool :=
  existsb (Ascii.eqb c) special_chars.

Definition backslash : ascii := "\"%char.

Fixpoint escape (s : str) : str :=
  match s with
  | [] => []
  | c :: s' => if is_special c then backslash :: c :: escape s'
               else c :: escape s'
  end.

(** *** Compiling a pattern *)

(** One nesting level of the pattern being read: the finished branches
    and the items of the branch being read, both latest first. *)
Record frame : Type := Frame { branches : list regex; items : list regex }.

Definition empty_frame : frame := Frame [] [].

Definition push (f : frame) (r : regex) : frame :=
  Frame (branches f) (r :: items f).

Definition seq_of (rs : list regex) : regex := fold_right Seq Eps rs.

Fixpoint alt_of (b : regex) (bs : list regex) : regex :=
  match bs with
  | [] => b
  | b' :: bs' => Alt b (alt_of b' bs')
  end.

Definition new_branch (f : frame) : frame :=
  Frame (seq_of (rev (items f)) :: branches f) [].

Definition close (f : frame) : regex :=
  match rev (branches (new_branch f)) with
  | [] => Eps
  | b :: bs => alt_of b bs
  end.

Definition is_ascii_alnum (c : ascii) : bool :=
  let n := nat_of_ascii c in
  ((48 <=? n) && (n <=? 57)) || ((65 <=? n) && (n <=? 90))
  || ((97 <=? n) && (n <=? 122)).

(** The character a two-character escape stands for; class escapes,
    back-references and the like are outside the fragment. *)
Definition escaped (e : ascii) : option ascii :=
  if Ascii.eqb e "n" then Some Py.newline
  else if Ascii.eqb e "t" then Some (ascii_of_nat 9)
  else if Ascii.eqb e "r" then Some (ascii_of_nat 13)
  else if Ascii.eqb e "f" then Some (ascii_of_nat 12)
  else if Ascii.eqb e "v" then Some (ascii_of_nat 11)
  else if Ascii.eqb e "a" then Some (ascii_of_nat 7)
  else if is_ascii_alnum e then None
  else Some e.

Definition is_repeat (r : regex) : bool :=
  match r with Opt _ | Star _ => true | _ => false end.

Definition is_anchor (r : regex) : bool :=
  match r with Bol | Eol => true | _ => false end.

(** A quantifier applies to the last item read. *)
Definition quantify (q : regex -> regex) (f : frame) : error + frame :=
  match items f with
  | [] => inl NothingToRepeat
  | r :: rs =>
      if is_anchor r then inl NothingToRepeat
      else if is_repeat r then inl MultipleRepeat
      else inr (Frame (branches f) (q r :: rs))
  end.

Definition lazy_or_possessive (s : str) : bool :=
  match s with
  | c :: _ => Ascii.eqb c "?" || Ascii.eqb c "+"
  | [] => false
  end.

(** [inset] is [Some members] while a character set is being read. *)
Fixpoint parse_from (cur : frame) (stack : list frame)
         (inset : option (list ascii)) (s : str) : error + regex :=
  match inset with
  | Some members =>
      match s with
      | [] => inl UnterminatedSet
      | c :: s' =>
          if Ascii.eqb c "]" then
            match members with
            | [] => inl Unsupported
            | _ => parse_from (push cur (CharSet (rev members))) stack None s'
            end
          else if Ascii.eqb c "-" then inl Unsupported
          else if Ascii.eqb c "^" then
            match members with
            | [] => inl Unsupported
            | _ => parse_from cur stack (Some (c :: members)) s'
            end
          else if Ascii.eqb c backslash then
            match s' with
            | [] => inl BadEscape
            | e :: s'' =>
                match escaped e with
                | Some x => parse_from cur stack (Some (x :: members)) s''
                | None => inl Unsupported
                end
            end
          else parse_from cur stack (Some (c :: members)) s'
      end
  | None =>
      match s with
      | [] => match stack with
              | [] => inr (close cur)
              | _ :: _ => inl MissingParen
              end
      | c :: s' =>
          if Ascii.eqb c "(" then
            match s' with
            | q :: _ => if Ascii.eqb q "?" then inl Unsupported
                        else parse_from empty_frame (cur :: stack) None s'
            | [] => parse_from empty_frame (cur :: stack) None s'
            end
          else if Ascii.eqb c ")" then
            match stack with
            | [] => inl UnbalancedParen
            | f :: stack' => parse_from (push f (Group (close cur))) stack' None s'
            end
          else if Ascii.eqb c "|" then parse_from (new_branch cur) stack None s'
          else if Ascii.eqb c "*" then
            match quantify Star cur with
            | inl e => inl e
            | inr f => if lazy_or_possessive s' then inl Unsupported
                       else parse_from f stack None s'
            end
          else if Ascii.eqb c "?" then
            match quantify Opt cur with
            | inl e => inl e
            | inr f => if lazy_or_possessive s' then inl Unsupported
                       else parse_from f stack None s'
            end
          else if Ascii.eqb c "+" || Ascii.eqb c "{" then inl Unsupported
          else if Ascii.eqb c backslash then
            match s' with
            | [] => inl BadEscape
            | e :: s'' =>
                match escaped e with
                | Some x => parse_from (push cur (Lit x)) stack None s''
                | None => inl Unsupported
                end
            end
          else if Ascii.eqb c "[" then parse_from cur stack (Some []) s'
          else if Ascii.eqb c "." then parse_from (push cur Any) stack None s'
          else if Ascii.eqb c "^" then parse_from (push cur Bol) stack None s'
          else if Ascii.eqb c "$" then parse_from (push cur Eol) stack None s'
          else parse_from (push cur (Lit c)) stack None s'
      end
  end.

(** [re.compile(pattern)]. *)
Definition compile (pattern : str) : error + regex :=
  parse_from empty_frame [] None pattern.

(** *** Matching *)

Section Matcher.

(** [ci] is the flag [re.IGNORECASE]; [n] is the length of the whole
    text, of which the matcher sees the part not yet consumed. *)
Variable ci : bool.
Variable n : nat.

Definition char_eq (p c : ascii) : bool :=
  if ci then Ascii.eqb (Py.lower_char p) (Py.lower_char c)
  else Ascii.eqb p c.

(** The greedy loop of [*]: one more round of [body] as long as it
    consumes something, then the continuation.  No round leaves the
    text longer, so [length rest] rounds are all there can be. *)
Fixpoint star_loop (body : str -> (str -> option str) -> option str)
         (k : str -> option str) (fuel : nat) (rest : str)
  : option str :=
  match fuel with
  | 0 => k rest
  | S fuel' =>
      match body rest
              (fun rest' => if length rest' <? length rest
                            then star_loop body k fuel' rest'
                            else None) with
      | Some out => Some out
      | None => k rest
      end
  end.

(** [rmatch r rest k]: match [r] at the front of [rest], hand what is
    left to the continuation [k], and backtrack into [r] when [k]
    refuses.  The result is what is left after the whole match. *)
Fixpoint rmatch (r : regex) (rest : str) (k : str -> option str)
         {struct r} : option str :=
  match r with
  | Eps => k rest
  | Lit p =>
      match rest with
      | c :: rest' => if char_eq p c then k rest' else None
      | [] => None
      end
  | Any =>
      match rest with
      | c :: rest' => if Ascii.eqb c Py.newline then None else k rest'
      | [] => None
      end
  | CharSet cs =>
      match rest with
      | c :: rest' => if existsb (fun p => char_eq p c) cs then k rest'
                      else None
      | [] => None
      end
  | Bol => if length rest =? n then k rest else None
  | Eol =>
      match rest with
      | [] => k rest
      | [c] => if Ascii.eqb c Py.newline then k rest else None
      | _ => None
      end
  | Seq r1 r2 => rmatch r1 rest (fun rest' => rmatch r2 rest' k)
  | Alt r1 r2 =>
      match rmatch r1 rest k with
      | Some out => Some out
      | None => rmatch r2 rest k
      end
  | Group r1 => rmatch r1 rest k
  | Opt r1 =>
      match rmatch r1 rest k with
      | Some out => Some out
      | None => k rest
      end
  | Star r1 => star_loop (rmatch r1) k (length rest) rest
  end.

(** One attempt at the position of [rest]; [must_advance] refuses the
    empty match there. *)
Definition match_here (r : regex) (must_advance : bool) (rest : str)
  : option str :=
  rmatch r rest
    (fun out => if must_advance && (length out =? length rest)
                then None else Some out).

Definition span_of (rest out : str) : span :=
  (n - length rest, n - length out).

Definition advance {A} (rest : str) (k : str -> list A) : list A :=
  match rest with
  | [] => []
  | _ :: rest' => k rest'
  end.

(** The scanner behind [finditer]: [busy] characters still belong to
    the match just reported.  After an empty match the same position
    is tried once more for a match that advances. *)
Fixpoint scan (r : regex) (busy : nat) (rest : str) : list span :=
  match busy with
  | S b => advance rest (scan r b)
  | 0 =>
      match match_here r false rest with
      | None => advance rest (scan r 0)
      | Some out =>
          if length out =? length rest then
            span_of rest out ::
            match match_here r true rest with
            | None => advance rest (scan r 0)
            | Some out' =>
                span_of rest out' ::
                advance rest (scan r (length rest - length out' - 1))
            end
          else
            span_of rest out ::
            advance rest (scan r (length rest - length out - 1))
      end
  end.

(** The scan of [re.search]. *)
Fixpoint search_from (r : regex) (rest : str) : option span :=
  match match_here r false rest with
  | Some out => Some (span_of rest out)
  | None => match rest with
            | [] => None
            | _ :: rest' => search_from r rest'
            end
  end.

End Matcher.

(** *** What a match is

    [Matches ci n r x y]: [r] matches the front of [x] and leaves
    [y], in a text of length [n].  A round of [*] consumes
    something. *)
Inductive Matches (ci : bool) (n : nat) : regex -> str -> str -> Prop :=
| MEps x : Matches ci n Eps x x
| MLit p c x : char_eq ci p c = true -> Matches ci n (Lit p) (c :: x) x
| MAny c x : Ascii.eqb c Py.newline = false -> Matches ci n Any (c :: x) x
| MCharSet cs c x :
    existsb (fun p => char_eq ci p c) cs = true ->
    Matches ci n (CharSet cs) (c :: x) x
| MBol x : length x = n -> Matches ci n Bol x x
| MEolEnd : Matches ci n Eol [] []
| MEolNewline : Matches ci n Eol [Py.newline] [Py.newline]
| MSeq r1 r2 x y z :
    Matches ci n r1 x y -> Matches ci n r2 y z ->
    Matches ci n (Seq r1 r2) x z
| MAltL r1 r2 x y : Matches ci n r1 x y -> Matches ci n (Alt r1 r2) x y
| MAltR r1 r2 x y : Matches ci n r2 x y -> Matches ci n (Alt r1 r2) x y
| MGroup r x y : Matches ci n r x y -> Matches ci n (Group r) x y
| MOptSome r x y : Matches ci n r x y -> Matches ci n (Opt r) x y
| MOptNone r x : Matches ci n (Opt r) x x
| MStarNil r x : Matches ci n (Star r) x x
| MStarCons r x y z :
    Matches ci n r x y -> length y < length x ->
    Matches ci n (Star r) y z -> Matches ci n (Star r) x z.

(** [re.finditer(pattern, text, flags)], as the list of the spans. *)
Definition finditer (pattern text : str) (ci : bool) : error + list span :=
  match compile pattern with
  | inl e => inl e
  | inr r => inr (scan ci (length text) r 0 text)
  end.

(** [re.search(pattern, text, flags)], as the span of the match. *)
Definition search (pattern text : str) (ci : bool) : error + option span :=
  match compile pattern with
  | inl e => inl e
  | inr r => inr (search_from ci (length text) r text)
  end.

(** [re.match(pattern, text)], as the span of the match. *)
Definition match_ (pattern text : str) (ci : bool) : error + option span :=
  match compile pattern with
  | inl e => inl e
  | inr r =>
      inr (option_map (span_of (length text) text)
             (match_here ci (length text) r false text))
  end.

End Re.

(** ** Exceptions *)

Inductive exn : Type :=
| ListIndexError                (* IndexError: list index out of range *)
| StringIndexError              (* IndexError: string index out of range *)
| ReError (e : Re.error).       (* re.error *)

Inductive result (A : Type) : Type :=
| Ok (a : A)
| Raise (e : exn).

Arguments Ok {A} a.
Arguments Raise {A} e.

Definition bind {A B} (m : result A) (f : A -> result B) : result B :=
  match m with
  | Ok a => f a
  | Raise e => Raise e
  end.

Notation "x <- m ;; f" := (bind m (fun x => f))
  (at level 61, m at next level, right associativity).
Notation "' p <- m ;; f" := (bind m (fun x => match x with p => f end))
  (at level 61, p pattern, m at next level, right associativity).

(** A call into [re] that may raise [re.error]. *)
Definition re_call {A} (r : Re.error + A) : result A :=
  match r with
  | inl e => Raise (ReError e)
  | inr a => Ok a
  end.

(** [l[i]] for a Python index, negative ones counting from the end: the
    position it denotes. *)
Definition list_index {A} (l : list A) (i : Z) : result nat :=
  let n := Z.of_nat (length l) in
  if ((0 <=? i) && (i <? n))%Z then Ok (Z.to_nat i)
  else if ((i <? 0) && (- n <=? i))%Z then Ok (Z.to_nat (n + i))
  else Raise ListIndexError.

(** [s[0]]. *)
Definition first_char (s : str) : result ascii :=
  match s with
  | c :: _ => Ok c
  | [] => Raise StringIndexError
  end.

(** ** The GenusIndex: a dict from genus to the list of its epithets,
    in insertion order *)

Definition dict : Type := list (str * list str).

Definition dict_mem (key : str) (d : dict) : bool :=
  existsb (fun kv => str_eqb key (fst kv)) d.

Fixpoint dict_get (key : str) (d : dict) : list str :=
  match d with
  | [] => []
  | (k, v) :: d' => if str_eqb key k then v else dict_get key d'
  end.

(** [d[key] = v]: in place for a known key, at the end for a new one. *)
Fixpoint dict_set (key : str) (v : list str) (d : dict) : dict :=
  match d with
  | [] => [(key, v)]
  | (k, v') :: d' => if str_eqb key k then (k, v) :: d'
                     else (k, v') :: dict_set key v d'
  end.

Definition dict_keys (d : dict) : list str := map fst d.

(** The four lines that fill in the dict for one entry. *)
Definition register (key epithet : str) (d : dict) : dict :=
  let d := if negb (dict_mem key d) then dict_set key [] d else d in
  if negb (existsb (str_eqb epithet) (dict_get key d))
  then dict_set key (dict_get key d ++ [epithet]) d
  else d.

Fixpoint update_nth {A} (pos : nat) (f : A -> A) (l : list A) : list A :=
  match l, pos with
  | [], _ => []
  | x :: l', 0 => f x :: l'
  | x :: l', S pos' => x :: update_nth pos' f l'
  end.

(** ** The matching loops *)

Definition italic (spec : str) : str := lit "<i>" ++ spec ++ lit "</i>".

(** [for i in range(len(matches) - 1, -1, -1)]: the matches are replaced
    from the last to the first; [repl i] builds the replacement of match
    [i] from the text it spans.  [i] counts the matches still to do. *)
Fixpoint replace_loop (repl : nat -> str -> str) (matches : list Re.span)
         (i : nat) (text : str) : str :=
  match i with
  | 0 => text
  | S i' =>
      let '(s, e) := nth i' matches (0, 0) in
      replace_loop repl matches i'
        (firstn s text ++ repl i' (Py.slice text s e) ++ skipn e text)
  end.

(** What replaces full-name match [i]; [registered] is the test
    [spec in genus_to_species[j]] of the abstract loop, absent ([false])
    in the title loop. *)
Definition full_replacement (pseudospecies : bool) (registered : str -> bool)
           (i : nat) (matched : str) : str :=
  let spec := remove_blank_chars matched in
  if (i =? 0) && negb pseudospecies && negb (registered spec)
  then get_species_link spec
  else italic spec.

Definition short_replacement (i : nat) (matched : str) : str :=
  italic (remove_blank_chars matched).

Definition separator : str := lit " *\n? *".

Definition full_pattern (parts : list str) : str :=
  Re.escape (tok parts 0) ++ separator ++ Re.escape (tok parts 1).

Definition short_pattern (short_parts parts : list str) : str :=
  Re.escape (tok short_parts 0) ++ separator
  ++ Re.escape (Py.join (lit " ") (skipn 1 parts)).

(** The leading asterisk of a pseudospecies. *)
Definition strip_asterisk (species : str) : result (bool * str) :=
  c <- first_char species ;;
  if Ascii.eqb c "*" then Ok (true, skipn 1 species) else Ok (false, species).

(** The body of [for species in species_list], which the source writes
    out twice: for a title with [slot = -1] and no registered-genus
    test, for an abstract with [slot = j] and the test
    ([abstract_context]).  The state is the list [genus_to_species] and
    the text of the block. *)
Definition species_step (slot : Z) (abstract_context : bool) (species : str)
           (st : list dict * str) : result (list dict * str) :=
  let '(genus_to_species, text) := st in
  found <- re_call (Re.search (lit ".* .*") species false) ;;
  match found with
  | None => Ok st
  | Some _ =>
      '(pseudospecies, species) <- strip_asterisk species ;;
      let parts := Py.split_on " " species in
      let key := if pseudospecies then lit "*" ++ tok parts 0
                 else tok parts 0 in
      pos <- list_index genus_to_species slot ;;
      let genus_to_species :=
        update_nth pos (register key (tok parts 1)) genus_to_species in
      initial <- first_char (tok parts 0) ;;
      let short_form :=
        [initial] ++ lit ". " ++ Py.join (lit " ") (skipn 1 parts) in
      matches <- re_call (Re.finditer (full_pattern parts) text true) ;;
      let registered spec :=
        abstract_context && dict_mem spec (nth pos genus_to_species []) in
      let text :=
        replace_loop (full_replacement pseudospecies registered)
          matches (length matches) text in
      let short_parts := Py.split_on " " short_form in
      short_matches <-
        (if 1 <? length short_parts
         then re_call (Re.finditer (short_pattern short_parts parts) text true)
         else Ok []) ;;
      let text :=
        replace_loop short_replacement short_matches
          (length short_matches) text in
      Ok (genus_to_species, text)
  end.

Fixpoint species_loop (slot : Z) (abstract_context : bool)
         (species_list : list str) (st : list dict * str)
  : result (list dict * str) :=
  match species_list with
  | [] => Ok st
  | species :: rest =>
      st <- species_step slot abstract_context species st ;;
      species_loop slot abstract_context rest st
  end.

(** ** The genus pass of an abstract *)

(** The loop that builds [master_reg]: [count] iterations are left, [i]
    is the loop variable. *)
Fixpoint master_reg_loop (epithets : list str) (count i : nat) (acc : str)
  : str :=
  match count with
  | 0 => acc
  | S count' =>
      master_reg_loop epithets count' (S i)
        (if i <? length epithets - 1
         then acc ++ Re.escape (nth i epithets []) ++ lit "|"
         else acc ++ Re.escape (nth i epithets []) ++ lit ")" ++ [dq])
  end.

Definition master_reg (genus : str) (epithets : list str) : str :=
  master_reg_loop epithets (length epithets - 1) 0
    (lit "<taxon genus=" ++ [dq] ++ Re.escape genus ++ [dq]
     ++ lit " species=" ++ [dq] ++ lit "(").

Definition genus_pattern (genus : str) : str :=
  lit " " ++ Re.escape (Py.replace (lit "*") [] genus) ++ lit "[ \n\.,\?\!]".

(** The last loop of the pass; [text[e-1]] is written as a slice. *)
Fixpoint genus_italic_loop (matches : list Re.span) (i : nat) (text : str)
  : str :=
  match i with
  | 0 => text
  | S i' =>
      let '(s, e) := nth i' matches (0, 0) in
      genus_italic_loop matches i'
        (firstn s text ++ lit " <i>" ++ Py.slice text (s + 1) (e - 1)
         ++ lit "</i>" ++ Py.slice text (e - 1) e ++ skipn e text)
  end.

Definition genus_step (index : dict) (genus : str) (text : str)
  : result str :=
  matches <- re_call (Re.finditer (master_reg genus (dict_get genus index))
                        text true) ;;
  text <-
    match matches with
    | [] => Ok text
    | (m0, _) :: _ =>
        first_genus <- re_call (Re.search (Re.escape genus)
                                  (firstn m0 text) true) ;;
        match first_genus with
        | None => Ok text
        | Some (a, b) =>
            if b <? m0
            then Ok (firstn a text ++ get_species_link (Py.slice text a b)
                     ++ skipn b text)
            else Ok text
        end
    end ;;
  matches <- re_call (Re.finditer (genus_pattern genus) text true) ;;
  Ok (genus_italic_loop matches (length matches) text).

Fixpoint genus_loop (index : dict) (genera : list str) (text : str)
  : result str :=
  match genera with
  | [] => Ok text
  | genus :: rest =>
      text <- genus_step index genus text ;;
      genus_loop index rest text
  end.

Definition genus_pass (genus_to_species : list dict) (j : Z) (text : str)
  : result str :=
  pos <- list_index genus_to_species j ;;
  let index := nth pos genus_to_species [] in
  genus_loop index (dict_keys index) text.

(** ** [insert_species_links] *)

(** The text of the [title] and of the [abstract] elements of the tree,
    in document order. *)
Record document : Type :=
  Document { titles : list str; abstracts : list str }.

(** Part 1: every title appends a dict of its own. *)
Fixpoint titles_loop (species_list : list str) (titles : list str)
         (genus_to_species : list dict) : result (list dict * list str) :=
  match titles with
  | [] => Ok (genus_to_species, [])
  | title :: rest =>
      let genus_to_species := genus_to_species ++ [[]] in
      '(genus_to_species, title) <-
        species_loop (-1) false species_list (genus_to_species, title) ;;
      '(genus_to_species, rest) <-
        titles_loop species_list rest genus_to_species ;;
      Ok (genus_to_species, title :: rest)
  end.

Definition abstract_block (species_list : list str) (j : Z)
           (genus_to_species : list dict) (abstract : str)
  : result (list dict * str) :=
  '(genus_to_species, abstract) <-
    species_loop j true species_list (genus_to_species, abstract) ;;
  abstract <- genus_pass genus_to_species j abstract ;;
  Ok (genus_to_species, abstract).

(** Part 2: [j] is set before the loop and not changed by it. *)
Fixpoint abstracts_loop (species_list : list str) (j : Z)
         (abstracts : list str) (genus_to_species : list dict)
  : result (list dict * list str) :=
  match abstracts with
  | [] => Ok (genus_to_species, [])
  | abstract :: rest =>
      '(genus_to_species, abstract) <-
        abstract_block species_list j genus_to_species abstract ;;
      '(genus_to_species, rest) <-
        abstracts_loop species_list j rest genus_to_species ;;
      Ok (genus_to_species, abstract :: rest)
  end.

(** [species_list] is the content of [common_species.txt], split in
    lines; the result is the tree with its texts rewritten.  The lists
    [inserted_links] and [short_forms] of the source are written and
    never read, and are left out. *)
Definition insert_species_links (species_list : list str) (root : document)
  : result document :=
  '(genus_to_species, titles') <-
    titles_loop species_list (titles root) [] ;;
  let j := 0%Z in
  '(_, abstracts') <-
    abstracts_loop species_list j (abstracts root) genus_to_species ;;
  Ok (Document titles' abstracts').

(** [is_species_link]: the match object as a truth value. *)
Definition species_link_pattern : str :=
  lit "^<taxon genus=" ++ [dq] ++ lit ".*" ++ [dq]
  ++ lit " species=" ++ [dq] ++ lit ".*" ++ [dq]
  ++ lit " sub-prefix=" ++ [dq] ++ lit ".*" ++ [dq]
  ++ lit " sub-species=" ++ [dq] ++ lit ".*" ++ [dq]
  ++ lit ">.*<\/taxon>$".

Definition is_species_link (text : str) : result bool :=
  m <- re_call (Re.match_ species_link_pattern text false) ;;
  Ok (match m with Some _ => true | None => false end).

(** ** Vocabulary of the properties *)

(** The matches of one pass: in text order, not overlapping, inside
    the text between [lo] and [hi]. *)
Fixpoint spans_ok (lo hi : nat) (matches : list Re.span) : Prop :=
  match matches with
  | [] => True
  | (s, e) :: rest => lo <= s /\ s <= e /\ e <= hi /\ spans_ok e hi rest
  end.

(** The text up to [hi] with its matches replaced, read from left to
    right from [pos]: what lies between two matches is copied, match
    [i] is replaced by [repl i] of the text it spans. *)
Fixpoint weave_upto (repl : nat -> str -> str) (text : str) (hi : nat)
         (i pos : nat) (matches : list Re.span) : str :=
  match matches with
  | [] => Py.slice text pos hi
  | (s, e) :: rest =>
      Py.slice text pos s ++ repl i (Py.slice text s e)
      ++ weave_upto repl text hi (S i) e rest
  end.

Definition weave (repl : nat -> str -> str) (text : str)
           (matches : list Re.span) : str :=
  weave_upto repl text (length text) 0 0 matches.

Definition no_whitespace (t : str) : Prop :=
  forall c, In c t -> Py.is_whitespace c = false.

(** Every space of [s] is followed, in [s], by a character that is not
    a space. *)
Fixpoint settled (s : str) : bool :=
  match s with
  | [] => true
  | c :: s' =>
      if Ascii.eqb c " "
      then match s' with
           | [] => false
           | c' :: _ => negb (Ascii.eqb c' " ") && settled s'
           end
      else settled s'
  end.

(** *** Frames and texts of the compiled patterns *)

(** The frame after the literal characters of [s] have been read. *)
Definition push_lits (f : Re.frame) (s : str) : Re.frame :=
  fold_left (fun f c => Re.push f (Re.Lit c)) s f.

(** The frame after [" *\n? *"]. *)
Definition push_separator (f : Re.frame) : Re.frame :=
  Re.push (Re.push (Re.push f (Re.Star (Re.Lit " ")))
             (Re.Opt (Re.Lit Py.newline)))
    (Re.Star (Re.Lit " ")).

(** The two patterns of a species entry: a name, the separator, a
    name. *)
Definition name_regex (a b : str) : Re.regex :=
  Re.close (push_lits (push_separator (push_lits Re.empty_frame a)) b).

(** The escaped epithets, each followed by a bar. *)
Definition alternatives (epithets : list str) : str :=
  concat (map (fun e => Re.escape e ++ lit "|") epithets).

(** The regex of the filter [.* .*] on the lines of the list. *)
Definition space_regex : Re.regex :=
  Re.Seq (Re.Star Re.Any) (Re.Seq (Re.Lit " ") (Re.Seq (Re.Star Re.Any) Re.Eps)).

(** What one entry of the list does to the text of a block, told from
    left to right: the matches of the full name replaced, then, in the
    text so obtained, the matches of the short form.  [index] is the
    dict of the block after the entry is registered. *)
Definition full_matches (parts : list str) (text : str) : list Re.span :=
  Re.scan true (length text) (name_regex (tok parts 0) (tok parts 1)) 0 text.

Definition short_parts_of (initial : ascii) (parts : list str) : list str :=
  Py.split_on " " ([initial] ++ lit ". " ++ Py.join (lit " ") (skipn 1 parts)).

Definition short_matches (initial : ascii) (parts : list str) (text : str)
  : list Re.span :=
  Re.scan true (length text)
    (name_regex (tok (short_parts_of initial parts) 0)
       (Py.join (lit " ") (skipn 1 parts))) 0 text.

Definition after_full_names (abstract_context pseudospecies : bool)
           (parts : list str) (index : dict) (text : str) : str :=
  weave (full_replacement pseudospecies
           (fun spec => abstract_context && dict_mem spec index))
    text (full_matches parts text).

Definition entry_effect (abstract_context pseudospecies : bool)
           (parts : list str) (initial : ascii) (index : dict) (text : str)
  : str :=
  let text := after_full_names abstract_context pseudospecies parts index text in
  weave short_replacement text (short_matches initial parts text).

Definition entry_key (pseudospecies : bool) (parts : list str) : str :=
  if pseudospecies then lit "*" ++ tok parts 0 else tok parts 0.

(** The normalised text of a match in plain italics. *)
Definition emphasis (i : nat) (matched : str) : str :=
  italic (remove_blank_chars matched).

(** What the loop over the species list leaves in the dict of a block:
    every line with a space registered, in the order of the list. *)
Definition register_line (line : str) (d : dict) : dict :=
  if existsb (Ascii.eqb " ") line
  then match strip_asterisk line with
       | Ok (pseudospecies, species) =>
           let parts := Py.split_on " " species in
           register (entry_key pseudospecies parts) (tok parts 1) d
       | Raise _ => d
       end
  else d.

Definition register_lines (species_list : list str) (d : dict) : dict :=
  fold_left (fun d line => register_line line d) species_list d.

(** The pair is in the dict: [register] has nothing to add. *)
Definition registered_pair (key epithet : str) (d : dict) : Prop :=
  dict_mem key d = true /\ In epithet (dict_get key d).

(** The literal characters of [p], then [r]. *)
Definition lits_then (p : str) (r : Re.regex) : Re.regex :=
  fold_right (fun c r => Re.Seq (Re.Lit c) r) r p.

Definition dot_star_then (r : Re.regex) : Re.regex :=
  Re.Seq (Re.Star Re.Any) r.

(** The regex of [is_species_link]. *)
Definition link_regex : Re.regex :=
  Re.Seq Re.Bol
    (lits_then (lit "<taxon genus=" ++ [dq])
       (dot_star_then (lits_then ([dq] ++ lit " species=" ++ [dq])
          (dot_star_then (lits_then ([dq] ++ lit " sub-prefix=" ++ [dq])
             (dot_star_then (lits_then ([dq] ++ lit " sub-species=" ++ [dq])
                (dot_star_then (lits_then ([dq] ++ lit ">")
                   (dot_star_then (lits_then (lit "</taxon>")
                      (Re.Seq Re.Eol Re.Eps)))))))))))).

Definition no_newline (s : str) : Prop := ~ In Py.newline s.

(** A dict whose keys are pairwise distinct and whose lists hold no
    epithet twice. *)
Definition dict_is_set_map (d : dict) : Prop :=
  NoDup (dict_keys d) /\ forall key, NoDup (dict_get key d).

(** The text with every run of spaces turned into one space, in one
    pass; [after_space] tells that the character before was a space. *)
Fixpoint squeeze (after_space : bool) (s : str) : str :=
  match s with
  | [] => []
  | c :: s' =>
      if Ascii.eqb c " "
      then if after_space then squeeze true s' else c :: squeeze true s'
      else c :: squeeze false s'
  end.

Definition newline_to_space (c : ascii) : ascii :=
  if Ascii.eqb c Py.newline then " "%char else c.

(** A line whose genus is empty: it starts with a space, or with an
    asterisk and a space. *)
Definition empty_genus (line : str) : bool :=
  Py.starts_with (lit " ") line || Py.starts_with (lit "* ") line.

(** The lines of the list that are entries all have a genus. *)
Definition entries_have_genus (species_list : list str) : Prop :=
  forall line, In line species_list -> In " "%char line ->
               empty_genus line = false.

(** What one line of the list does to the text of a block whose dict,
    the line registered, is [index]. *)
Definition line_effect (abstract_context : bool) (line : str) (index : dict)
           (text : str) : str :=
  if existsb (Ascii.eqb " ") line
  then match strip_asterisk line with
       | Ok (pseudospecies, species) =>
           let parts := Py.split_on " " species in
           match first_char (tok parts 0) with
           | Ok initial =>
               entry_effect abstract_context pseudospecies parts initial
                 index text
           | Raise _ => text
           end
       | Raise _ => text
       end
  else text.

(** What the loop over the list does to the text of a block whose dict
    is [index] when the loop starts. *)
Fixpoint loop_effect (abstract_context : bool) (species_list : list str)
         (index : dict) (text : str) : str :=
  match species_list with
  | [] => text
  | line :: rest =>
      let index := register_line line index in
      loop_effect abstract_context rest index
        (line_effect abstract_context line index text)
  end.

Definition title_effect (species_list : list str) (title : str) : str :=
  loop_effect false species_list [] title.

(** *** [remove_species_link] *)

(** [re.sub(pattern, repl, text)] for a [repl] without backslash: the
    text with the matches of [finditer] replaced by [repl]. *)
Definition re_sub (pattern repl text : str) : result str :=
  matches <- re_call (Re.finditer pattern text false) ;;
  Ok (weave (fun _ _ => repl) text matches).

(** The first pattern, a raw string in triple quotes that runs over
    two lines of the source: the line break and the eight spaces of
    the indentation are part of it. *)
Definition taxon_open_pattern : str :=
  lit "<taxon genus=" ++ [dq] ++ lit ".*" ++ [dq]
  ++ lit " species=" ++ [dq] ++ lit ".*" ++ [dq]
  ++ lit " sub-prefix=" ++ [Py.newline] ++ lit "        "
  ++ [dq] ++ lit ".*" ++ [dq]
  ++ lit " sub-species=" ++ [dq] ++ lit ".*" ++ [dq] ++ lit ">".

Definition remove_species_link (text : str) : result str :=
  text <- re_sub taxon_open_pattern [] text ;;
  text <- re_sub (lit "<\/?sp>") [] text ;;
  Ok (Py.replace (lit "</taxon>") [] text).

(** Every case-sensitive match of [r] holds the character [c]. *)
Fixpoint needs (c : ascii) (r : Re.regex) : bool :=
  match r with
  | Re.Lit p => Ascii.eqb p c
  | Re.Seq r1 r2 => needs c r1 || needs c r2
  | Re.Alt r1 r2 => needs c r1 && needs c r2
  | Re.Group r => needs c r
  | _ => false
  end.

(** The regex of [<\/?sp>]. *)
Definition sp_tag_regex : Re.regex :=
  Re.Seq (Re.Lit "<") (Re.Seq (Re.Opt (Re.Lit "/"))
    (Re.Seq (Re.Lit "s") (Re.Seq (Re.Lit "p")
       (Re.Seq (Re.Lit ">") Re.Eps)))).

(** A text of the form the formatter writes, on one line. *)
Definition link_text (t : str) : Prop :=
  exists a b c d e,
    t = taxon_open a b c d ++ e ++ taxon_close
    /\ no_newline (a ++ b ++ c ++ d ++ e).

(** *** What the name patterns match *)

Definition spaces (s : str) : Prop := forall c, In c s -> c = " "%char.

(** What [ *\n? *] matches: spaces, at most one line break, spaces. *)
Definition blank_run (s : str) : Prop :=
  exists s1 nl s2,
    s = s1 ++ nl ++ s2
    /\ spaces s1 /\ (nl = [] \/ nl = [Py.newline]) /\ spaces s2.

(** [x] is the literal text [p] as a pattern compiled with
    [re.IGNORECASE] reads it: one character of [x] for each character
    of [p], the two accepted by the comparison of the matcher. *)
Definition ignorecase_eq (p x : str) : Prop :=
  Forall2 (fun a c => Re.char_eq true a c = true) p x.

(** [occ] is [a], a blank run and [b], as [re.IGNORECASE] reads the
    two names. *)
Definition occurrence (a b occ : str) : Prop :=
  exists a' sep b',
    occ = a' ++ sep ++ b'
    /\ ignorecase_eq a a' /\ blank_run sep /\ ignorecase_eq b b'.

(** The regex of [ *\n? *], then [r]. *)
Definition separator_then (r : Re.regex) : Re.regex :=
  Re.Seq (Re.Star (Re.Lit " "))
    (Re.Seq (Re.Opt (Re.Lit Py.newline)) (Re.Seq (Re.Star (Re.Lit " ")) r)).

(** The first character of the genus of a line of the list, where the
    loop gets as far as reading it. *)
Definition genus_initial (line : str) : option ascii :=
  match strip_asterisk line with
  | Ok (_, species) =>
      match first_char (tok (Py.split_on " " species) 0) with
      | Ok initial => Some initial
      | Raise _ => None
      end
  | Raise _ => None
  end.

(** No character of [text] is one that [re.IGNORECASE] accepts for
    [initial]. *)
Definition lacks_initial (initial : ascii) (text : str) : Prop :=
  forall c, In c text -> Re.char_eq true initial c = false.

(** The texts [get_species_link] returns as they are: no token, or
    three tokens with "sp." or "spp." in the middle. *)
Definition left_as_text (spec : str) : bool :=
  match Py.split spec with
  | [] => true
  | [_; middle; _] => is_sp_marker middle
  | _ => false
  end.

(** * Properties *)

Lemma str_eqb_eq a b : str_eqb a b = true <-> a = b.
Proof.
  unfold str_eqb. destruct (list_eq_dec ascii_dec a b); split; congruence.
Qed.

Lemma str_eqb_refl a : str_eqb a a = true.
Proof. now apply str_eqb_eq. Qed.

Lemma str_eqb_neq a b : str_eqb a b = false <-> a <> b.
Proof.
  unfold str_eqb. destruct (list_eq_dec ascii_dec a b); split; congruence.
Qed.

Example remove_blank_chars_doctest :
  remove_blank_chars
    (lit "Happy    " ++ [Py.newline] ++ lit "   " ++ [Py.newline]
     ++ lit " Birthday")
  = lit "Happy Birthday".
Proof. vm_compute. reflexivity. Qed.

Example get_species_link_binomial :
  get_species_link (lit "Brassica oleracea")
  = lit "<taxon genus=" ++ [dq] ++ lit "Brassica" ++ [dq]
    ++ lit " species=" ++ [dq] ++ lit "oleracea" ++ [dq]
    ++ lit " sub-prefix=" ++ [dq] ++ [dq]
    ++ lit " sub-species=" ++ [dq] ++ [dq]
    ++ lit "><sp>Brassica</sp> <sp>oleracea</sp></taxon>".
Proof. vm_compute. reflexivity. Qed.

Example get_species_link_var :
  get_species_link (lit "Brassica oleracea var. capitata")
  = taxon_open (lit "Brassica") (lit "oleracea") (lit "var.") (lit "capitata")
    ++ lit "<sp>Brassica</sp> <sp>oleracea</sp> var. <sp>capitata</sp></taxon>".
Proof. vm_compute. reflexivity. Qed.

Example get_species_link_merge :
  get_species_link (lit "Brassica oleracea var. nov. capitata")
  = taxon_open (lit "Brassica") (lit "oleracea") [] (lit "capitata")
    ++ lit "<sp>Brassica</sp> <sp>oleracea</sp> var. nov. <sp>capitata</sp></taxon>".
Proof. vm_compute. reflexivity. Qed.

Example get_species_link_three :
  get_species_link (lit "Brassica oleracea capitata")
  = taxon_open (lit "Brassica") (lit "oleracea") [] (lit "capitata")
    ++ lit "<sp>Brassica</sp> <sp>oleracea</sp> <sp>capitata</sp></taxon>".
Proof. vm_compute. reflexivity. Qed.

(** ** Splitting on whitespace *)

Lemma split_from_tokens s : forall cur t,
  no_whitespace cur -> In t (Py.split_from cur s) ->
  t <> [] /\ no_whitespace t.
Proof.
  induction s as [|c s IH]; intros cur t Hcur Hin; simpl in Hin.
  - destruct cur as [|x cur]; [contradiction|].
    destruct Hin as [<-|[]]. split.
    + intro E. apply (f_equal (@rev ascii)) in E.
      rewrite rev_involutive in E. discriminate.
    + intros c Hc. apply Hcur. now apply in_rev.
  - destruct (Py.is_whitespace c) eqn:Hws.
    + destruct cur as [|x cur].
      * now apply (IH [] t).
      * destruct Hin as [<-|Hin].
        -- split.
           ++ intro E. apply (f_equal (@rev ascii)) in E.
              rewrite rev_involutive in E. discriminate.
           ++ intros c' Hc. apply Hcur. now apply in_rev.
        -- apply (IH [] t); [intros ? []|assumption].
    + apply (IH (c :: cur) t); [|assumption].
      intros c' [<-|Hc]; [assumption|now apply Hcur].
Qed.

Lemma split_tokens s t :
  In t (Py.split s) -> t <> [] /\ no_whitespace t.
Proof. apply split_from_tokens. intros ? []. Qed.

Lemma split_from_token t : forall cur,
  no_whitespace t -> cur ++ t <> [] ->
  Py.split_from cur t = [rev cur ++ t].
Proof.
  induction t as [|c t IH]; intros cur Hws Hne; simpl.
  - rewrite app_nil_r in *. destruct cur; congruence.
  - rewrite (Hws c (or_introl eq_refl)).
    rewrite IH.
    + simpl. now rewrite <- app_assoc.
    + intros c' Hc. apply Hws. now right.
    + discriminate.
Qed.

Lemma split_token t : t <> [] -> no_whitespace t -> Py.split t = [t].
Proof.
  intros Hne Hws. unfold Py.split. now rewrite split_from_token.
Qed.

(** ** Collapsing the double space *)

Lemma replace_settled_app l : forall rest,
  settled l = true ->
  Py.replace_from (lit "  ") (lit " ") 0 (l ++ rest)
  = l ++ Py.replace_from (lit "  ") (lit " ") 0 rest.
Proof.
  induction l as [|c l IH]; intros rest Hl; [reflexivity|].
  simpl in Hl. cbn [app Py.replace_from].
  destruct (Ascii.eqb c " ") eqn:Hc.
  - destruct l as [|c' l]; [discriminate|].
    apply andb_prop in Hl as [Hc' Hl].
    apply Ascii.eqb_eq in Hc. subst c.
    apply negb_true_iff in Hc'.
    cbn [Py.starts_with lit list_ascii_of_string app].
    rewrite (Ascii.eqb_sym " " c'), Hc'. cbn [andb Ascii.eqb Bool.eqb].
    f_equal. now apply IH.
  - cbn [Py.starts_with lit list_ascii_of_string].
    rewrite (Ascii.eqb_sym " " c), Hc. cbn [andb].
    f_equal. now apply IH.
Qed.

Lemma no_whitespace_settled t : no_whitespace t -> settled t = true.
Proof.
  induction t as [|c t IH]; intros Hws; [reflexivity|].
  simpl. destruct (Ascii.eqb c " ") eqn:Hc.
  - apply Ascii.eqb_eq in Hc. subst c.
    now specialize (Hws " "%char (or_introl eq_refl)).
  - apply IH. intros c' Hc'. apply Hws. now right.
Qed.

(** ** The link formatter *)

Lemma replace_two_spaces s :
  Py.replace (lit "  ") (lit " ") s
  = Py.replace_from (lit "  ") (lit " ") 0 s.
Proof. reflexivity. Qed.

Lemma replace_settled l :
  settled l = true -> Py.replace_from (lit "  ") (lit " ") 0 l = l.
Proof.
  intros Hl. rewrite <- (app_nil_r l) at 1.
  rewrite replace_settled_app by assumption. apply app_nil_r.
Qed.

Lemma replace_space_before_sp rest :
  Py.replace_from (lit "  ") (lit " ") 0 (lit " " ++ lit "<sp>" ++ rest)
  = lit " " ++ lit "<sp>" ++ Py.replace_from (lit "  ") (lit " ") 0 rest.
Proof. reflexivity. Qed.

Lemma replace_empty_rank rest :
  Py.replace_from (lit "  ") (lit " ") 0 (lit " " ++ [] ++ lit " " ++ rest)
  = lit " " ++ Py.replace_from (lit "  ") (lit " ") 0 rest.
Proof. reflexivity. Qed.

Ltac unfold_shapes :=
  unfold genus_species_subspecies, genus_species_subprefix_subspecies,
    genus_PARgenusPAR_subspecies, genus_PARnamePAR_species, genus_spp,
    genus_species, taxon_open, taxon_close, sp, tok;
  cbn [nth];
  repeat rewrite <- app_assoc.

Lemma genus_species_subspecies_shape t0 t1 t2 :
  no_whitespace t0 -> no_whitespace t1 -> no_whitespace t2 ->
  genus_species_subspecies [t0; t1; t2]
  = taxon_open t0 t1 [] t2
    ++ sp t0 ++ lit " " ++ sp t1 ++ lit " " ++ sp t2 ++ taxon_close.
Proof.
  intros H0 H1 H2.
  apply no_whitespace_settled in H0, H1, H2.
  unfold_shapes. rewrite replace_two_spaces.
  repeat first [ rewrite replace_empty_rank
               | rewrite replace_space_before_sp
               | rewrite replace_settled_app by (assumption || reflexivity) ].
  rewrite replace_settled by reflexivity.
  reflexivity.
Qed.

(** C7, amended: a 3-token input whose middle token is not "sp." or
    "spp.", is not parenthetical and is not the first token enclosed in
    two characters is formatted as the 4-token shape with an empty rank
    word, its double space collapsed: the sub-prefix attribute is empty
    and the three tokens are three name-tokens separated by single
    spaces. *)
Theorem three_tokens_as_empty_rank link t0 t1 t2 :
  Py.split link = [t0; t1; t2] ->
  is_sp_marker t1 = false ->
  is_parenthetical t1 = false ->
  is_enclosed_match t0 t1 = false ->
  get_species_link link
  = Py.replace (lit "  ") (lit " ")
      (genus_species_subprefix_subspecies [t0; t1; []; t2])
  /\ get_species_link link
     = taxon_open t0 t1 [] t2
       ++ sp t0 ++ lit " " ++ sp t1 ++ lit " " ++ sp t2 ++ taxon_close.
Proof.
  intros Hs Hm Hp He.
  assert (Hg : get_species_link link = genus_species_subspecies [t0; t1; t2]).
  { unfold get_species_link. rewrite Hs. cbn [length tok nth].
    now rewrite Hm, He, Hp. }
  split; [exact Hg|]. rewrite Hg.
  apply genus_species_subspecies_shape;
    apply (split_tokens link); rewrite Hs; simpl; auto.
Qed.

Lemma three_tokens_as_empty_rank_witness :
  get_species_link (lit "Brassica oleracea capitata")
  = taxon_open (lit "Brassica") (lit "oleracea") [] (lit "capitata")
    ++ lit "<sp>Brassica</sp> <sp>oleracea</sp> <sp>capitata</sp></taxon>".
Proof.
  apply (three_tokens_as_empty_rank (lit "Brassica oleracea capitata")
           (t0 := lit "Brassica") (t1 := lit "oleracea")
           (t2 := lit "capitata")); reflexivity.
Defined.

(** C7 as stated fails: the middle token "[ara]" is neither a rank
    marker nor parenthetical, yet the species attribute is "ara" and not
    the token. *)
Lemma three_tokens_enclosed_counterexample :
  Py.split (lit "Ara [ara] macao")
  = [lit "Ara"; lit "[ara]"; lit "macao"]
  /\ is_sp_marker (lit "[ara]") = false
  /\ is_parenthetical (lit "[ara]") = false
  /\ get_species_link (lit "Ara [ara] macao")
     = taxon_open (lit "Ara") (lit "ara") [] (lit "macao")
       ++ lit "<sp>Ara</sp> <sp>[ara]</sp> <sp>macao</sp></taxon>"
  /\ get_species_link (lit "Ara [ara] macao")
     <> taxon_open (lit "Ara") (lit "[ara]") [] (lit "macao")
        ++ lit "<sp>Ara</sp> <sp>[ara]</sp> <sp>macao</sp></taxon>".
Proof.
  repeat split; try reflexivity.
  vm_compute. discriminate.
Qed.

(** C8: "Brassica sp." and "Brassica spp." are formatted as "Brassica"
    alone: a genus-only link, the rank marker dropped. *)
Theorem sp_spp_collapse :
  get_species_link (lit "Brassica sp.") = get_species_link (lit "Brassica")
  /\ get_species_link (lit "Brassica spp.") = get_species_link (lit "Brassica")
  /\ get_species_link (lit "Brassica")
     = taxon_open (lit "Brassica") [] [] []
       ++ lit "<sp>Brassica</sp></taxon>".
Proof. repeat split; vm_compute; reflexivity. Qed.

(** The same for every genus token. *)
Lemma rank_marker_dropped link genus marker :
  Py.split link = [genus; marker] ->
  marker = lit "sp." \/ marker = lit "spp." ->
  get_species_link link = get_species_link genus
  /\ get_species_link link
     = taxon_open genus [] [] [] ++ sp genus ++ taxon_close.
Proof.
  intros Hs Hm.
  assert (Hg : get_species_link link
               = taxon_open genus [] [] [] ++ sp genus ++ taxon_close).
  { unfold get_species_link. rewrite Hs. cbn [length tok nth].
    destruct Hm as [-> | ->]; reflexivity. }
  split; [|exact Hg]. rewrite Hg.
  unfold get_species_link.
  destruct (split_tokens link genus) as [Hne Hws]; [rewrite Hs; now left|].
  now rewrite (split_token Hne Hws).
Qed.

(** C10: a string of exactly three tokens whose middle one is "sp." or
    "spp." is returned as it is. *)
Theorem three_tokens_rank_marker_unchanged link t0 t1 t2 :
  Py.split link = [t0; t1; t2] ->
  t1 = lit "sp." \/ t1 = lit "spp." ->
  get_species_link link = link.
Proof.
  intros Hs Hm. unfold get_species_link. rewrite Hs. cbn [length tok nth].
  destruct Hm as [-> | ->]; reflexivity.
Qed.

Lemma three_tokens_rank_marker_unchanged_witness :
  get_species_link (lit "Brassica sp. nov") = lit "Brassica sp. nov".
Proof.
  apply (three_tokens_rank_marker_unchanged (lit "Brassica sp. nov")
           (t0 := lit "Brassica") (t1 := lit "sp.") (t2 := lit "nov")).
  - reflexivity.
  - now left.
Defined.

(** ** The matcher *)

Section MatcherFacts.

Variable ci : bool.
Variable n : nat.

Lemma star_loop_ext body body' k k' fuel : forall rest,
  (forall x h h', (forall y, h y = h' y) -> body x h = body' x h') ->
  (forall y, k y = k' y) ->
  Re.star_loop body k fuel rest = Re.star_loop body' k' fuel rest.
Proof.
  induction fuel as [|fuel IH]; intros rest Hb Hk; simpl; [apply Hk|].
  rewrite (Hb rest _ (fun rest' => if length rest' <? length rest
                                   then Re.star_loop body' k' fuel rest'
                                   else None)).
  - now rewrite Hk.
  - intros y. destruct (length y <? length rest); [|reflexivity].
    now apply IH.
Qed.

Lemma rmatch_ext r : forall rest k k',
  (forall y, k y = k' y) ->
  Re.rmatch ci n r rest k = Re.rmatch ci n r rest k'.
Proof.
  induction r; intros rest k k' Hk; simpl.
  - apply Hk.
  - destruct rest as [|a rest]; [reflexivity|].
    destruct (Re.char_eq ci c a); [apply Hk|reflexivity].
  - destruct rest as [|a rest]; [reflexivity|].
    destruct (Ascii.eqb a Py.newline); [reflexivity|apply Hk].
  - destruct rest as [|a rest]; [reflexivity|].
    destruct (existsb _ cs); [apply Hk|reflexivity].
  - now rewrite Hk.
  - destruct rest as [|a [|b rest]]; try reflexivity; now rewrite Hk.
  - apply IHr1. intros y. now apply IHr2.
  - rewrite (IHr1 rest k k' Hk), (IHr2 rest k k' Hk). reflexivity.
  - now apply IHr.
  - now rewrite (IHr rest k k' Hk), Hk.
  - apply star_loop_ext; [|assumption].
    intros x h h' Hh. now apply IHr.
Qed.

(** Whatever the matcher returns, the continuation returned it after
    a match. *)
Lemma rmatch_sound r : forall rest k out,
  Re.rmatch ci n r rest k = Some out ->
  exists y, Re.Matches ci n r rest y /\ k y = Some out.
Proof.
  induction r; intros rest k out H; simpl in H.
  - exists rest. split; [constructor|assumption].
  - destruct rest as [|a rest]; [discriminate|].
    destruct (Re.char_eq ci c a) eqn:E; [|discriminate].
    exists rest. split; [now constructor|assumption].
  - destruct rest as [|a rest]; [discriminate|].
    destruct (Ascii.eqb a Py.newline) eqn:E; [discriminate|].
    exists rest. split; [now constructor|assumption].
  - destruct rest as [|a rest]; [discriminate|].
    destruct (existsb _ cs) eqn:E; [|discriminate].
    exists rest. split; [now constructor|assumption].
  - destruct (length rest =? n) eqn:E; [|discriminate].
    apply Nat.eqb_eq in E.
    exists rest. split; [now constructor|assumption].
  - destruct rest as [|a [|b rest]]; try discriminate.
    + exists []. split; [constructor|assumption].
    + destruct (Ascii.eqb a Py.newline) eqn:E; [|discriminate].
      apply Ascii.eqb_eq in E. subst a.
      exists [Py.newline]. split; [constructor|assumption].
  - apply IHr1 in H as (y & Hy & H).
    apply IHr2 in H as (z & Hz & H).
    exists z. split; [econstructor; eassumption|assumption].
  - destruct (Re.rmatch ci n r1 rest k) eqn:E.
    + injection H as <-. apply IHr1 in E as (y & Hy & E).
      exists y. split; [now apply Re.MAltL|assumption].
    + apply IHr2 in H as (y & Hy & H).
      exists y. split; [now apply Re.MAltR|assumption].
  - apply IHr in H as (y & Hy & H).
    exists y. split; [now constructor|assumption].
  - destruct (Re.rmatch ci n r rest k) eqn:E.
    + injection H as <-. apply IHr in E as (y & Hy & E).
      exists y. split; [now apply Re.MOptSome|assumption].
    + exists rest. split; [apply Re.MOptNone|assumption].
  - revert H. generalize (length rest) as fuel. intros fuel. revert rest.
    induction fuel as [|fuel IHf]; intros rest H; simpl in H.
    + exists rest. split; [apply Re.MStarNil|assumption].
    + destruct (Re.rmatch ci n r rest _) eqn:E.
      * injection H as <-. apply IHr in E as (y & Hy & E).
        destruct (length y <? length rest) eqn:El; [|discriminate].
        apply Nat.ltb_lt in El.
        apply IHf in E as (z & Hz & E).
        exists z. split; [|assumption].
        eapply Re.MStarCons; eassumption.
      * exists rest. split; [apply Re.MStarNil|assumption].
Qed.

(** A match leaves a suffix of what it started from. *)
Lemma Matches_suffix r x y :
  Re.Matches ci n r x y -> exists p, x = p ++ y.
Proof.
  induction 1;
    try (now exists []);
    try (now exists [c]);
    try assumption.
  - destruct IHMatches1 as [p ->]. destruct IHMatches2 as [q ->].
    exists (p ++ q). now rewrite app_assoc.
  - destruct IHMatches1 as [p ->]. destruct IHMatches2 as [q ->].
    exists (p ++ q). now rewrite app_assoc.
Qed.

Lemma Matches_length r x y :
  Re.Matches ci n r x y -> length y <= length x.
Proof.
  intros H. apply Matches_suffix in H as [p ->].
  rewrite length_app. lia.
Qed.

Lemma rmatch_none r rest :
  Re.rmatch ci n r rest (fun _ => None) = None.
Proof.
  destruct (Re.rmatch ci n r rest (fun _ => None)) eqn:E; [|reflexivity].
  apply rmatch_sound in E as (y & _ & E). discriminate.
Qed.

Lemma rmatch_refused r rest k :
  (forall y, k y = None) -> Re.rmatch ci n r rest k = None.
Proof.
  intros Hk. rewrite (rmatch_ext r rest k (fun _ => None) Hk).
  apply rmatch_none.
Qed.

(** More fuel than the length of the text changes nothing. *)
Lemma star_loop_fuel r k : forall fuel fuel' rest,
  length rest <= fuel -> length rest <= fuel' ->
  Re.star_loop (Re.rmatch ci n r) k fuel rest
  = Re.star_loop (Re.rmatch ci n r) k fuel' rest.
Proof.
  induction fuel as [|fuel IH]; intros fuel' rest Hf Hf'.
  - destruct rest; [|simpl in Hf; lia].
    destruct fuel' as [|fuel']; [reflexivity|].
    cbn [Re.star_loop]. now rewrite rmatch_refused.
  - destruct fuel' as [|fuel'].
    + destruct rest; [|simpl in Hf'; lia].
      cbn [Re.star_loop]. now rewrite rmatch_refused.
    + cbn [Re.star_loop].
      rewrite (rmatch_ext r rest _
                 (fun rest' => if length rest' <? length rest
                               then Re.star_loop (Re.rmatch ci n r) k fuel' rest'
                               else None)); [reflexivity|].
      intros y. destruct (length y <? length rest) eqn:E; [|reflexivity].
      apply Nat.ltb_lt in E. apply IH; lia.
Qed.

(** Where a match exists that the continuation accepts, the matcher
    finds one. *)
Lemma rmatch_complete r x y :
  Re.Matches ci n r x y ->
  forall k, k y <> None -> Re.rmatch ci n r x k <> None.
Proof.
  induction 1; intros k Hk; simpl; try assumption.
  - now rewrite H.
  - now rewrite H.
  - now rewrite H.
  - now rewrite H, Nat.eqb_refl.
  - apply IHMatches1. now apply IHMatches2.
  - specialize (IHMatches k Hk).
    destruct (Re.rmatch ci n r1 x k); [discriminate|contradiction].
  - destruct (Re.rmatch ci n r1 x k); [discriminate|now apply IHMatches].
  - now apply IHMatches.
  - specialize (IHMatches k Hk).
    destruct (Re.rmatch ci n r x k); [discriminate|contradiction].
  - destruct (Re.rmatch ci n r x k); [discriminate|assumption].
  - destruct (length x); simpl; [assumption|].
    destruct (Re.rmatch ci n r x _); [discriminate|assumption].
  - destruct (length x) as [|fuel] eqn:El; [lia|]. simpl.
    match goal with
    | |- match Re.rmatch ci n r x ?K with _ => _ end <> None =>
        assert (HK : Re.rmatch ci n r x K <> None)
    end.
    { apply IHMatches1. rewrite El.
      replace (length y <? S fuel) with true
        by (symmetry; apply Nat.ltb_lt; lia).
      rewrite star_loop_fuel with (fuel' := length y) by lia.
      now apply (IHMatches2 k). }
    destruct (Re.rmatch ci n r x _); [discriminate|contradiction].
Qed.

End MatcherFacts.

(** ** The spans of [finditer] *)

Lemma spans_ok_weaken lo lo' hi ms :
  lo <= lo' -> spans_ok lo' hi ms -> spans_ok lo hi ms.
Proof.
  destruct ms as [|[s e] ms]; simpl; [trivial|].
  intros Hlo (H1 & H2 & H3 & H4). repeat split; try assumption. lia.
Qed.

Lemma match_here_length ci n r must rest out :
  Re.match_here ci n r must rest = Some out ->
  length out <= length rest
  /\ (must = true -> length out < length rest).
Proof.
  unfold Re.match_here. intros H.
  apply rmatch_sound in H as (y & Hy & H).
  apply Matches_length in Hy.
  destruct must; simpl in H.
  - destruct (length y =? length rest) eqn:E; [discriminate|].
    injection H as <-. apply Nat.eqb_neq in E. split; [assumption|]. lia.
  - injection H as <-. split; [assumption|discriminate].
Qed.

Lemma scan_spans ci n r : forall rest busy,
  length rest <= n -> busy <= length rest ->
  spans_ok (n - length rest + busy) n (Re.scan ci n r busy rest).
Proof.
  induction rest as [|c rest IH]; intros busy Hn Hb.
  - assert (busy = 0) as -> by (simpl in Hb; lia).
    cbn [Re.scan Re.advance].
    destruct (Re.match_here ci n r false []) as [out|] eqn:E; [|exact I].
    apply match_here_length in E as [E _]. destruct out; [|simpl in E; lia].
    cbn [length Nat.eqb].
    destruct (Re.match_here ci n r true []) as [out'|] eqn:E'.
    + apply match_here_length in E' as [_ E']. specialize (E' eq_refl).
      simpl in E'. lia.
    + unfold Re.span_of. simpl. repeat split; lia.
  - cbn [length] in Hn, Hb.
    assert (Hstep : forall b, b <= length rest ->
              spans_ok (n - S (length rest) + S b) n
                (Re.advance (c :: rest) (Re.scan ci n r b))).
    { intros b Hle. cbn [Re.advance].
      replace (n - S (length rest) + S b) with (n - length rest + b) by lia.
      apply IH; lia. }
    destruct busy as [|b].
    + cbn [Re.scan].
      destruct (Re.match_here ci n r false (c :: rest)) as [out|] eqn:E.
      * apply match_here_length in E as [E _]. cbn [length] in E.
        destruct (length out =? length (c :: rest)) eqn:El.
        -- apply Nat.eqb_eq in El. cbn [length] in El.
           unfold Re.span_of at 1. cbn [length spans_ok].
           rewrite El. repeat split; try lia.
           destruct (Re.match_here ci n r true (c :: rest)) as [out'|] eqn:E'.
           ++ apply match_here_length in E' as [_ E'].
              specialize (E' eq_refl). cbn [length] in E'.
              unfold Re.span_of. cbn [length spans_ok].
              repeat split; try lia.
              eapply spans_ok_weaken; [|apply Hstep; lia]. lia.
           ++ eapply spans_ok_weaken; [|apply (Hstep 0); lia]. lia.
        -- apply Nat.eqb_neq in El. cbn [length] in El.
           unfold Re.span_of. cbn [length spans_ok].
           repeat split; try lia.
           eapply spans_ok_weaken; [|apply Hstep; lia]. lia.
      * cbn [length].
        eapply spans_ok_weaken; [|apply (Hstep 0); lia]. lia.
    + cbn [Re.scan length]. apply Hstep. lia.
Qed.

(** The spans [finditer] yields are in text order, do not overlap and
    lie inside the text. *)
Lemma finditer_spans pattern text ci ms :
  Re.finditer pattern text ci = inr ms -> spans_ok 0 (length text) ms.
Proof.
  unfold Re.finditer. destruct (Re.compile pattern); [discriminate|].
  intros [= <-].
  eapply spans_ok_weaken; [|apply scan_spans; lia]. lia.
Qed.

(** ** Replacing the matches from right to left *)

Lemma spans_ok_snoc lo hi ms s e :
  spans_ok lo hi (ms ++ [(s, e)]) ->
  spans_ok lo s ms /\ lo <= s /\ s <= e /\ e <= hi.
Proof.
  revert lo. induction ms as [|[a b] ms IH]; intros lo; simpl.
  - intros (H1 & H2 & H3 & _). auto.
  - intros (H1 & H2 & H3 & H4). apply IH in H4 as (H4 & H5 & H6 & H7).
    repeat split; try assumption; lia.
Qed.

Lemma weave_upto_snoc repl text hi ms s e : forall i pos,
  weave_upto repl text hi i pos (ms ++ [(s, e)])
  = weave_upto repl text s i pos ms
    ++ repl (i + length ms) (Py.slice text s e) ++ Py.slice text e hi.
Proof.
  induction ms as [|[a b] ms IH]; intros i pos; simpl.
  - now rewrite Nat.add_0_r.
  - rewrite IH. rewrite <- !app_assoc.
    now replace (S i + length ms) with (i + S (length ms)) by lia.
Qed.

Lemma slice_prefix text tail p s e :
  s <= e -> e <= p -> p <= length text ->
  firstn s (firstn p text ++ tail) = firstn s text
  /\ Py.slice (firstn p text ++ tail) s e = Py.slice text s e
  /\ skipn e (firstn p text ++ tail) = Py.slice text e p ++ tail.
Proof.
  intros Hse Hep Hp. unfold Py.slice.
  assert (Hl : length (firstn p text) = p) by (rewrite length_firstn; lia).
  repeat split.
  - rewrite firstn_app, Hl, firstn_firstn.
    replace (s - p) with 0 by lia. replace (Nat.min s p) with s by lia.
    simpl. apply app_nil_r.
  - rewrite firstn_app, Hl, firstn_firstn.
    replace (e - p) with 0 by lia. replace (Nat.min e p) with e by lia.
    simpl. now rewrite app_nil_r.
  - rewrite skipn_app, Hl.
    replace (e - p) with 0 by lia. reflexivity.
Qed.

Lemma replace_loop_prefix repl text : forall pre post p tail,
  spans_ok 0 p pre -> p <= length text ->
  replace_loop repl (pre ++ post) (length pre) (firstn p text ++ tail)
  = weave_upto repl text p 0 0 pre ++ tail.
Proof.
  induction pre as [|[s e] pre IH] using rev_ind; intros post p tail Hok Hp.
  - simpl. unfold Py.slice. now rewrite skipn_O.
  - apply spans_ok_snoc in Hok as (Hok & _ & Hse & Hep).
    rewrite length_app, Nat.add_comm. cbn [length Nat.add replace_loop].
    rewrite <- app_assoc.
    rewrite app_nth2 by lia. rewrite Nat.sub_diag. cbn [app nth].
    destruct (slice_prefix text tail Hse Hep Hp) as (-> & -> & ->).
    cbn [app]. rewrite IH by (assumption || lia).
    rewrite weave_upto_snoc. now rewrite <- !app_assoc.
Qed.

(** The loop is the left-to-right reading [weave]. *)
Lemma replace_loop_weave repl text matches :
  spans_ok 0 (length text) matches ->
  replace_loop repl matches (length matches) text = weave repl text matches.
Proof.
  intros Hok.
  pose proof (replace_loop_prefix repl text matches [] [] Hok (le_n _)) as H.
  rewrite firstn_all, !app_nil_r in H. exact H.
Qed.

(** C9: when the matches of a pass are in text order and do not
    overlap, replacing them from the last to the first yields the text's
    own characters between the matches, in place and in order, with each
    match replaced: what lies outside the matches is unchanged. *)
Theorem replace_loop_frame repl text matches :
  spans_ok 0 (length text) matches ->
  replace_loop repl matches (length matches) text
  = weave_upto repl text (length text) 0 0 matches.
Proof. apply replace_loop_weave. Qed.

Lemma replace_loop_frame_witness :
  replace_loop (fun _ m => italic m) [(2, 5); (9, 11)] 2 (lit "a Bos and Zea b")
  = lit "a " ++ italic (lit "Bos") ++ lit " and" ++ italic (lit " Z")
    ++ lit "ea b".
Proof.
  refine (replace_loop_frame (fun _ m => italic m) (lit "a Bos and Zea b")
            [(2, 5); (9, 11)] _).
  simpl. lia.
Defined.

(** ** Compiling escaped text *)

Lemma special_escaped c : Re.is_special c = true -> Re.escaped c = Some c.
Proof.
  unfold Re.is_special. rewrite existsb_exists.
  intros (x & Hin & Hx). apply Ascii.eqb_eq in Hx. subst x.
  cbv [Re.special_chars lit list_ascii_of_string map app] in Hin.
  repeat (destruct Hin as [<-|Hin]; [reflexivity|]).
  destruct Hin.
Qed.

Lemma not_special c x :
  Re.is_special c = false -> In x Re.special_chars -> Ascii.eqb c x = false.
Proof.
  unfold Re.is_special. intros H Hin.
  destruct (Ascii.eqb c x) eqn:E; [|reflexivity].
  rewrite <- H. symmetry. apply existsb_exists. now exists x.
Qed.

Lemma parse_literal c s cur stack :
  Re.is_special c = false ->
  Re.parse_from cur stack None (c :: s)
  = Re.parse_from (Re.push cur (Re.Lit c)) stack None s.
Proof.
  intros H. cbn [Re.parse_from].
  assert (In_special : forall x, In x Re.special_chars -> Ascii.eqb c x = false)
    by (intros x; now apply not_special).
  rewrite !In_special by (vm_compute; tauto).
  reflexivity.
Qed.

Lemma parse_escape s : forall cur stack rest,
  Re.parse_from cur stack None (Re.escape s ++ rest)
  = Re.parse_from (push_lits cur s) stack None rest.
Proof.
  induction s as [|c s IH]; intros cur stack rest; [reflexivity|].
  cbn [Re.escape push_lits fold_left].
  destruct (Re.is_special c) eqn:E.
  - cbn [app Re.parse_from]. rewrite (special_escaped c E).
    change (Ascii.eqb Re.backslash "(") with false.
    cbv iota. cbn. apply IH.
  - cbn [app]. rewrite parse_literal by assumption. apply IH.
Qed.

(** An escaped text never starts with a character that would turn the
    quantifier before it lazy or possessive, nor a group into an
    extension. *)
Lemma escape_head s rest :
  match Re.escape s ++ rest with
  | q :: _ => Ascii.eqb q "?" || Ascii.eqb q "+" = true ->
              match rest with
              | q' :: _ => s = [] /\ q' = q
              | [] => False
              end
  | [] => True
  end.
Proof.
  destruct s as [|c s]; simpl.
  - destruct rest; auto.
  - destruct (Re.is_special c) eqn:E; simpl; [discriminate|].
    intros H. apply orb_prop in H as [H|H];
      apply Ascii.eqb_eq in H; subst c; vm_compute in E; discriminate.
Qed.

Lemma escape_not_lazy s :
  Re.lazy_or_possessive (Re.escape s) = false.
Proof.
  pose proof (escape_head s []) as H. rewrite app_nil_r in H.
  unfold Re.lazy_or_possessive. destruct (Re.escape s) as [|q t]; [reflexivity|].
  destruct (Ascii.eqb q "?" || Ascii.eqb q "+"); [|reflexivity].
  now specialize (H eq_refl).
Qed.

Lemma compile_name_pattern a b :
  Re.compile (Re.escape a ++ separator ++ Re.escape b)
  = inr (name_regex a b).
Proof.
  unfold Re.compile, name_regex. rewrite parse_escape.
  generalize (push_lits Re.empty_frame a) as f. intros f.
  pose proof (escape_not_lazy b) as Hb.
  unfold separator. cbn [lit list_ascii_of_string app].
  cbn [Re.parse_from Ascii.eqb Bool.eqb Re.quantify Re.items Re.push
         Re.is_anchor Re.is_repeat Re.lazy_or_possessive Re.escaped
         Re.backslash orb andb].
  rewrite Hb.
  rewrite <- (app_nil_r (Re.escape b)), parse_escape. reflexivity.
Qed.
(** ** The pattern of the genus pass *)

Lemma master_reg_loop_eq epithets : forall count i acc,
  i + count = length epithets - 1 ->
  master_reg_loop epithets count i acc
  = acc ++ alternatives (firstn count (skipn i epithets)).
Proof.
  induction count as [|count IH]; intros i acc Hi.
  - simpl. now rewrite app_nil_r.
  - cbn [master_reg_loop].
    replace (i <? length epithets - 1) with true
      by (symmetry; apply Nat.ltb_lt; lia).
    rewrite IH by lia.
    assert (Hskip : skipn i epithets = nth i epithets [] :: skipn (S i) epithets).
    { clear - Hi. revert i Hi.
      induction epithets as [|e es IH]; intros i Hi; [simpl in Hi; lia|].
      destruct i as [|i]; [reflexivity|].
      cbn [skipn nth]. apply IH. simpl in *. lia. }
    rewrite Hskip. cbn [firstn alternatives map concat].
    now rewrite <- !app_assoc.
Qed.

Lemma master_reg_eq genus epithets :
  master_reg genus epithets
  = (lit "<taxon genus=" ++ [dq]) ++ Re.escape genus
    ++ ([dq] ++ lit " species=" ++ [dq] ++ lit "(")
    ++ alternatives (firstn (length epithets - 1) epithets).
Proof.
  unfold master_reg. rewrite master_reg_loop_eq by lia.
  rewrite skipn_O. now rewrite <- !app_assoc.
Qed.

Lemma parse_alternatives es : forall cur f stack,
  Re.parse_from cur (f :: stack) None (alternatives es) = inl Re.MissingParen.
Proof.
  induction es as [|e es IH]; intros cur f stack; [reflexivity|].
  cbn [alternatives map concat]. rewrite <- app_assoc, parse_escape.
  cbn [lit list_ascii_of_string app Re.parse_from Ascii.eqb Bool.eqb].
  apply IH.
Qed.

Lemma alternatives_head es :
  match alternatives es with
  | q :: _ => Ascii.eqb q "?" = false
  | [] => True
  end.
Proof.
  destruct es as [|e es]; [exact I|].
  cbn [alternatives map concat]. rewrite <- app_assoc.
  pose proof (escape_head e (lit "|" ++ concat (map (fun e => Re.escape e ++ lit "|") es))) as H.
  destruct (Re.escape e ++ _) as [|q t]; [exact I|].
  destruct (Ascii.eqb q "?") eqn:E; [|reflexivity].
  simpl in H. destruct H as [_ H]; [reflexivity|].
  subst q. discriminate.
Qed.

Lemma parse_open_group cur stack body :
  match body with
  | q :: _ => Ascii.eqb q "?" = false
  | [] => True
  end ->
  Re.parse_from cur stack None ("("%char :: body)
  = Re.parse_from Re.empty_frame (cur :: stack) None body.
Proof.
  destruct body as [|q t]; intros H; [reflexivity|].
  change (Re.parse_from cur stack None ("("%char :: q :: t))
    with (if Ascii.eqb q "?" then inl Re.Unsupported
          else Re.parse_from Re.empty_frame (cur :: stack) None (q :: t)).
  now rewrite H.
Qed.

Lemma master_reg_unterminated genus epithets :
  Re.compile (master_reg genus epithets) = inl Re.MissingParen.
Proof.
  rewrite master_reg_eq. unfold Re.compile.
  change (Re.parse_from Re.empty_frame [] None
            ((lit "<taxon genus=" ++ [dq]) ++ ?x))
    with (Re.parse_from (push_lits Re.empty_frame (lit "<taxon genus=" ++ [dq]))
            [] None x).
  rewrite parse_escape.
  generalize (push_lits (push_lits Re.empty_frame (lit "<taxon genus=" ++ [dq])) genus).
  intros f.
  change (Re.parse_from f [] None
            (([dq] ++ lit " species=" ++ [dq] ++ lit "(") ++ ?x))
    with (Re.parse_from (push_lits f ([dq] ++ lit " species=" ++ [dq]))
            [] None ("("%char :: x)).
  rewrite parse_open_group by apply alternatives_head.
  apply parse_alternatives.
Qed.

(** C1, on the code: whatever the genus and its epithets, the pattern
    the pass builds ends inside its group, and the search of the
    abstract with it raises [re.error] instead of yielding spans. *)
Theorem genus_pass_pattern_raises index genus text :
  master_reg (lit "Brassica") [lit "oleracea"]
  = lit "<taxon genus=" ++ [dq] ++ lit "Brassica" ++ [dq]
    ++ lit " species=" ++ [dq] ++ lit "("
  /\ Re.finditer (master_reg genus (dict_get genus index)) text true
     = inl Re.MissingParen
  /\ genus_step index genus text = Raise (ReError Re.MissingParen)
  /\ insert_species_links [lit "Brassica oleracea"]
       (Document [lit "Brassicas"] [lit "Brassica oleracea grows."])
     = Raise (ReError Re.MissingParen).
Proof.
  assert (H : Re.finditer (master_reg genus (dict_get genus index)) text true
              = inl Re.MissingParen).
  { unfold Re.finditer. now rewrite master_reg_unterminated. }
  split; [reflexivity|]. split; [exact H|]. split.
  - unfold genus_step. now rewrite H.
  - vm_compute. reflexivity.
Qed.

(** ** The filter on the lines of the species list *)

Lemma compile_space_pattern : Re.compile (lit ".* .*") = inr space_regex.
Proof. reflexivity. Qed.

Lemma search_from_found ci n r : forall p x,
  Re.match_here ci n r false x <> None ->
  Re.search_from ci n r (p ++ x) <> None.
Proof.
  induction p as [|c p IH]; intros x Hx.
  - destruct x; simpl; destruct (Re.match_here _ _ _ _ _); congruence.
  - simpl. destruct (Re.match_here ci n r false (c :: p ++ x)).
    + discriminate.
    + now apply IH.
Qed.

Lemma search_from_sound ci n r : forall x sp,
  Re.search_from ci n r x = Some sp ->
  exists p y out, x = p ++ y /\ Re.match_here ci n r false y = Some out.
Proof.
  induction x as [|c x IH]; intros sp H; simpl in H.
  - destruct (Re.match_here ci n r false []) as [out|] eqn:E; [|discriminate].
    now exists [], [], out.
  - destruct (Re.match_here ci n r false (c :: x)) as [out|] eqn:E.
    + now exists [], (c :: x), out.
    + apply IH in H as (p & y & out & -> & H).
      now exists (c :: p), y, out.
Qed.

Lemma space_regex_matches n x y :
  Re.Matches false n space_regex x y -> In " "%char x.
Proof.
  unfold space_regex. intros H.
  inversion H as [| | | | | | |r1 r2 a b c H1 H2| | | | | | |]; subst.
  inversion H2 as [| | | | | | |r1 r2 a' b' c' H3 H4| | | | | | |]; subst.
  inversion H3 as [|p d z E| | | | | | | | | | | | |]; subst.
  apply Matches_suffix in H1 as [p ->].
  apply in_or_app. right. left.
  unfold Re.char_eq in E. now apply Ascii.eqb_eq in E.
Qed.

(** A line passes the filter exactly when it has a space. *)
Lemma space_filter_pass species :
  In " "%char species ->
  exists sp, Re.search (lit ".* .*") species false = inr (Some sp).
Proof.
  intros Hin. unfold Re.search. rewrite compile_space_pattern.
  apply in_split in Hin as (p & q & ->).
  destruct (Re.search_from false (length (p ++ " "%char :: q)) space_regex
              (p ++ " "%char :: q)) as [sp|] eqn:E; [now exists sp|].
  exfalso. revert E. apply search_from_found.
  unfold Re.match_here.
  apply rmatch_complete with (y := q); [|discriminate].
  unfold space_regex.
  eapply Re.MSeq; [apply Re.MStarNil|].
  eapply Re.MSeq; [now apply Re.MLit|].
  eapply Re.MSeq; [apply Re.MStarNil|apply Re.MEps].
Qed.

Lemma space_filter_skip species :
  ~ In " "%char species ->
  Re.search (lit ".* .*") species false = inr None.
Proof.
  intros Hin. unfold Re.search. rewrite compile_space_pattern.
  destruct (Re.search_from false (length species) space_regex species)
    as [sp|] eqn:E; [|reflexivity].
  exfalso. apply Hin.
  apply search_from_sound in E as (p & y & out & -> & E).
  unfold Re.match_here in E. apply rmatch_sound in E as (z & Hz & _).
  apply in_or_app. right. eapply space_regex_matches. eassumption.
Qed.

(** ** One entry of the species list *)

Lemma split_on_from_nonempty sep y : forall cur,
  1 <= length (Py.split_on_from sep cur y).
Proof.
  induction y as [|c y IH]; intros cur; simpl; [lia|].
  destruct (Ascii.eqb c sep); simpl; [lia|apply IH].
Qed.

Lemma split_on_from_length sep x : forall cur y,
  2 <= length (Py.split_on_from sep cur (x ++ sep :: y)).
Proof.
  induction x as [|c x IH]; intros cur y; simpl.
  - rewrite Ascii.eqb_refl. simpl.
    pose proof (split_on_from_nonempty sep y []). lia.
  - destruct (Ascii.eqb c sep); simpl; [|apply IH].
    specialize (IH [] y). lia.
Qed.

Lemma short_parts_length initial parts :
  (1 <? length (short_parts_of initial parts)) = true.
Proof.
  apply Nat.ltb_lt. unfold short_parts_of, Py.split_on.
  change ([initial] ++ lit ". " ++ Py.join (lit " ") (skipn 1 parts))
    with ((initial :: lit ".") ++ " "%char :: Py.join (lit " ") (skipn 1 parts)).
  pose proof (split_on_from_length " " (initial :: lit ".") []
                (Py.join (lit " ") (skipn 1 parts))). lia.
Qed.

Lemma finditer_name_pattern a b text :
  Re.finditer (Re.escape a ++ separator ++ Re.escape b) text true
  = inr (Re.scan true (length text) (name_regex a b) 0 text).
Proof. unfold Re.finditer. now rewrite compile_name_pattern. Qed.

Lemma scan_spans_text ci r text :
  spans_ok 0 (length text) (Re.scan ci (length text) r 0 text).
Proof.
  eapply spans_ok_weaken; [|apply scan_spans; lia]. lia.
Qed.

(** A line with a space, whose genus is not empty, in a block whose
    dict exists: the entry is registered and the text becomes
    [entry_effect]. *)
Lemma species_step_entry slot ctx line dicts text pseudo species pos initial :
  In " "%char line ->
  strip_asterisk line = Ok (pseudo, species) ->
  list_index dicts slot = Ok pos ->
  first_char (tok (Py.split_on " " species) 0) = Ok initial ->
  species_step slot ctx line (dicts, text)
  = let parts := Py.split_on " " species in
    let dicts' :=
      update_nth pos (register (entry_key pseudo parts) (tok parts 1)) dicts in
    Ok (dicts',
        entry_effect ctx pseudo parts initial (nth pos dicts' []) text).
Proof.
  intros Hsp Hstrip Hpos Hinit.
  unfold species_step.
  destruct (space_filter_pass line Hsp) as [sp0 ->].
  cbn [re_call bind]. rewrite Hstrip. cbn [bind].
  rewrite Hpos. cbn [bind]. rewrite Hinit. cbn [bind].
  unfold full_pattern. rewrite finditer_name_pattern. cbn [re_call bind].
  rewrite replace_loop_weave by apply scan_spans_text.
  fold (short_parts_of initial (Py.split_on " " species)).
  rewrite short_parts_length.
  unfold short_pattern. rewrite finditer_name_pattern. cbn [re_call bind].
  rewrite replace_loop_weave by apply scan_spans_text.
  reflexivity.
Qed.

(** A line without a space is skipped. *)
Lemma species_step_skip slot ctx line st :
  ~ In " "%char line -> species_step slot ctx line st = Ok st.
Proof.
  intros Hsp. unfold species_step. destruct st as [dicts text].
  now rewrite (space_filter_skip line Hsp).
Qed.

(** ** Which occurrence becomes a link *)

Lemma weave_upto_ext f g text hi ms : forall i pos,
  (forall j m, i <= j -> f j m = g j m) ->
  weave_upto f text hi i pos ms = weave_upto g text hi i pos ms.
Proof.
  induction ms as [|[s e] ms IH]; intros i pos H; simpl; [reflexivity|].
  rewrite (H i) by lia. rewrite (IH (S i) e); [reflexivity|].
  intros j m Hj. apply H. lia.
Qed.

(** C5: for a line of the list that starts with an asterisk, in a title
    as in an abstract, every match of the full name, the first
    included, is replaced by its normalised text in plain italics, and
    so is every match of the short form after it: the entry wraps
    nothing as a structured link. *)
Theorem pseudospecies_never_linked slot ctx rest dicts text pos initial :
  In " "%char rest ->
  list_index dicts slot = Ok pos ->
  first_char (tok (Py.split_on " " rest) 0) = Ok initial ->
  let parts := Py.split_on " " rest in
  let text1 := weave emphasis text (full_matches parts text) in
  let text2 := weave emphasis text1 (short_matches initial parts text1) in
  Re.finditer (full_pattern parts) text true = inr (full_matches parts text)
  /\ exists dicts',
      species_step slot ctx ("*"%char :: rest) (dicts, text)
      = Ok (dicts', text2).
Proof.
  intros Hsp Hpos Hinit parts text1 text2. split.
  - apply finditer_name_pattern.
  - eexists.
    rewrite (@species_step_entry slot ctx ("*"%char :: rest) dicts text
               true rest pos initial);
      [|now right|reflexivity|assumption|assumption].
    cbv zeta. do 2 f_equal. fold parts.
    unfold entry_effect.
    match goal with
    | |- context [after_full_names ctx true parts ?index text] =>
        assert (E : after_full_names ctx true parts index text = text1)
    end.
    { unfold after_full_names, text1, weave.
      apply weave_upto_ext. intros j m _.
      unfold full_replacement, emphasis. now rewrite andb_false_r. }
    rewrite E. reflexivity.
Qed.

Lemma pseudospecies_never_linked_witness :
  exists dicts',
    species_step (-1) false (lit "*Brassica oleracea")
      ([[]], lit "Brassica oleracea, B. oleracea and brassica  Oleracea.")
    = Ok (dicts',
          lit "<i>Brassica oleracea</i>, <i>B. oleracea</i> and <i>brassica Oleracea</i>.").
Proof.
  exact (proj2 (@pseudospecies_never_linked (-1) false (lit "Brassica oleracea")
                  [[]]
                  (lit "Brassica oleracea, B. oleracea and brassica  Oleracea.")
                  0 "B"%char
                  ltac:(vm_compute; tauto) eq_refl eq_refl)).
Defined.


(** ** The dict of a block *)

Lemma has_space_dec (line : str) : {In " "%char line} + {~ In " "%char line}.
Proof. apply in_dec, ascii_dec. Qed.

Lemma strip_asterisk_total line :
  In " "%char line -> exists pseudo species,
    strip_asterisk line = Ok (pseudo, species) /\ In " "%char species.
Proof.
  intros Hsp. destruct line as [|c line]; [contradiction|].
  unfold strip_asterisk. cbn [first_char bind].
  destruct (Ascii.eqb c "*") eqn:E.
  - exists true, line. split; [reflexivity|].
    apply Ascii.eqb_eq in E. subst c.
    destruct Hsp as [H|H]; [discriminate|assumption].
  - now exists false, (c :: line).
Qed.

Lemma species_loop_no_dict ctx species_list text :
  (exists line, In line species_list /\ In " "%char line) ->
  species_loop 0 ctx species_list ([], text) = Raise ListIndexError.
Proof.
  induction species_list as [|line lines IH]; intros (l & Hl & Hsp).
  - contradiction.
  - cbn [species_loop].
    destruct (has_space_dec line) as [Hline|Hline].
    + unfold species_step.
      destruct (space_filter_pass line Hline) as [sp0 ->].
      destruct (strip_asterisk_total line Hline) as (pseudo & species & -> & _).
      reflexivity.
    + rewrite species_step_skip by assumption. cbn [bind].
      apply IH. destruct Hl as [<-|Hl]; [contradiction|].
      now exists l.
Qed.

(** C3: with no title, one abstract or more and a line with a space in
    the species list, [insert_species_links] raises the index error of
    [genus_to_species[0]] on the empty list. *)
Theorem no_title_index_error species_list root :
  titles root = [] ->
  abstracts root <> [] ->
  (exists line, In line species_list /\ In " "%char line) ->
  insert_species_links species_list root = Raise ListIndexError.
Proof.
  intros Ht Ha Hline. unfold insert_species_links. rewrite Ht.
  cbn [titles_loop bind].
  destruct (abstracts root) as [|abstract rest]; [contradiction|].
  cbn [abstracts_loop]. unfold abstract_block.
  now rewrite species_loop_no_dict.
Qed.

Lemma no_title_index_error_witness :
  insert_species_links [lit "Brassica"; lit "Brassica oleracea"]
    (Document [] [lit "Brassica oleracea is a plant."])
  = Raise ListIndexError.
Proof.
  apply no_title_index_error.
  - reflexivity.
  - discriminate.
  - exists (lit "Brassica oleracea"). split; vm_compute; tauto.
Defined.

Lemma has_space_existsb line :
  existsb (Ascii.eqb " ") line = true <-> In " "%char line.
Proof.
  rewrite existsb_exists. split.
  - intros (x & Hin & Hx). apply Ascii.eqb_eq in Hx. now subst x.
  - intros H. exists " "%char. split; [assumption|apply Ascii.eqb_refl].
Qed.

Lemma update_nth_length A pos (f : A -> A) l :
  length (update_nth pos f l) = length l.
Proof.
  revert pos. induction l as [|x l IH]; intros [|pos]; simpl; auto.
Qed.

Lemma update_nth_twice A pos (f g : A -> A) l :
  update_nth pos f (update_nth pos g l) = update_nth pos (fun x => f (g x)) l.
Proof.
  revert pos. induction l as [|x l IH]; intros [|pos]; simpl; auto.
  now rewrite IH.
Qed.

Lemma update_nth_id A pos (l : list A) : update_nth pos (fun x => x) l = l.
Proof.
  revert pos. induction l as [|x l IH]; intros [|pos]; simpl; auto.
  now rewrite IH.
Qed.

Lemma update_nth_last A (f : A -> A) l x :
  update_nth (length l) f (l ++ [x]) = l ++ [f x].
Proof. induction l as [|y l IH]; simpl; [reflexivity|now rewrite IH]. Qed.

Lemma list_index_update A (l : list A) pos f slot :
  list_index (update_nth pos f l) slot = list_index l slot.
Proof. unfold list_index. now rewrite update_nth_length. Qed.

Lemma list_index_last A (l : list A) x :
  list_index (l ++ [x]) (-1) = Ok (length l).
Proof.
  unfold list_index. rewrite length_app. cbn [length].
  change ((0 <=? -1)%Z) with false. change ((-1 <? 0)%Z) with true.
  cbn [andb].
  replace (- Z.of_nat (length l + 1) <=? -1)%Z with true
    by (symmetry; apply Z.leb_le; lia).
  f_equal. lia.
Qed.

(** The step leaves the dicts as they were but for the one of its slot,
    where the line is registered. *)
Lemma species_step_dicts slot ctx line dicts text dicts' text' pos :
  species_step slot ctx line (dicts, text) = Ok (dicts', text') ->
  list_index dicts slot = Ok pos ->
  dicts' = update_nth pos (register_line line) dicts.
Proof.
  intros H Hpos. unfold register_line.
  destruct (has_space_dec line) as [Hsp|Hsp].
  - rewrite (proj2 (has_space_existsb line) Hsp).
    destruct (strip_asterisk_total line Hsp) as (pseudo & species & Hs & _).
    rewrite Hs.
    destruct (first_char (tok (Py.split_on " " species) 0)) as [initial|e] eqn:Hi.
    + rewrite (@species_step_entry slot ctx line dicts text pseudo species
                 pos initial Hsp Hs Hpos Hi) in H.
      cbv zeta in H. now injection H as <- _.
    + exfalso. revert H. unfold species_step.
      destruct (space_filter_pass line Hsp) as [sp0 ->].
      cbn [re_call bind]. rewrite Hs. cbn [bind]. rewrite Hpos. cbn [bind].
      rewrite Hi. discriminate.
  - rewrite species_step_skip in H by assumption. injection H as <- _.
    destruct (existsb (Ascii.eqb " ") line) eqn:E.
    + apply has_space_existsb in E. contradiction.
    + symmetry. apply update_nth_id.
Qed.

Lemma species_loop_dicts slot ctx lines : forall dicts text dicts' text' pos,
  species_loop slot ctx lines (dicts, text) = Ok (dicts', text') ->
  list_index dicts slot = Ok pos ->
  dicts' = update_nth pos (register_lines lines) dicts.
Proof.
  induction lines as [|line lines IH]; intros dicts text dicts' text' pos H Hpos.
  - injection H as <- _. symmetry. apply update_nth_id.
  - cbn [species_loop] in H.
    destruct (species_step slot ctx line (dicts, text)) as [[d1 t1]|e] eqn:E;
      [|discriminate].
    cbn [bind] in H.
    pose proof (species_step_dicts _ _ _ _ _ E Hpos) as ->.
    apply IH with (pos := pos) in H; [|now rewrite list_index_update].
    rewrite H, update_nth_twice. reflexivity.
Qed.

(** Part 1 appends one dict per title, filled from empty by the loop
    of that title alone. *)
Lemma titles_loop_dicts species_list titles : forall dicts dicts' titles',
  titles_loop species_list titles dicts = Ok (dicts', titles') ->
  dicts' = dicts ++ map (fun _ => register_lines species_list []) titles.
Proof.
  induction titles as [|title titles IH]; intros dicts dicts' titles' H.
  - injection H as <- _. symmetry. apply app_nil_r.
  - cbn [titles_loop] in H.
    destruct (species_loop (-1) false species_list (dicts ++ [[]], title))
      as [[d1 t1]|e] eqn:E; [|discriminate].
    cbn [bind] in H.
    apply species_loop_dicts with (pos := length dicts) in E.
    + rewrite update_nth_last in E. subst d1.
      destruct (titles_loop species_list titles _) as [[d2 t2]|e] eqn:E2;
        [|discriminate].
      injection H as <- _. apply IH in E2. subst d2.
      cbn [map]. now rewrite <- app_assoc.
    + apply list_index_last.
Qed.
(** ** Registering is idempotent *)

Lemma dict_mem_set key key' v d :
  dict_mem key (dict_set key' v d) = dict_mem key d || str_eqb key key'.
Proof.
  unfold dict_mem. induction d as [|[k w] d IH]; simpl.
  - now rewrite orb_false_r.
  - destruct (str_eqb key' k) eqn:E; simpl.
    + apply str_eqb_eq in E. subst k.
      destruct (str_eqb key key'); simpl; [reflexivity|].
      now rewrite orb_false_r.
    + rewrite IH. now rewrite orb_assoc.
Qed.

Lemma dict_get_set_same key v d : dict_get key (dict_set key v d) = v.
Proof.
  induction d as [|[k w] d IH]; simpl.
  - now rewrite str_eqb_refl.
  - destruct (str_eqb key k) eqn:E; simpl; now rewrite E.
Qed.

Lemma dict_get_set_other key key' v d :
  key <> key' -> dict_get key (dict_set key' v d) = dict_get key d.
Proof.
  intros Hne. apply str_eqb_neq in Hne.
  induction d as [|[k w] d IH]; simpl.
  - now rewrite Hne.
  - destruct (str_eqb key' k) eqn:E; simpl.
    + apply str_eqb_eq in E. subst k. now rewrite Hne.
    + now rewrite IH.
Qed.

Lemma existsb_str_eqb e l : existsb (str_eqb e) l = true <-> In e l.
Proof.
  rewrite existsb_exists. split.
  - intros (x & Hin & Hx). apply str_eqb_eq in Hx. now subst x.
  - intros H. exists e. split; [assumption|apply str_eqb_refl].
Qed.

Lemma register_registered key epithet d :
  registered_pair key epithet d -> register key epithet d = d.
Proof.
  intros [Hm Hin]. unfold register. rewrite Hm. cbn [negb].
  now rewrite (proj2 (existsb_str_eqb epithet _) Hin).
Qed.

Lemma registered_pair_set key epithet key' v d :
  registered_pair key epithet d ->
  (key = key' -> In epithet v) ->
  registered_pair key epithet (dict_set key' v d).
Proof.
  intros [Hm Hin] Hv. split.
  - rewrite dict_mem_set, Hm. reflexivity.
  - destruct (list_eq_dec ascii_dec key key') as [->|Hne].
    + rewrite dict_get_set_same. now apply Hv.
    + now rewrite dict_get_set_other.
Qed.

Lemma registered_pair_register key epithet d :
  registered_pair key epithet (register key epithet d).
Proof.
  unfold register.
  set (d1 := if negb (dict_mem key d) then dict_set key [] d else d).
  assert (Hm : dict_mem key d1 = true).
  { unfold d1. destruct (dict_mem key d) eqn:E; simpl; [assumption|].
    rewrite dict_mem_set, str_eqb_refl. apply orb_true_r. }
  destruct (existsb (str_eqb epithet) (dict_get key d1)) eqn:E; simpl.
  - split; [assumption|]. now apply existsb_str_eqb.
  - split.
    + rewrite dict_mem_set, Hm. reflexivity.
    + rewrite dict_get_set_same. apply in_or_app. right. now left.
Qed.

Lemma registered_pair_mono key epithet key' epithet' d :
  registered_pair key epithet d ->
  registered_pair key epithet (register key' epithet' d).
Proof.
  intros H. unfold register.
  set (d1 := if negb (dict_mem key' d) then dict_set key' [] d else d).
  assert (H1 : registered_pair key epithet d1).
  { unfold d1. destruct (dict_mem key' d) eqn:E; simpl; [assumption|].
    apply registered_pair_set; [assumption|].
    intros ->. destruct H as [Hm _]. congruence. }
  destruct (existsb (str_eqb epithet') (dict_get key' d1)); simpl;
    [assumption|].
  apply registered_pair_set; [assumption|].
  intros <-. apply in_or_app. left. apply H1.
Qed.

Lemma register_line_cases line d :
  register_line line d = d
  \/ exists key epithet,
       (forall d', register_line line d' = register key epithet d').
Proof.
  unfold register_line. destruct (existsb (Ascii.eqb " ") line); [|now left].
  destruct (strip_asterisk line) as [[pseudo species]|e]; [|now left].
  right. now eexists _, _.
Qed.

Lemma register_line_keeps line line' d :
  register_line line d = d ->
  register_line line (register_line line' d) = register_line line' d.
Proof.
  intros Hd.
  destruct (register_line_cases line d) as [_|(k & e & Hk)].
  - unfold register_line in *.
    destruct (existsb (Ascii.eqb " ") line); [|reflexivity].
    destruct (strip_asterisk line) as [[pseudo species]|err]; [|reflexivity].
    assert (Hp : registered_pair (entry_key pseudo (Py.split_on " " species))
                   (tok (Py.split_on " " species) 1) d).
    { rewrite <- Hd. apply registered_pair_register. }
    apply register_registered.
    destruct (existsb (Ascii.eqb " ") line'); [|assumption].
    destruct (strip_asterisk line') as [[pseudo' species']|err']; [|assumption].
    now apply registered_pair_mono.
  - rewrite Hk in *. apply register_registered.
    assert (Hp : registered_pair k e d).
    { rewrite <- Hd. apply registered_pair_register. }
    destruct (register_line_cases line' d) as [->|(k' & e' & ->)];
      [assumption|].
    now apply registered_pair_mono.
Qed.

Lemma register_line_twice line d :
  register_line line (register_line line d) = register_line line d.
Proof.
  destruct (register_line_cases line d) as [H|(k & e & Hk)].
  - now rewrite !H.
  - rewrite !Hk. apply register_registered, registered_pair_register.
Qed.

Lemma register_lines_keeps line lines : forall d,
  register_line line d = d ->
  register_line line (register_lines lines d) = register_lines lines d.
Proof.
  unfold register_lines.
  induction lines as [|l lines IH]; intros d Hd; simpl; [assumption|].
  apply IH. now apply register_line_keeps.
Qed.

Lemma register_lines_settled lines : forall d,
  (forall line, In line lines -> register_line line d = d) ->
  register_lines lines d = d.
Proof.
  unfold register_lines.
  induction lines as [|l lines IH]; intros d H; simpl; [reflexivity|].
  rewrite (H l) by now left. apply IH. intros line Hin. apply H. now right.
Qed.

Lemma register_lines_done lines : forall d line,
  In line lines ->
  register_line line (register_lines lines d) = register_lines lines d.
Proof.
  induction lines as [|l lines IH]; intros d line Hin; [contradiction|].
  change (register_lines (l :: lines) d)
    with (register_lines lines (register_line l d)).
  destruct Hin as [->|Hin].
  - apply register_lines_keeps, register_line_twice.
  - now apply IH.
Qed.

(** A second pass over the same list adds nothing. *)
Lemma register_lines_idempotent lines d :
  register_lines lines (register_lines lines d) = register_lines lines d.
Proof.
  apply register_lines_settled. intros line Hin.
  now apply register_lines_done.
Qed.
(** C2, amended: every title gets a dict of its own, appended empty
    when the title's processing starts and filled by the loop of that
    title alone.  An abstract gets none: its loop and its genus pass
    work on a dict that a title created, found by position, which holds
    every entry of the list already, so that the loop of the abstract
    adds nothing to it. *)
Theorem genus_index_per_title species_list root dicts titles' :
  titles_loop species_list (titles root) [] = Ok (dicts, titles') ->
  dicts = map (fun _ => register_lines species_list []) (titles root)
  /\ forall j pos abstract dicts2 abstract',
       list_index dicts j = Ok pos ->
       species_loop j true species_list (dicts, abstract)
       = Ok (dicts2, abstract') ->
       pos < length (titles root)
       /\ nth pos dicts [] = register_lines species_list []
       /\ dicts2 = dicts.
Proof.
  intros Ht. apply titles_loop_dicts in Ht. cbn [app] in Ht.
  split; [assumption|].
  intros j pos abstract dicts2 abstract' Hpos Hloop.
  assert (Hlt : pos < length (titles root)).
  { assert (Hlen : length dicts = length (titles root))
      by (rewrite Ht; apply length_map).
    revert Hpos. unfold list_index. rewrite Hlen.
    destruct ((0 <=? j)%Z && (j <? Z.of_nat (length (titles root)))%Z) eqn:E1.
    - intros [= <-]. apply andb_prop in E1 as [E1 E2].
      apply Z.leb_le in E1. apply Z.ltb_lt in E2. lia.
    - destruct ((j <? 0)%Z && (- Z.of_nat (length (titles root)) <=? j)%Z)
        eqn:E2; [|discriminate].
      intros [= <-]. apply andb_prop in E2 as [E2 E3].
      apply Z.ltb_lt in E2. apply Z.leb_le in E3. lia. }
  assert (Hnth : nth pos dicts [] = register_lines species_list []).
  { rewrite Ht.
    rewrite (nth_indep _ [] (register_lines species_list []))
      by (now rewrite length_map).
    rewrite (map_nth (fun _ => register_lines species_list [])
               (titles root) [] pos) at 1.
    reflexivity. }
  repeat split; try assumption.
  apply species_loop_dicts with (pos := pos) in Hloop; [|assumption].
  rewrite Hloop. clear Hloop.
  assert (Hsame : forall l : list dict, 
            nth pos l [] = register_lines species_list [] ->
            pos < length l ->
            update_nth pos (register_lines species_list) l = l).
  { clear. intros l. revert pos.
    induction l as [|d l IH]; intros [|pos] Hn Hl; simpl in *; try lia.
    - rewrite Hn. now rewrite register_lines_idempotent.
    - f_equal. apply IH; [assumption|lia]. }
  apply Hsame; [assumption|].
  rewrite Ht, length_map. assumption.
Qed.

Lemma genus_index_per_title_witness :
  let species_list :=
    [lit "Brassica oleracea"; lit "Brassica"; lit "Brassica rapa"] in
  let index := [(lit "Brassica", [lit "oleracea"; lit "rapa"])] in
  [index; index]
  = map (fun _ => register_lines species_list [])
      [lit "On Brassica rapa"; lit "Second title"]
  /\ 1 < 2
  /\ nth 1 [index; index] [] = register_lines species_list []
  /\ [index; index] = [index; index].
Proof.
  intros species_list index.
  destruct (@genus_index_per_title species_list
              (Document [lit "On Brassica rapa"; lit "Second title"] [])
              [index; index] _ ltac:(vm_compute; reflexivity)) as [H1 H2].
  split; [exact H1|].
  exact (H2 (-1)%Z 1 (lit "Brassica rapa and B. rapa.") [index; index] _
           eq_refl ltac:(vm_compute; reflexivity)).
Defined.

(** C2 as stated fails for an abstract: its loop starts, with [j = 0],
    from the dicts the titles left, and the dict it finds there is the
    one the first title filled, not an empty one. *)
Lemma abstract_index_shared_counterexample :
  let species_list := [lit "Brassica oleracea"] in
  let root := Document [lit "Brassicas"] [lit "Brassica oleracea grows."] in
  exists dicts titles',
    titles_loop species_list (titles root) [] = Ok (dicts, titles')
    /\ insert_species_links species_list root
       = ('(_, abstracts') <-
            abstracts_loop species_list 0 (abstracts root) dicts ;;
          Ok (Document titles' abstracts'))
    /\ list_index dicts 0 = Ok 0
    /\ nth 0 dicts [] = [(lit "Brassica", [lit "oleracea"])]
    /\ nth 0 dicts [] <> [].
Proof.
  eexists _, _. split; [vm_compute; reflexivity|].
  repeat split; try (vm_compute; reflexivity).
  discriminate.
Qed.

(** ** The recogniser of links *)

Lemma compile_link_pattern : Re.compile species_link_pattern = inr link_regex.
Proof. vm_compute. reflexivity. Qed.

Section LinkRegex.

Variable n : nat.

Lemma matches_lits p r : forall x z,
  Re.Matches false n (lits_then p r) x z
  <-> exists y, x = p ++ y /\ Re.Matches false n r y z.
Proof.
  induction p as [|c p IH]; intros x z; simpl.
  - split; [intros H; now exists x|intros (y & -> & H); exact H].
  - split.
    + intros H.
      inversion H as [| | | | | | |r1 r2 a b c0 H1 H2| | | | | | |]; subst.
      inversion H1 as [|q d w E| | | | | | | | | | | | |]; subst.
      unfold Re.char_eq in E. apply Ascii.eqb_eq in E. subst d.
      apply IH in H2 as (y & -> & H2). now exists y.
    + intros (y & -> & H). eapply Re.MSeq.
      * apply Re.MLit. unfold Re.char_eq. apply Ascii.eqb_refl.
      * apply IH. now exists y.
Qed.

Lemma matches_star_any x y :
  Re.Matches false n (Re.Star Re.Any) x y
  <-> exists a, x = a ++ y /\ no_newline a.
Proof.
  split.
  - intros H. remember (Re.Star Re.Any) as r eqn:Er.
    induction H; try discriminate.
    + exists []. split; [reflexivity|intros []].
    + injection Er as ->.
      destruct (IHMatches2 eq_refl) as (a & -> & Ha).
      inversion H as [| |c w E| | | | | | | | | | | |]; subst.
      exists (c :: a). split; [reflexivity|].
      intros [Hc|Hc]; [|now apply Ha].
      subst c. discriminate.
  - intros (a & -> & Ha). induction a as [|c a IH].
    + apply Re.MStarNil.
    + eapply Re.MStarCons with (y := a ++ y).
      * apply Re.MAny. destruct (Ascii.eqb c Py.newline) eqn:E; [|reflexivity].
        apply Ascii.eqb_eq in E. exfalso. apply Ha. now left.
      * simpl. lia.
      * apply IH. intros Hin. apply Ha. now right.
Qed.

Lemma matches_dot_star r x z :
  Re.Matches false n (dot_star_then r) x z
  <-> exists a y, x = a ++ y /\ no_newline a /\ Re.Matches false n r y z.
Proof.
  unfold dot_star_then. split.
  - intros H.
    inversion H as [| | | | | | |r1 r2 u v w H1 H2| | | | | | |]; subst.
    apply matches_star_any in H1 as (a & -> & Ha). now exists a, v.
  - intros (a & y & -> & Ha & H). eapply Re.MSeq; [|exact H].
    apply matches_star_any. now exists a.
Qed.

Lemma matches_end x z :
  Re.Matches false n (Re.Seq Re.Eol Re.Eps) x z
  <-> (x = [] \/ x = [Py.newline]) /\ z = x.
Proof.
  split.
  - intros H.
    inversion H as [| | | | | | |r1 r2 u v w H1 H2| | | | | | |]; subst.
    inversion H2; subst. inversion H1; subst; auto.
  - intros [[-> | ->] ->]; (eapply Re.MSeq; [|apply Re.MEps]); constructor.
Qed.

Lemma matches_bol r x z :
  Re.Matches false n (Re.Seq Re.Bol r) x z
  <-> length x = n /\ Re.Matches false n r x z.
Proof.
  split.
  - intros H.
    inversion H as [| | | | | | |r1 r2 u v w H1 H2| | | | | | |]; subst.
    inversion H1; subst. auto.
  - intros [Hn H]. eapply Re.MSeq; [now apply Re.MBol|exact H].
Qed.

End LinkRegex.

Lemma no_newline_app a b : no_newline (a ++ b) <-> no_newline a /\ no_newline b.
Proof.
  unfold no_newline. rewrite in_app_iff. tauto.
Qed.

(** The texts the pattern accepts, read off the regex. *)
Lemma link_regex_matches text z :
  Re.Matches false (length text) link_regex text z
  <-> exists a b c d e tail,
        text = taxon_open a b c d ++ e ++ taxon_close ++ tail
        /\ no_newline (a ++ b ++ c ++ d ++ e)
        /\ (tail = [] \/ tail = [Py.newline])
        /\ z = tail.
Proof.
  unfold link_regex. split.
  - intros H. apply matches_bol in H as [_ H].
    apply matches_lits in H as (y0 & -> & H).
    apply matches_dot_star in H as (a & y1 & -> & Ha & H).
    apply matches_lits in H as (y2 & -> & H).
    apply matches_dot_star in H as (b & y3 & -> & Hb & H).
    apply matches_lits in H as (y4 & -> & H).
    apply matches_dot_star in H as (c & y5 & -> & Hc & H).
    apply matches_lits in H as (y6 & -> & H).
    apply matches_dot_star in H as (d & y7 & -> & Hd & H).
    apply matches_lits in H as (y8 & -> & H).
    apply matches_dot_star in H as (e & y9 & -> & He & H).
    apply matches_lits in H as (tail & -> & H).
    apply matches_end in H as (Ht & ->).
    exists a, b, c, d, e, tail. repeat split; try assumption.
    + unfold taxon_open, taxon_close. now rewrite <- !app_assoc.
    + rewrite !no_newline_app. tauto.
  - intros (a & b & c & d & e & tail & -> & Hn & Ht & ->).
    rewrite !no_newline_app in Hn. destruct Hn as (Ha & Hb & Hc & Hd & He).
    apply matches_bol. split; [reflexivity|].
    unfold taxon_open, taxon_close. rewrite <- !app_assoc.
    apply matches_lits. eexists. split; [rewrite <- app_assoc; reflexivity|].
    apply matches_dot_star. exists a. eexists. repeat split; [assumption|].
    apply matches_lits. eexists. split; [rewrite <- !app_assoc; reflexivity|].
    apply matches_dot_star. exists b. eexists. repeat split; [assumption|].
    apply matches_lits. eexists. split; [rewrite <- !app_assoc; reflexivity|].
    apply matches_dot_star. exists c. eexists. repeat split; [assumption|].
    apply matches_lits. eexists. split; [rewrite <- !app_assoc; reflexivity|].
    apply matches_dot_star. exists d. eexists. repeat split; [assumption|].
    apply matches_lits. eexists. split; [rewrite <- !app_assoc; reflexivity|].
    apply matches_dot_star. exists e. eexists. repeat split; [assumption|].
    apply matches_lits. exists tail. split; [reflexivity|].
    apply matches_end. auto.
Qed.
(** C6: what the code accepts.  [is_species_link] always answers, and
    answers true exactly on a text made of an opening taxon tag with
    the four attributes, in their order and with any values, then any
    content, then a closing taxon tag that ends the text or is followed
    by one last line break, no value and no content holding a line
    break.  The content may hold tags of its own, closing and opening
    taxon tags among them: the greedy [.*] of the pattern runs over
    them.  So a text made of several links is accepted like one link,
    against the docstring of the function (true if the text is a
    species link, false otherwise). *)
Theorem is_species_link_iff text :
  (exists answer, is_species_link text = Ok answer)
  /\ (is_species_link text = Ok true
      <-> exists a b c d e tail,
            text = taxon_open a b c d ++ e ++ taxon_close ++ tail
            /\ no_newline (a ++ b ++ c ++ d ++ e)
            /\ (tail = [] \/ tail = [Py.newline])).
Proof.
  unfold is_species_link, Re.match_. rewrite compile_link_pattern.
  cbn [re_call bind]. split; [eexists; reflexivity|].
  unfold Re.match_here.
  destruct (Re.rmatch false (length text) link_regex text _) as [out|] eqn:E;
    cbn [option_map].
  - split; [intros _|reflexivity].
    apply rmatch_sound in E as (z & Hz & _).
    apply link_regex_matches in Hz
      as (a & b & c & d & e & tail & H1 & H2 & H3 & _).
    now exists a, b, c, d, e, tail.
  - split; [discriminate|].
    intros (a & b & c & d & e & tail & H1 & H2 & H3). exfalso.
    revert E. apply rmatch_complete with (y := tail); [|discriminate].
    apply link_regex_matches. now exists a, b, c, d, e, tail.
Qed.

(** C6 fails on the code: two links one after the other, a text that
    is not one species link, are accepted. *)
Lemma two_links_accepted_counterexample :
  let first := get_species_link (lit "Brassica oleracea") in
  let second := get_species_link (lit "Zea mays") in
  is_species_link first = Ok true
  /\ is_species_link second = Ok true
  /\ is_species_link (first ++ second) = Ok true
  /\ is_species_link (first ++ second) <> Ok false.
Proof.
  repeat split; try (vm_compute; reflexivity).
  vm_compute. discriminate.
Qed.

(** ** [remove_blank_chars] runs its loop to the end *)

Lemma replace_spaces_length_upto n : forall s,
  length s <= n ->
  length (Py.replace_from (lit "  ") (lit " ") 0 s) <= length s
  /\ (Py.contains (lit "  ") s = true ->
      length (Py.replace_from (lit "  ") (lit " ") 0 s) < length s).
Proof.
  induction n as [|n IH]; intros s Hn.
  - destruct s; [split; [simpl; lia|discriminate]|simpl in Hn; lia].
  - destruct s as [|c s]; [split; [simpl; lia|discriminate]|].
    cbn [length] in Hn. cbn [Py.replace_from].
    destruct (Py.starts_with (lit "  ") (c :: s)) eqn:E.
    + destruct s as [|c' s]; [simpl in E; now rewrite andb_false_r in E|].
      cbn [length] in Hn.
      destruct (IH s) as [Hle _]; [lia|].
      change (Py.replace_from (lit "  ") (lit " ")
                (length (lit "  ") - 1) (c' :: s))
        with (Py.replace_from (lit "  ") (lit " ") 0 s).
      rewrite length_app. change (length (lit " ")) with 1. cbn [length].
      split; [|intros _]; lia.
    + destruct (IH s) as [Hle Hlt]; [lia|].
      cbn [length]. split; [lia|].
      cbn [Py.contains]. rewrite E. cbn [orb]. intros H.
      specialize (Hlt H). lia.
Qed.

Lemma replace_spaces_length s :
  length (Py.replace_from (lit "  ") (lit " ") 0 s) <= length s
  /\ (Py.contains (lit "  ") s = true ->
      length (Py.replace_from (lit "  ") (lit " ") 0 s) < length s).
Proof. now apply replace_spaces_length_upto with (n := length s). Qed.

Lemma collapse_spaces_settled fuel : forall text,
  length text <= fuel ->
  Py.contains (lit "  ") (collapse_spaces fuel text) = false.
Proof.
  induction fuel as [|fuel IH]; intros text Hlen.
  - destruct text; [reflexivity|simpl in Hlen; lia].
  - cbn [collapse_spaces].
    destruct (Py.contains (lit "  ") text) eqn:E; [|assumption].
    apply IH. rewrite replace_two_spaces.
    destruct (replace_spaces_length text) as [_ H]. specialize (H E). lia.
Qed.

(** The loop stops because no double space is left, not because the
    fuel is spent. *)
Lemma remove_blank_chars_settled text :
  Py.contains (lit "  ") (remove_blank_chars text) = false.
Proof. unfold remove_blank_chars. now apply collapse_spaces_settled. Qed.

(** ** The two tests on the middle token *)

Lemma slice_inner a (mid : str) b :
  Py.slice (a :: mid ++ [b]) 1 (length (a :: mid ++ [b]) - 1) = mid.
Proof.
  unfold Py.slice. cbn [length]. rewrite length_app. cbn [length].
  replace (S (length mid + 1) - 1) with (S (length mid)) by lia.
  cbn [firstn skipn].
  rewrite firstn_app, Nat.sub_diag, firstn_all. cbn [firstn].
  apply app_nil_r.
Qed.

(** X1: [is_enclosed_match s1 s2] holds exactly when [s2] is one
    character, then a text as long as [s1] whose [lower()] is that of
    [s1], then one character; the two enclosing characters are not
    looked at. *)
Theorem is_enclosed_match_iff s1 s2 :
  is_enclosed_match s1 s2 = true
  <-> exists a mid b,
        s2 = a :: mid ++ [b]
        /\ length mid = length s1 /\ Py.lower mid = Py.lower s1.
Proof.
  unfold is_enclosed_match. split.
  - destruct (length s2 =? length s1 + 2) eqn:El; [|discriminate].
    cbn [negb]. intros H. apply str_eqb_eq in H.
    apply Nat.eqb_eq in El.
    destruct s2 as [|a rest]; [simpl in El; lia|].
    destruct (exists_last (l := rest)) as (mid & b & ->).
    { intros ->. simpl in El. lia. }
    exists a, mid, b. split; [reflexivity|].
    split; [|now rewrite slice_inner in H].
    cbn [length] in El. rewrite length_app in El. cbn [length] in El. lia.
  - intros (a & mid & b & -> & Hlen & Hl).
    replace (length (a :: mid ++ [b]) =? length s1 + 2) with true.
    + cbn [negb]. rewrite slice_inner. apply str_eqb_eq. now symmetry.
    + symmetry. apply Nat.eqb_eq. cbn [length]. rewrite length_app.
      cbn [length]. lia.
Qed.

(** X2: [is_parenthetical s] holds exactly when [s] opens with "(" and
    closes with ")", two distinct characters of [s]: "()" passes, "("
    and ")" alone do not. *)
Theorem is_parenthetical_iff s :
  is_parenthetical s = true
  <-> exists mid, s = lit "(" ++ mid ++ lit ")".
Proof.
  unfold is_parenthetical. split.
  - destruct (length s <? 2) eqn:El; [discriminate|].
    apply Nat.ltb_ge in El. intros H.
    apply andb_prop in H as [H1 H2].
    apply str_eqb_eq in H1. apply str_eqb_eq in H2.
    destruct s as [|a rest]; [simpl in El; lia|].
    destruct (exists_last (l := rest)) as (mid & b & ->).
    { intros ->. simpl in El. lia. }
    exists mid. cbn [firstn] in H1. injection H1 as ->.
    rewrite app_comm_cons, last_last in H2. injection H2 as ->. reflexivity.
  - intros (mid & ->).
    replace (length (lit "(" ++ mid ++ lit ")") <? 2) with false.
    + change (lit "(" ++ mid ++ lit ")") with (("("%char :: mid) ++ [")"%char]).
      rewrite last_last. reflexivity.
    + symmetry. apply Nat.ltb_ge. rewrite !length_app. simpl. lia.
Qed.

(** ** The dict as a map from genus to a set of epithets *)

Lemma dict_get_absent key d : dict_mem key d = false -> dict_get key d = [].
Proof.
  unfold dict_mem. induction d as [|[k v] d IH]; simpl; [reflexivity|].
  destruct (str_eqb key k); simpl; [discriminate|assumption].
Qed.

Lemma dict_keys_set key v d :
  dict_keys (dict_set key v d)
  = dict_keys d ++ (if dict_mem key d then [] else [key]).
Proof.
  unfold dict_keys, dict_mem. induction d as [|[k w] d IH]; simpl.
  - reflexivity.
  - destruct (str_eqb key k) eqn:E; simpl.
    + now rewrite app_nil_r.
    + now rewrite IH.
Qed.

Lemma register_equations key epithet d :
  dict_keys (register key epithet d)
  = dict_keys d ++ (if dict_mem key d then [] else [key])
  /\ dict_get key (register key epithet d)
     = dict_get key d
       ++ (if existsb (str_eqb epithet) (dict_get key d) then [] else [epithet])
  /\ forall key', key' <> key ->
       dict_get key' (register key epithet d) = dict_get key' d.
Proof.
  unfold register.
  set (d1 := if negb (dict_mem key d) then dict_set key [] d else d).
  assert (Hk1 : dict_keys d1
                = dict_keys d ++ (if dict_mem key d then [] else [key])).
  { unfold d1. destruct (dict_mem key d) eqn:E; simpl.
    - now rewrite app_nil_r.
    - now rewrite dict_keys_set, E. }
  assert (Hm1 : dict_mem key d1 = true).
  { unfold d1. destruct (dict_mem key d) eqn:E; simpl; [assumption|].
    rewrite dict_mem_set, str_eqb_refl. apply orb_true_r. }
  assert (Hg1 : dict_get key d1 = dict_get key d).
  { unfold d1. destruct (dict_mem key d) eqn:E; simpl; [reflexivity|].
    now rewrite dict_get_set_same, dict_get_absent. }
  assert (Ho1 : forall key', key' <> key -> dict_get key' d1 = dict_get key' d).
  { intros key' Hne. unfold d1. destruct (dict_mem key d); simpl;
      [reflexivity|now apply dict_get_set_other]. }
  rewrite Hg1.
  destruct (existsb (str_eqb epithet) (dict_get key d)) eqn:E; simpl.
  - repeat split; [assumption|now rewrite app_nil_r|assumption].
  - repeat split.
    + now rewrite dict_keys_set, Hm1, app_nil_r.
    + now rewrite dict_get_set_same.
    + intros key' Hne. rewrite dict_get_set_other by assumption.
      now apply Ho1.
Qed.

(** X3: what [register] does to the dict, in three equations: the keys
    keep their order and a new genus goes to the end; the epithet goes
    to the end of the list of its genus unless it is there; the lists
    of the other genera are untouched. *)
Theorem register_spec key epithet d :
  dict_keys (register key epithet d)
  = dict_keys d ++ (if dict_mem key d then [] else [key])
  /\ dict_get key (register key epithet d)
     = dict_get key d
       ++ (if existsb (str_eqb epithet) (dict_get key d) then [] else [epithet])
  /\ forall key', key' <> key ->
       dict_get key' (register key epithet d) = dict_get key' d.
Proof. apply register_equations. Qed.

(** X4: after [register] the pair is found in the dict, and
    registering it once more changes nothing. *)
Theorem register_idempotent key epithet d :
  dict_mem key (register key epithet d) = true
  /\ In epithet (dict_get key (register key epithet d))
  /\ register key epithet (register key epithet d) = register key epithet d.
Proof.
  pose proof (registered_pair_register key epithet d) as H.
  destruct H as [H1 H2]. repeat split; try assumption.
  apply register_registered. now split.
Qed.

Lemma NoDup_snoc (A : Type) (l : list A) x :
  NoDup l -> ~ In x l -> NoDup (l ++ [x]).
Proof.
  intros Hl Hx. induction Hl as [|y l Hy Hl IH]; simpl.
  - constructor; [intros []|constructor].
  - constructor.
    + rewrite in_app_iff. intros [H|[H|[]]]; [contradiction|].
      subst y. apply Hx. now left.
    + apply IH. intros H. apply Hx. now right.
Qed.

Lemma dict_mem_keys key d : dict_mem key d = true <-> In key (dict_keys d).
Proof.
  unfold dict_mem, dict_keys. rewrite existsb_exists, in_map_iff. split.
  - intros (kv & Hin & H). apply str_eqb_eq in H. subst key. now exists kv.
  - intros (kv & <- & Hin). exists kv. split; [assumption|apply str_eqb_refl].
Qed.

Lemma register_keeps_set_map key epithet d :
  dict_is_set_map d -> dict_is_set_map (register key epithet d).
Proof.
  intros [Hk Hv].
  destruct (register_equations key epithet d) as (E1 & E2 & E3).
  split.
  - rewrite E1. destruct (dict_mem key d) eqn:E.
    + now rewrite app_nil_r.
    + apply NoDup_snoc; [assumption|].
      intros Hin. apply dict_mem_keys in Hin. congruence.
  - intros key'. destruct (list_eq_dec ascii_dec key' key) as [->|Hne].
    + rewrite E2.
      destruct (existsb (str_eqb epithet) (dict_get key d)) eqn:E.
      * rewrite app_nil_r. apply Hv.
      * apply NoDup_snoc; [apply Hv|].
        intros Hin. apply existsb_str_eqb in Hin. congruence.
    + rewrite E3 by assumption. apply Hv.
Qed.

Lemma register_line_keeps_set_map line d :
  dict_is_set_map d -> dict_is_set_map (register_line line d).
Proof.
  intros H. unfold register_line.
  destruct (existsb (Ascii.eqb " ") line); [|assumption].
  destruct (strip_asterisk line) as [[pseudo species]|e]; [|assumption].
  now apply register_keeps_set_map.
Qed.

(** Registering the lines of the list, from the empty dict, names
    every genus once and lists no epithet of a genus twice. *)
Lemma register_lines_set_map species_list :
  NoDup (dict_keys (register_lines species_list []))
  /\ forall key, NoDup (dict_get key (register_lines species_list [])).
Proof.
  assert (H : forall d, dict_is_set_map d ->
                        dict_is_set_map (register_lines species_list d)).
  { unfold register_lines.
    induction species_list as [|line lines IH]; intros d Hd; [assumption|].
    simpl. apply IH. now apply register_line_keeps_set_map. }
  apply H. split; [constructor|intros key; constructor].
Qed.

(** ** [remove_blank_chars] as one pass *)

Lemma replace_newlines text :
  Py.replace [Py.newline] (lit " ") text = map newline_to_space text.
Proof.
  unfold Py.replace.
  induction text as [|c text IH]; [reflexivity|].
  cbn [Py.replace_from Py.starts_with map length Nat.sub].
  unfold newline_to_space at 1.
  rewrite (Ascii.eqb_sym Py.newline c).
  destruct (Ascii.eqb c Py.newline); cbn [andb app];
    now rewrite IH.
Qed.

Lemma squeeze_replace_upto n : forall text b,
  length text <= n ->
  squeeze b (Py.replace_from (lit "  ") (lit " ") 0 text) = squeeze b text.
Proof.
  induction n as [|n IH]; intros text b Hn.
  - destruct text; [reflexivity|simpl in Hn; lia].
  - destruct text as [|c text]; [reflexivity|].
    cbn [length] in Hn. cbn [Py.replace_from].
    destruct (Py.starts_with (lit "  ") (c :: text)) eqn:E.
    + destruct text as [|c' text]; [simpl in E; now rewrite andb_false_r in E|].
      cbn [lit list_ascii_of_string Py.starts_with] in E.
      apply andb_prop in E as [E1 E2]. apply andb_prop in E2 as [E2 _].
      apply Ascii.eqb_eq in E1, E2. subst c c'.
      change (Py.replace_from (lit "  ") (lit " ")
                (length (lit "  ") - 1) (" "%char :: text))
        with (Py.replace_from (lit "  ") (lit " ") 0 text).
      cbn [lit list_ascii_of_string app squeeze Ascii.eqb Bool.eqb].
      cbn [length] in Hn.
      destruct b; rewrite IH by lia; reflexivity.
    + cbn [squeeze]. destruct (Ascii.eqb c " "); [destruct b|];
        rewrite IH by lia; reflexivity.
Qed.

Lemma squeeze_settled text : forall b,
  Py.contains (lit "  ") text = false ->
  (b = true -> forall rest, text <> " "%char :: rest) ->
  squeeze b text = text.
Proof.
  induction text as [|c text IH]; intros b Hc Hb; [reflexivity|].
  cbn [Py.contains] in Hc. apply orb_false_elim in Hc as [Hs Hc].
  cbn [squeeze]. destruct (Ascii.eqb c " ") eqn:E.
  - apply Ascii.eqb_eq in E. subst c.
    destruct b; [now specialize (Hb eq_refl text)|].
    f_equal. apply IH; [assumption|].
    intros _ rest ->. discriminate.
  - f_equal. apply IH; [assumption|discriminate].
Qed.

Lemma collapse_spaces_squeeze fuel : forall text,
  length text <= fuel -> collapse_spaces fuel text = squeeze false text.
Proof.
  induction fuel as [|fuel IH]; intros text Hlen.
  - destruct text; [reflexivity|simpl in Hlen; lia].
  - cbn [collapse_spaces].
    destruct (Py.contains (lit "  ") text) eqn:E.
    + rewrite replace_two_spaces. rewrite IH.
      * now apply squeeze_replace_upto with (n := length text).
      * destruct (replace_spaces_length text) as [_ H]. specialize (H E). lia.
    + symmetry. apply squeeze_settled; [assumption|discriminate].
Qed.

Lemma remove_blank_chars_squeeze text :
  remove_blank_chars text = squeeze false (map newline_to_space text).
Proof.
  unfold remove_blank_chars. rewrite replace_newlines.
  now apply collapse_spaces_squeeze.
Qed.

(** X6: the loop of [remove_blank_chars] computes, whatever the text,
    what one pass computes: every line break read as a space, and
    every run of spaces turned into one space; the other characters
    stay, in their order.  Spaces at the two ends are kept as one
    space, tabs are not touched. *)
Theorem remove_blank_chars_one_pass text :
  remove_blank_chars text = squeeze false (map newline_to_space text).
Proof. apply remove_blank_chars_squeeze. Qed.

Lemma squeeze_no_newline s : forall b,
  ~ In Py.newline s -> ~ In Py.newline (squeeze b s).
Proof.
  induction s as [|c s IH]; intros b Hs; [exact Hs|].
  cbn [squeeze]. destruct (Ascii.eqb c " "); [destruct b|].
  - apply IH. intros H. apply Hs. now right.
  - intros [H|H]; [apply Hs; now left|].
    revert H. apply IH. intros H. apply Hs. now right.
  - intros [H|H]; [apply Hs; now left|].
    revert H. apply IH. intros H. apply Hs. now right.
Qed.

Lemma newline_to_space_no_newline text :
  ~ In Py.newline (map newline_to_space text).
Proof.
  rewrite in_map_iff. intros (c & Hc & _). revert Hc.
  unfold newline_to_space. destruct (Ascii.eqb c Py.newline) eqn:E.
  - discriminate.
  - intros ->. now rewrite Ascii.eqb_refl in E.
Qed.

Lemma newline_to_space_id text :
  ~ In Py.newline text -> map newline_to_space text = text.
Proof.
  induction text as [|c text IH]; intros H; [reflexivity|].
  cbn [map]. rewrite IH by (intros Hin; apply H; now right).
  unfold newline_to_space. destruct (Ascii.eqb c Py.newline) eqn:E;
    [|reflexivity].
  apply Ascii.eqb_eq in E. exfalso. apply H. now left.
Qed.

(** X7: the text [remove_blank_chars] returns holds no line break and
    no two spaces in a row; a text that holds neither is returned as it
    is, so that a second call changes nothing. *)
Theorem remove_blank_chars_normal_form text :
  ~ In Py.newline (remove_blank_chars text)
  /\ Py.contains (lit "  ") (remove_blank_chars text) = false
  /\ (~ In Py.newline text -> Py.contains (lit "  ") text = false ->
      remove_blank_chars text = text)
  /\ remove_blank_chars (remove_blank_chars text) = remove_blank_chars text.
Proof.
  assert (H1 : ~ In Py.newline (remove_blank_chars text)).
  { rewrite remove_blank_chars_squeeze.
    apply squeeze_no_newline, newline_to_space_no_newline. }
  assert (H2 : Py.contains (lit "  ") (remove_blank_chars text) = false)
    by apply remove_blank_chars_settled.
  assert (H3 : forall t, ~ In Py.newline t ->
                         Py.contains (lit "  ") t = false ->
                         remove_blank_chars t = t).
  { intros t Hn Hs. rewrite remove_blank_chars_squeeze.
    rewrite newline_to_space_id by assumption.
    apply squeeze_settled; [assumption|discriminate]. }
  repeat split; try assumption.
  - now apply H3.
  - now apply H3.
Qed.

(** ** The formatter and the recogniser *)

Lemma is_species_link_accepts a b c d e :
  no_newline (a ++ b ++ c ++ d ++ e) ->
  is_species_link (taxon_open a b c d ++ e ++ taxon_close) = Ok true.
Proof.
  intros Hn. unfold is_species_link, Re.match_.
  rewrite compile_link_pattern. cbn [re_call bind]. unfold Re.match_here.
  destruct (Re.rmatch false _ link_regex _ _) as [out|] eqn:E; [reflexivity|].
  exfalso. revert E. apply rmatch_complete with (y := []); [|discriminate].
  apply link_regex_matches. exists a, b, c, d, e, [].
  rewrite app_nil_r. auto.
Qed.

Lemma no_whitespace_no_newline t : no_whitespace t -> no_newline t.
Proof. intros H Hin. now specialize (H _ Hin). Qed.

Lemma no_newline_nil : no_newline [].
Proof. intros []. Qed.

Lemma no_newline_sp name : no_newline name -> no_newline (sp name).
Proof.
  intros H. unfold sp. rewrite !no_newline_app. repeat split; try assumption;
    (intros Hin; cbn in Hin; intuition discriminate).
Qed.

Lemma no_newline_space : no_newline (lit " ").
Proof. intros Hin. cbn in Hin. intuition discriminate. Qed.

Lemma no_newline_join parts :
  (forall t, In t parts -> no_newline t) ->
  no_newline (Py.join (lit " ") parts).
Proof.
  induction parts as [|p parts IH]; intros H; [apply no_newline_nil|].
  destruct parts as [|q parts]; [apply H; now left|].
  change (Py.join (lit " ") (p :: q :: parts))
    with (p ++ lit " " ++ Py.join (lit " ") (q :: parts)).
  rewrite !no_newline_app. repeat split.
  - apply H. now left.
  - apply no_newline_space.
  - apply IH. intros t Ht. apply H. now right.
Qed.

Lemma in_skipn (A : Type) (x : A) n l : In x (skipn n l) -> In x l.
Proof.
  revert l. induction n as [|n IH]; intros l H; [assumption|].
  destruct l as [|y l]; [assumption|]. right. now apply IH.
Qed.

Lemma in_firstn (A : Type) (x : A) n l : In x (firstn n l) -> In x l.
Proof.
  revert l. induction n as [|n IH]; intros l H; [destruct H|].
  destruct l as [|y l]; [assumption|].
  destruct H as [H|H]; [now left|right; now apply IH].
Qed.

Lemma in_removelast (A : Type) (x : A) l : In x (removelast l) -> In x l.
Proof.
  induction l as [|y l IH]; [trivial|].
  destruct l as [|z l]; [intros []|].
  intros [H|H]; [now left|right; now apply IH].
Qed.

Lemma last_in (A : Type) (l : list A) d : l <> [] -> In (last l d) l.
Proof.
  induction l as [|y l IH]; [congruence|]. intros _.
  destruct l as [|z l]; [now left|]. right. apply IH. discriminate.
Qed.

Ltac link_shape e :=
  match goal with
  | |- is_species_link (taxon_open ?a ?b ?c ?d ++ ?body) = Ok true =>
      replace (taxon_open a b c d ++ body)
        with (taxon_open a b c d ++ e ++ taxon_close)
        by (repeat rewrite <- app_assoc; reflexivity);
      apply is_species_link_accepts;
      rewrite !no_newline_app; repeat split; auto using no_newline_sp
  end.

Lemma shapes_recognised tokens :
  tokens <> [] ->
  (forall t, In t tokens -> no_whitespace t) ->
  is_species_link (genus_spp tokens) = Ok true
  /\ is_species_link (genus_species tokens) = Ok true
  /\ is_species_link (genus_species_subprefix_subspecies tokens) = Ok true
  /\ is_species_link (genus_PARgenusPAR_subspecies tokens) = Ok true
  /\ is_species_link (genus_PARnamePAR_species tokens) = Ok true
  /\ is_species_link (genus_species_MERGE_subspecies tokens) = Ok true.
Proof.
  intros Hne Hws.
  assert (Htok : forall i, no_newline (tok tokens i)).
  { intros i. unfold tok. destruct (nth_in_or_default i tokens []) as [H | ->].
    - now apply no_whitespace_no_newline, Hws.
    - apply no_newline_nil. }
  assert (Hlast : no_newline (last tokens [])).
  { apply no_whitespace_no_newline, Hws. now apply last_in. }
  assert (Hslice : no_newline
            (Py.slice (tok tokens 1) 1 (length (tok tokens 1) - 1))).
  { intros Hin. apply (Htok 1). unfold Py.slice in Hin.
    apply in_skipn in Hin. revert Hin. apply in_firstn. }
  assert (Hjoin : no_newline (Py.join (lit " ") (skipn 2 (removelast tokens)))).
  { apply no_newline_join. intros t Ht.
    apply no_whitespace_no_newline, Hws.
    now apply in_removelast, in_skipn with (n := 2). }
  pose proof no_newline_space as Hsp. pose proof no_newline_nil as Hnil.
  repeat split.
  - unfold genus_spp. cbv zeta. link_shape (sp (tok tokens 0)).
  - unfold genus_species. cbv zeta.
    link_shape (sp (tok tokens 0) ++ lit " " ++ sp (tok tokens 1)).
  - unfold genus_species_subprefix_subspecies. cbv zeta.
    link_shape (sp (tok tokens 0) ++ lit " " ++ sp (tok tokens 1) ++ lit " "
                ++ tok tokens 2 ++ lit " " ++ sp (tok tokens 3)).
  - unfold genus_PARgenusPAR_subspecies. cbv zeta.
    link_shape (sp (tok tokens 0) ++ lit " " ++ sp (tok tokens 1) ++ lit " "
                ++ sp (tok tokens 2)).
  - unfold genus_PARnamePAR_species. cbv zeta.
    link_shape (sp (tok tokens 0) ++ lit " " ++ tok tokens 1 ++ lit " "
                ++ sp (tok tokens 2)).
  - unfold genus_species_MERGE_subspecies. cbv zeta.
    link_shape (sp (tok tokens 0) ++ lit " " ++ sp (tok tokens 1) ++ lit " "
                ++ Py.join (lit " ") (skipn 2 (removelast tokens)) ++ lit " "
                ++ sp (last tokens [])).
Qed.

(** X8: whatever the text, unless it has no token at all or has three
    tokens with "sp." or "spp." in the middle (the two cases in which
    the text is returned as it is), what [get_species_link] returns is
    a link for [is_species_link]. *)
Theorem get_species_link_recognised link :
  Py.split link <> [] ->
  (length (Py.split link) = 3 ->
   is_sp_marker (tok (Py.split link) 1) = false) ->
  is_species_link (get_species_link link) = Ok true.
Proof.
  intros Hne Hmid.
  assert (Hws : forall t, In t (Py.split link) -> no_whitespace t)
    by (intros t Ht; now apply (split_tokens link)).
  destruct (shapes_recognised Hne Hws) as (S1 & S2 & S4 & Sg & Sn & Sm).
  unfold get_species_link.
  destruct (Py.split link) as [|t0 [|t1 [|t2 [|t3 [|t4 rest]]]]] eqn:Es;
    cbn [length].
  - congruence.
  - exact S1.
  - destruct (is_sp_marker (tok [t0; t1] 1)); assumption.
  - rewrite (Hmid eq_refl). cbn [negb].
    destruct (is_enclosed_match _ _); [exact Sg|].
    destruct (is_parenthetical _); [exact Sn|].
    rewrite genus_species_subspecies_shape by (apply Hws; simpl; auto).
    assert (H0 : no_newline t0) by (apply no_whitespace_no_newline, Hws; simpl; auto).
    assert (H1 : no_newline t1) by (apply no_whitespace_no_newline, Hws; simpl; auto).
    assert (H2 : no_newline t2) by (apply no_whitespace_no_newline, Hws; simpl; auto).
    pose proof no_newline_space. pose proof no_newline_nil.
    link_shape (sp t0 ++ lit " " ++ sp t1 ++ lit " " ++ sp t2).
  - exact S4.
  - exact Sm.
Qed.

Lemma get_species_link_recognised_witness :
  is_species_link (get_species_link (lit "Brassica (cabbage) oleracea"))
  = Ok true.
Proof.
  apply get_species_link_recognised.
  - vm_compute. discriminate.
  - intros _. vm_compute. reflexivity.
Defined.

(** ** The outcomes of [insert_species_links] *)

Lemma split_on_from_first sep s : forall cur,
  nth 0 (Py.split_on_from sep cur s) []
  = rev cur ++ nth 0 (Py.split_on_from sep [] s) [].
Proof.
  induction s as [|c s IH]; intros cur; simpl.
  - now rewrite app_nil_r.
  - destruct (Ascii.eqb c sep); simpl.
    + now rewrite app_nil_r.
    + rewrite (IH (c :: cur)), (IH [c]). simpl. now rewrite <- app_assoc.
Qed.

Lemma first_char_genus species :
  first_char (tok (Py.split_on " " species) 0)
  = match species with
    | [] => Raise StringIndexError
    | c :: _ => if Ascii.eqb c " " then Raise StringIndexError else Ok c
    end.
Proof.
  unfold tok, Py.split_on. destruct species as [|c s]; [reflexivity|].
  simpl. destruct (Ascii.eqb c " "); [reflexivity|].
  now rewrite split_on_from_first.
Qed.

Lemma entry_with_genus line :
  In " "%char line -> empty_genus line = false ->
  exists pseudo species initial,
    strip_asterisk line = Ok (pseudo, species)
    /\ first_char (tok (Py.split_on " " species) 0) = Ok initial.
Proof.
  intros Hsp Hg. unfold empty_genus in Hg.
  apply orb_false_elim in Hg as [H1 H2].
  destruct line as [|c line]; [contradiction|].
  cbn [Py.starts_with lit list_ascii_of_string] in H1, H2.
  rewrite andb_true_r in H1.
  unfold strip_asterisk. cbn [first_char bind].
  destruct (Ascii.eqb c "*") eqn:Ec.
  - apply Ascii.eqb_eq in Ec. subst c.
    exists true, line. cbn [skipn]. rewrite first_char_genus.
    destruct Hsp as [Hsp|Hsp]; [discriminate|].
    destruct line as [|c' line]; [contradiction|].
    cbn [Py.starts_with] in H2.
    rewrite Ascii.eqb_refl, andb_true_r in H2. cbn [andb] in H2.
    rewrite Ascii.eqb_sym, H2.
    now exists c'.
  - exists false, (c :: line). rewrite first_char_genus.
    rewrite Ascii.eqb_sym, H1. now exists c.
Qed.

Lemma entry_without_genus line :
  empty_genus line = true ->
  In " "%char line
  /\ exists pseudo species,
       strip_asterisk line = Ok (pseudo, species)
       /\ first_char (tok (Py.split_on " " species) 0)
          = Raise StringIndexError.
Proof.
  unfold empty_genus. intros H. apply orb_prop in H as [H|H].
  - destruct line as [|c line]; [discriminate|].
    cbn [Py.starts_with lit list_ascii_of_string] in H.
    rewrite andb_true_r in H. apply Ascii.eqb_eq in H. subst c.
    split; [now left|]. now exists false, (" "%char :: line).
  - destruct line as [|c [|c' line]]; try discriminate.
    + cbn in H. now rewrite andb_false_r in H.
    + cbn [Py.starts_with lit list_ascii_of_string] in H.
      apply andb_prop in H as [H1 H2]. rewrite andb_true_r in H2.
      apply Ascii.eqb_eq in H1, H2. subst c c'.
      split; [right; now left|]. now exists true, (" "%char :: line).
Qed.

Lemma list_index_bound A (l : list A) slot pos :
  list_index l slot = Ok pos -> pos < length l.
Proof.
  unfold list_index.
  destruct ((0 <=? slot)%Z && (slot <? Z.of_nat (length l))%Z) eqn:E1.
  - intros [= <-]. apply andb_prop in E1 as [E1 E2].
    apply Z.leb_le in E1. apply Z.ltb_lt in E2. lia.
  - destruct ((slot <? 0)%Z && (- Z.of_nat (length l) <=? slot)%Z) eqn:E2;
      [|discriminate].
    intros [= <-]. apply andb_prop in E2 as [E2 E3].
    apply Z.ltb_lt in E2. apply Z.leb_le in E3. lia.
Qed.

Lemma nth_update_nth A pos (f : A -> A) l d :
  pos < length l -> nth pos (update_nth pos f l) d = f (nth pos l d).
Proof.
  revert pos. induction l as [|x l IH]; intros [|pos] H; simpl in *;
    try lia; [reflexivity|].
  apply IH. lia.
Qed.

(** One step of the loop, for a line that is not an entry or has a
    genus. *)
Lemma species_step_effect slot ctx line dicts text pos :
  list_index dicts slot = Ok pos ->
  (In " "%char line -> empty_genus line = false) ->
  species_step slot ctx line (dicts, text)
  = Ok (update_nth pos (register_line line) dicts,
        line_effect ctx line (register_line line (nth pos dicts [])) text).
Proof.
  intros Hpos Hg. unfold register_line, line_effect.
  destruct (has_space_dec line) as [Hsp|Hsp].
  - rewrite (proj2 (has_space_existsb line) Hsp).
    destruct (entry_with_genus line Hsp (Hg Hsp))
      as (pseudo & species & initial & Hs & Hi).
    rewrite Hs, Hi.
    rewrite (@species_step_entry slot ctx line dicts text pseudo species
               pos initial Hsp Hs Hpos Hi).
    cbv zeta. rewrite nth_update_nth by (eapply list_index_bound; eassumption).
    reflexivity.
  - rewrite species_step_skip by assumption.
    destruct (existsb (Ascii.eqb " ") line) eqn:E.
    + apply has_space_existsb in E. contradiction.
    + now rewrite update_nth_id.
Qed.

Lemma species_loop_effect slot ctx lines : forall dicts text pos,
  list_index dicts slot = Ok pos ->
  entries_have_genus lines ->
  species_loop slot ctx lines (dicts, text)
  = Ok (update_nth pos (register_lines lines) dicts,
        loop_effect ctx lines (nth pos dicts []) text).
Proof.
  induction lines as [|line lines IH]; intros dicts text pos Hpos Hg.
  - cbn [species_loop loop_effect]. now rewrite update_nth_id.
  - cbn [species_loop loop_effect].
    rewrite (@species_step_effect slot ctx line dicts text pos Hpos)
      by (intros Hsp; apply Hg; [now left|assumption]).
    cbn [bind]. rewrite (IH _ _ pos).
    + rewrite update_nth_twice.
      rewrite nth_update_nth by (eapply list_index_bound; eassumption).
      reflexivity.
    + now rewrite list_index_update.
    + intros l Hl. apply Hg. now right.
Qed.
Lemma loop_effect_title lines : forall index index' text,
  loop_effect false lines index text = loop_effect false lines index' text.
Proof.
  induction lines as [|line lines IH]; intros index index' text;
    [reflexivity|].
  cbn [loop_effect].
  replace (line_effect false line (register_line line index) text)
    with (line_effect false line (register_line line index') text).
  - apply IH.
  - unfold line_effect.
    destruct (existsb (Ascii.eqb " ") line); [|reflexivity].
    destruct (strip_asterisk line) as [[pseudo species]|e]; [|reflexivity].
    cbv zeta. destruct (first_char _); reflexivity.
Qed.

Lemma titles_loop_effect species_list titles : forall dicts,
  entries_have_genus species_list ->
  titles_loop species_list titles dicts
  = Ok (dicts ++ map (fun _ => register_lines species_list []) titles,
        map (title_effect species_list) titles).
Proof.
  induction titles as [|title titles IH]; intros dicts Hg.
  - cbn [titles_loop map]. now rewrite app_nil_r.
  - cbn [titles_loop].
    rewrite (@species_loop_effect (-1) false species_list (dicts ++ [[]])
               title (length dicts) (list_index_last dicts []) Hg).
    cbn [bind]. rewrite update_nth_last.
    rewrite IH by assumption. cbn [bind map].
    rewrite <- app_assoc. cbn [app]. do 3 f_equal.
    rewrite app_nth2, Nat.sub_diag by lia. cbn [nth].
    apply loop_effect_title.
Qed.

Lemma genus_loop_raises index genus genera text :
  genus_loop index (genus :: genera) text = Raise (ReError Re.MissingParen).
Proof.
  cbn [genus_loop]. unfold genus_step, Re.finditer.
  now rewrite master_reg_unterminated.
Qed.

Lemma genus_pass_cases dicts j text :
  genus_pass dicts j text
  = match list_index dicts j with
    | Raise e => Raise e
    | Ok pos =>
        match nth pos dicts [] with
        | [] => Ok text
        | _ :: _ => Raise (ReError Re.MissingParen)
        end
    end.
Proof.
  unfold genus_pass. destruct (list_index dicts j) as [pos|e]; [|reflexivity].
  cbn [bind]. destruct (nth pos dicts []) as [|[k v] index]; [reflexivity|].
  apply genus_loop_raises.
Qed.

(** X9: the genus pass of an abstract has three outcomes only: the
    index error when the list of dicts has no dict at [j]; the text as
    it is when that dict is empty; [re.error] in every other case,
    raised at the pattern of the first genus.  It never rewrites the
    text. *)
Theorem genus_pass_outcomes dicts j text :
  genus_pass dicts j text
  = match list_index dicts j with
    | Raise e => Raise e
    | Ok pos =>
        match nth pos dicts [] with
        | [] => Ok text
        | _ :: _ => Raise (ReError Re.MissingParen)
        end
    end.
Proof. apply genus_pass_cases. Qed.

Lemma register_line_entry line d :
  In " "%char line -> register_line line d <> [].
Proof.
  intros Hsp. unfold register_line.
  rewrite (proj2 (has_space_existsb line) Hsp).
  destruct (strip_asterisk_total line Hsp) as (pseudo & species & -> & _).
  cbv zeta. intros E.
  pose proof (registered_pair_register
                (entry_key pseudo (Py.split_on " " species))
                (tok (Py.split_on " " species) 1) d) as [Hm _].
  rewrite E in Hm. discriminate.
Qed.

Lemma register_line_nonempty line d : d <> [] -> register_line line d <> [].
Proof.
  intros Hd. destruct (register_line_cases line d) as [->|(k & e & ->)];
    [assumption|].
  intros E. destruct d as [|[k0 v0] d]; [congruence|].
  assert (Hk : In k0 (dict_keys (register k e ((k0, v0) :: d)))).
  { destruct (register_equations k e ((k0, v0) :: d)) as (E1 & _).
    rewrite E1. apply in_or_app. left. now left. }
  rewrite E in Hk. destruct Hk.
Qed.

Lemma register_lines_nonempty lines : forall d,
  d <> [] \/ (exists line, In line lines /\ In " "%char line) ->
  register_lines lines d <> [].
Proof.
  unfold register_lines.
  induction lines as [|line lines IH]; intros d H.
  - destruct H as [H|(l & [] & _)]. exact H.
  - simpl. apply IH.
    destruct (has_space_dec line) as [Hsp|Hsp].
    + left. now apply register_line_entry.
    + destruct H as [H|(l & [<-|Hl] & Hs)].
      * left. now apply register_line_nonempty.
      * contradiction.
      * right. now exists l.
Qed.
Lemma species_loop_skip slot ctx lines : forall st,
  (forall line, In line lines -> ~ In " "%char line) ->
  species_loop slot ctx lines st = Ok st.
Proof.
  induction lines as [|line lines IH]; intros st H; [reflexivity|].
  cbn [species_loop]. rewrite species_step_skip by (apply H; now left).
  cbn [bind]. apply IH. intros l Hl. apply H. now right.
Qed.

Lemma register_lines_skip lines : forall d,
  (forall line, In line lines -> ~ In " "%char line) ->
  register_lines lines d = d.
Proof.
  intros d H. apply register_lines_settled. intros line Hin.
  unfold register_line. destruct (existsb (Ascii.eqb " ") line) eqn:E;
    [|reflexivity].
  apply has_space_existsb in E. now apply H in E.
Qed.

Lemma loop_effect_skip ctx lines : forall index text,
  (forall line, In line lines -> ~ In " "%char line) ->
  loop_effect ctx lines index text = text.
Proof.
  induction lines as [|line lines IH]; intros index text H; [reflexivity|].
  cbn [loop_effect]. rewrite IH by (intros l Hl; apply H; now right).
  unfold line_effect. destruct (existsb (Ascii.eqb " ") line) eqn:E;
    [|reflexivity].
  apply has_space_existsb in E. apply H in E; [destruct E|now left].
Qed.

Lemma no_entry_has_genus lines :
  (forall line, In line lines -> ~ In " "%char line) ->
  entries_have_genus lines.
Proof. intros H line Hin Hsp. now apply H in Hsp. Qed.

Lemma abstracts_loop_no_entry lines abstracts : forall d dicts,
  (forall line, In line lines -> ~ In " "%char line) ->
  (forall e, In e (d :: dicts) -> e = []) ->
  abstracts_loop lines 0 abstracts (d :: dicts) = Ok (d :: dicts, abstracts).
Proof.
  induction abstracts as [|a abstracts IH]; intros d dicts H He;
    [reflexivity|].
  cbn [abstracts_loop]. unfold abstract_block.
  rewrite species_loop_skip by assumption. cbn [bind].
  rewrite genus_pass_cases.
  change (list_index (d :: dicts) 0) with (Ok (A := nat) 0).
  cbn [nth]. assert (Hd : d = []) by (apply He; now left).
  rewrite Hd at 1. cbn [bind].
  rewrite IH by assumption. reflexivity.
Qed.

(** A list without entries. *)
Lemma no_entry_cases species_list root :
  (forall line, In line species_list -> ~ In " "%char line) ->
  insert_species_links species_list root
  = match titles root, abstracts root with
    | [], _ :: _ => Raise ListIndexError
    | _, _ => Ok root
    end.
Proof.
  intros H. unfold insert_species_links.
  rewrite titles_loop_effect by now apply no_entry_has_genus.
  cbn [bind app]. destruct root as [ts abs]. cbn [titles abstracts].
  assert (Ht : map (title_effect species_list) ts = ts).
  { induction ts as [|t ts IH]; [reflexivity|]. cbn [map].
    rewrite IH. unfold title_effect. now rewrite loop_effect_skip. }
  rewrite Ht, register_lines_skip by assumption.
  destruct ts as [|t ts].
  - destruct abs as [|a abs]; [reflexivity|].
    cbn [map abstracts_loop]. unfold abstract_block.
    rewrite species_loop_skip by assumption. reflexivity.
  - cbn [map]. rewrite abstracts_loop_no_entry; [reflexivity|assumption|].
    intros e [<-|He]; [reflexivity|].
    apply in_map_iff in He as (x & <- & _). reflexivity.
Qed.

(** X10: with a species list that has no line with a space,
    [insert_species_links] returns the document as it is, except that
    it raises the index error when the document has an abstract and no
    title. *)
Theorem no_entry_outcome species_list root :
  (forall line, In line species_list -> ~ In " "%char line) ->
  insert_species_links species_list root
  = match titles root, abstracts root with
    | [], _ :: _ => Raise ListIndexError
    | _, _ => Ok root
    end.
Proof. exact (@no_entry_cases species_list root). Qed.

Lemma no_entry_outcome_witness :
  insert_species_links [lit "Brassica"; lit "Zea"]
    (Document [lit "Brassica and Zea"] [lit "Zea mays grows."])
  = Ok (Document [lit "Brassica and Zea"] [lit "Zea mays grows."]).
Proof.
  apply (@no_entry_outcome [lit "Brassica"; lit "Zea"]
           (Document [lit "Brassica and Zea"] [lit "Zea mays grows."])).
  intros line [<-|[<-|[]]] Hin; vm_compute in Hin; intuition discriminate.
Defined.

(** A list of entries with a genus, a title and an abstract. *)
Lemma entry_title_abstract_cases species_list root :
  entries_have_genus species_list ->
  (exists line, In line species_list /\ In " "%char line) ->
  titles root <> [] ->
  abstracts root <> [] ->
  insert_species_links species_list root = Raise (ReError Re.MissingParen).
Proof.
  intros Hg Hentry Ht Ha. unfold insert_species_links.
  rewrite titles_loop_effect by assumption. cbn [bind app].
  destruct (titles root) as [|t ts]; [congruence|].
  destruct (abstracts root) as [|a abs]; [congruence|].
  cbn [map abstracts_loop]. unfold abstract_block.
  rewrite species_loop_effect with (pos := 0)
    by (reflexivity || assumption).
  cbn [bind update_nth nth]. rewrite genus_pass_cases.
  match goal with
  | |- context [list_index (?d :: ?l) 0] =>
      change (list_index (d :: l) 0) with (Ok (A := nat) 0)
  end.
  cbn [nth].
  destruct (register_lines species_list (register_lines species_list []))
    as [|kv index] eqn:E; [|reflexivity].
  exfalso. revert E. apply register_lines_nonempty. now right.
Qed.

(** X11: when every entry of the list has a genus and there is an
    entry, [insert_species_links] raises [re.error] on every document
    that has a title and an abstract: the titles are rewritten, the
    loop of the first abstract runs, and its genus pass stops at its
    first pattern. *)
Theorem entry_title_abstract_raises species_list root :
  entries_have_genus species_list ->
  (exists line, In line species_list /\ In " "%char line) ->
  titles root <> [] ->
  abstracts root <> [] ->
  insert_species_links species_list root = Raise (ReError Re.MissingParen).
Proof. exact (@entry_title_abstract_cases species_list root). Qed.

Lemma entry_title_abstract_raises_witness :
  insert_species_links [lit "Brassica"; lit "*Zea mays"]
    (Document [lit "Maize"] [lit "No name here."])
  = Raise (ReError Re.MissingParen).
Proof.
  apply entry_title_abstract_raises.
  - intros line [<-|[<-|[]]] _; reflexivity.
  - exists (lit "*Zea mays"). split; vm_compute; tauto.
  - discriminate.
  - discriminate.
Defined.

(** X12: when every entry of the list has a genus and the document has
    no abstract, [insert_species_links] succeeds, and the text of each
    title becomes what the loop over the list makes of that text
    alone: no title depends on another one. *)
Theorem titles_only_outcome species_list root :
  entries_have_genus species_list ->
  abstracts root = [] ->
  insert_species_links species_list root
  = Ok (Document (map (title_effect species_list) (titles root)) []).
Proof.
  intros Hg Ha. unfold insert_species_links.
  rewrite titles_loop_effect by assumption. cbn [bind app].
  now rewrite Ha.
Qed.

Lemma titles_only_outcome_witness :
  insert_species_links [lit "Brassica oleracea"]
    (Document [lit "Brassica oleracea or B. oleracea"; lit "Other"] [])
  = Ok (Document
          [get_species_link (lit "Brassica oleracea")
           ++ lit " or <i>B. oleracea</i>";
           lit "Other"] []).
Proof.
  refine (@titles_only_outcome [lit "Brassica oleracea"]
            (Document [lit "Brassica oleracea or B. oleracea"; lit "Other"] [])
            _ eq_refl).
  intros line [<-|[]] _. reflexivity.
Defined.

Lemma species_loop_app slot ctx l1 : forall l2 st,
  species_loop slot ctx (l1 ++ l2) st
  = (st' <- species_loop slot ctx l1 st ;; species_loop slot ctx l2 st').
Proof.
  induction l1 as [|line l1 IH]; intros l2 st; [reflexivity|].
  cbn [app species_loop].
  destruct (species_step slot ctx line st) as [st'|e]; cbn [bind];
    [apply IH|reflexivity].
Qed.

Lemma species_step_no_genus slot ctx line dicts text pos :
  list_index dicts slot = Ok pos ->
  empty_genus line = true ->
  species_step slot ctx line (dicts, text) = Raise StringIndexError.
Proof.
  intros Hpos Hg.
  destruct (entry_without_genus line Hg) as (Hsp & pseudo & species & Hs & Hi).
  unfold species_step.
  destruct (space_filter_pass line Hsp) as [sp0 ->].
  cbn [re_call bind]. rewrite Hs. cbn [bind].
  rewrite Hpos. cbn [bind]. rewrite Hi. reflexivity.
Qed.

Lemma list_index_last_slot A (l : list A) (x : A) :
  list_index (l ++ [x]) (-1) = Ok (length l).
Proof.
  unfold list_index. rewrite length_app. cbn [length].
  replace ((0 <=? -1)%Z) with false by reflexivity. cbn [andb].
  replace ((-1 <? 0)%Z) with true by reflexivity. cbn [andb].
  destruct (- Z.of_nat (length l + 1) <=? -1)%Z eqn:E.
  - f_equal. lia.
  - apply Z.leb_gt in E. lia.
Qed.

(** An entry without genus, and a title. *)
Lemma empty_genus_cases before line rest root :
  entries_have_genus before ->
  empty_genus line = true ->
  titles root <> [] ->
  insert_species_links (before ++ line :: rest) root
  = Raise StringIndexError.
Proof.
  intros Hg He Ht. unfold insert_species_links.
  destruct (titles root) as [|t ts]; [congruence|].
  cbn [titles_loop app]. rewrite species_loop_app.
  rewrite species_loop_effect with (pos := 0)
    by (reflexivity || assumption).
  cbn [bind species_loop].
  rewrite species_step_no_genus with (pos := 0); [reflexivity| |assumption].
  reflexivity.
Qed.

(** X13: an entry whose genus is empty (the line starts with a space,
    or with an asterisk and a space) stops [insert_species_links] with
    the index error of [parts[0][0]] as soon as the document has a
    title, when the lines before it have a genus. *)
Theorem empty_genus_raises before line rest root :
  entries_have_genus before ->
  empty_genus line = true ->
  titles root <> [] ->
  insert_species_links (before ++ line :: rest) root
  = Raise StringIndexError.
Proof. exact (@empty_genus_cases before line rest root). Qed.

Lemma empty_genus_raises_witness :
  insert_species_links [lit "Zea mays"; lit " Brassica oleracea"; lit "x y"]
    (Document [lit "Maize"] [])
  = Raise StringIndexError.
Proof.
  apply (@empty_genus_raises [lit "Zea mays"] (lit " Brassica oleracea")
           [lit "x y"] (Document [lit "Maize"] [])).
  - intros l [<-|[]] _. reflexivity.
  - reflexivity.
  - discriminate.
Defined.

Lemma species_step_no_re_error slot ctx line st e :
  species_step slot ctx line st <> Raise (ReError e).
Proof.
  destruct st as [dicts text].
  destruct (has_space_dec line) as [Hsp|Hsp];
    [|now rewrite species_step_skip].
  destruct (strip_asterisk_total line Hsp) as (pseudo & species & Hs & _).
  destruct (list_index dicts slot) as [pos|e1] eqn:Hpos.
  - destruct (first_char (tok (Py.split_on " " species) 0))
      as [initial|e2] eqn:Hi.
    + now rewrite (@species_step_entry slot ctx line dicts text pseudo species
                     pos initial Hsp Hs Hpos Hi).
    + unfold species_step.
      destruct (space_filter_pass line Hsp) as [sp0 ->].
      cbn [re_call bind]. rewrite Hs. cbn [bind]. rewrite Hpos. cbn [bind].
      rewrite Hi. cbn [bind]. intros [= ->].
      destruct (tok (Py.split_on " " species) 0); discriminate.
  - unfold species_step.
    destruct (space_filter_pass line Hsp) as [sp0 ->].
    cbn [re_call bind]. rewrite Hs. cbn [bind]. rewrite Hpos. cbn [bind].
    intros [= ->]. unfold list_index in Hpos.
    repeat match type of Hpos with
           | context [if ?b then _ else _] => destruct b
           end; discriminate.
Qed.

(** X14: the loop over the species list never raises [re.error],
    whatever characters the lines of the list and the text hold: the
    names are escaped before they enter a pattern. *)
Theorem species_loop_no_re_error slot ctx species_list st e :
  species_loop slot ctx species_list st <> Raise (ReError e).
Proof.
  revert st. induction species_list as [|line rest IH]; intros st;
    [discriminate|].
  cbn [species_loop].
  destruct (species_step slot ctx line st) as [st'|e'] eqn:E; cbn [bind].
  - apply IH.
  - intros [= ->]. now apply species_step_no_re_error in E.
Qed.

(** ** [remove_species_link] *)

Lemma needs_in c n r x y :
  Re.Matches false n r x y -> needs c r = true ->
  exists p, x = p ++ y /\ In c p.
Proof.
  induction 1; cbn [needs]; intros Hn; try discriminate.
  - unfold Re.char_eq in H. apply Ascii.eqb_eq in H, Hn. subst.
    exists [c]. split; [reflexivity|now left].
  - apply orb_prop in Hn as [Hn|Hn].
    + destruct (IHMatches1 Hn) as (p & -> & Hp).
      apply Matches_suffix in H0 as [q ->].
      exists (p ++ q). rewrite <- app_assoc. split; [reflexivity|].
      apply in_or_app. now left.
    + destruct (IHMatches2 Hn) as (p & -> & Hp).
      apply Matches_suffix in H as [q ->].
      exists (q ++ p). rewrite <- app_assoc. split; [reflexivity|].
      apply in_or_app. now right.
  - apply andb_prop in Hn as [Hn _]. auto.
  - apply andb_prop in Hn as [_ Hn]. auto.
  - auto.
Qed.

Lemma match_here_needs c n r must rest :
  needs c r = true -> ~ In c rest ->
  Re.match_here false n r must rest = None.
Proof.
  intros Hn Hc. destruct (Re.match_here false n r must rest) eqn:E;
    [|reflexivity].
  unfold Re.match_here in E. apply rmatch_sound in E as (y & Hy & _).
  destruct (@needs_in c _ _ _ _ Hy Hn) as (p & -> & Hp).
  exfalso. apply Hc, in_or_app. now left.
Qed.

Lemma scan_needs c n r :
  needs c r = true ->
  forall rest busy, ~ In c rest -> Re.scan false n r busy rest = [].
Proof.
  intros Hn. induction rest as [|a rest IH]; intros busy Hc.
  - destruct busy; cbn [Re.scan Re.advance]; [|reflexivity].
    now rewrite (@match_here_needs c n r false _ Hn Hc).
  - assert (Hc' : ~ In c rest) by (intros H; apply Hc; now right).
    destruct busy; cbn [Re.scan Re.advance]; [|now apply IH].
    rewrite (@match_here_needs c n r false _ Hn Hc). cbn [Re.advance].
    now apply IH.
Qed.

Lemma weave_nil repl text : weave repl text [] = text.
Proof.
  unfold weave, Py.slice. cbn [weave_upto]. unfold Py.slice.
  now rewrite firstn_all.
Qed.

(** A substitution whose pattern needs a character the text does not
    hold changes nothing. *)
Lemma re_sub_needs c pattern r repl text :
  Re.compile pattern = inr r -> needs c r = true -> ~ In c text ->
  re_sub pattern repl text = Ok text.
Proof.
  intros Hc Hn Hin. unfold re_sub, Re.finditer. rewrite Hc.
  cbn [re_call bind]. rewrite (@scan_needs c _ r Hn) by assumption.
  now rewrite weave_nil.
Qed.

Lemma compile_taxon_open :
  exists r, Re.compile taxon_open_pattern = inr r
            /\ needs Py.newline r = true /\ needs "<" r = true.
Proof. eexists. split; [vm_compute; reflexivity|]. split; reflexivity. Qed.

Lemma compile_sp_tag :
  Re.compile (lit "<\/?sp>")
  = inr (Re.Seq (Re.Lit "<") (Re.Seq (Re.Opt (Re.Lit "/"))
           (Re.Seq (Re.Lit "s") (Re.Seq (Re.Lit "p")
              (Re.Seq (Re.Lit ">") Re.Eps))))).
Proof. reflexivity. Qed.

Lemma taxon_open_one_line text :
  no_newline text -> re_sub taxon_open_pattern [] text = Ok text.
Proof.
  intros H. destruct compile_taxon_open as (r & Hc & Hn & _).
  exact (@re_sub_needs Py.newline _ r [] text Hc Hn H).
Qed.

(** X15: on a text without a line break the first substitution of
    [remove_species_link] finds nothing, since its pattern holds the
    line break and the indentation of the source: what is removed are
    the [sp] tags and the closing [taxon] tags only. *)
Theorem remove_species_link_one_line text :
  no_newline text ->
  remove_species_link text
  = (text <- re_sub (lit "<\/?sp>") [] text ;;
     Ok (Py.replace (lit "</taxon>") [] text)).
Proof.
  intros H. unfold remove_species_link.
  now rewrite taxon_open_one_line.
Qed.

Lemma remove_species_link_one_line_witness :
  remove_species_link (get_species_link (lit "Zea"))
  = Ok (taxon_open (lit "Zea") [] [] [] ++ lit "Zea").
Proof.
  rewrite (@remove_species_link_one_line (get_species_link (lit "Zea"))).
  - vm_compute. reflexivity.
  - unfold no_newline. vm_compute. intuition discriminate.
Defined.

Lemma scan_open_tag n rest :
  Re.scan false n sp_tag_regex 0 (lit "<taxon genus=" ++ rest)
  = Re.scan false n sp_tag_regex 0 rest.
Proof. reflexivity. Qed.

Lemma replace_open_tag rest :
  Py.replace (lit "</taxon>") [] (lit "<taxon genus=" ++ rest)
  = lit "<taxon genus=" ++ Py.replace (lit "</taxon>") [] rest.
Proof. reflexivity. Qed.

Lemma slice_split (s : str) a b c :
  a <= b -> b <= c -> Py.slice s a c = Py.slice s a b ++ Py.slice s b c.
Proof.
  intros Hab Hbc. unfold Py.slice.
  rewrite <- (firstn_skipn b (firstn c s)) at 1.
  rewrite firstn_firstn, Nat.min_l by assumption.
  rewrite skipn_app. f_equal.
  destruct (Nat.le_gt_cases b (length s)) as [H|H].
  - rewrite length_firstn, Nat.min_l by assumption.
    now replace (a - b) with 0 by lia.
  - rewrite (skipn_all2 (n := b)); [now destruct (a - _)|].
    rewrite length_firstn. lia.
Qed.

Lemma weave_upto_prefix repl text hi lo ms : forall i pos,
  spans_ok lo hi ms -> pos <= lo -> lo <= hi ->
  weave_upto repl text hi i pos ms
  = Py.slice text pos lo ++ weave_upto repl text hi i lo ms.
Proof.
  destruct ms as [|[s e] ms]; intros i pos H Hpos Hlo; cbn [weave_upto].
  - now apply slice_split.
  - destruct H as (H1 & H2 & H3 & H4).
    rewrite (@slice_split text pos lo s) by assumption.
    now rewrite <- app_assoc.
Qed.

Ltac link_form e :=
  match goal with
  | |- link_text (taxon_open ?a ?b ?c ?d ++ ?body) =>
      exists a, b, c, d, e; split;
      [repeat rewrite <- app_assoc; reflexivity
      |rewrite !no_newline_app; repeat split; auto using no_newline_sp]
  end.

Lemma shapes_form tokens :
  tokens <> [] ->
  (forall t, In t tokens -> no_whitespace t) ->
  link_text (genus_spp tokens)
  /\ link_text (genus_species tokens)
  /\ link_text (genus_species_subprefix_subspecies tokens)
  /\ link_text (genus_PARgenusPAR_subspecies tokens)
  /\ link_text (genus_PARnamePAR_species tokens)
  /\ link_text (genus_species_MERGE_subspecies tokens).
Proof.
  intros Hne Hws.
  assert (Htok : forall i, no_newline (tok tokens i)).
  { intros i. unfold tok. destruct (nth_in_or_default i tokens []) as [H | ->].
    - now apply no_whitespace_no_newline, Hws.
    - apply no_newline_nil. }
  assert (Hlast : no_newline (last tokens [])).
  { apply no_whitespace_no_newline, Hws. now apply last_in. }
  assert (Hslice : no_newline
            (Py.slice (tok tokens 1) 1 (length (tok tokens 1) - 1))).
  { intros Hin. apply (Htok 1). unfold Py.slice in Hin.
    apply in_skipn in Hin. revert Hin. apply in_firstn. }
  assert (Hjoin : no_newline (Py.join (lit " ") (skipn 2 (removelast tokens)))).
  { apply no_newline_join. intros t Ht.
    apply no_whitespace_no_newline, Hws.
    now apply in_removelast, in_skipn with (n := 2). }
  pose proof no_newline_space as Hsp. pose proof no_newline_nil as Hnil.
  repeat split.
  - unfold genus_spp. cbv zeta. link_form (sp (tok tokens 0)).
  - unfold genus_species. cbv zeta.
    link_form (sp (tok tokens 0) ++ lit " " ++ sp (tok tokens 1)).
  - unfold genus_species_subprefix_subspecies. cbv zeta.
    link_form (sp (tok tokens 0) ++ lit " " ++ sp (tok tokens 1) ++ lit " "
               ++ tok tokens 2 ++ lit " " ++ sp (tok tokens 3)).
  - unfold genus_PARgenusPAR_subspecies. cbv zeta.
    link_form (sp (tok tokens 0) ++ lit " " ++ sp (tok tokens 1) ++ lit " "
               ++ sp (tok tokens 2)).
  - unfold genus_PARnamePAR_species. cbv zeta.
    link_form (sp (tok tokens 0) ++ lit " " ++ tok tokens 1 ++ lit " "
               ++ sp (tok tokens 2)).
  - unfold genus_species_MERGE_subspecies. cbv zeta.
    link_form (sp (tok tokens 0) ++ lit " " ++ sp (tok tokens 1) ++ lit " "
               ++ Py.join (lit " ") (skipn 2 (removelast tokens)) ++ lit " "
               ++ sp (last tokens [])).
Qed.

(** Unless the text has no token or has three tokens with a rank
    marker in the middle, [get_species_link] writes a link. *)
Lemma get_species_link_form link :
  Py.split link <> [] ->
  (length (Py.split link) = 3 ->
   is_sp_marker (tok (Py.split link) 1) = false) ->
  link_text (get_species_link link).
Proof.
  intros Hne Hmid.
  assert (Hws : forall t, In t (Py.split link) -> no_whitespace t)
    by (intros t Ht; now apply (split_tokens link)).
  destruct (shapes_form Hne Hws) as (S1 & S2 & S4 & Sg & Sn & Sm).
  unfold get_species_link.
  destruct (Py.split link) as [|t0 [|t1 [|t2 [|t3 [|t4 rest]]]]] eqn:Es;
    cbn [length].
  - congruence.
  - exact S1.
  - destruct (is_sp_marker (tok [t0; t1] 1)); assumption.
  - rewrite (Hmid eq_refl). cbn [negb].
    destruct (is_enclosed_match _ _); [exact Sg|].
    destruct (is_parenthetical _); [exact Sn|].
    rewrite genus_species_subspecies_shape by (apply Hws; simpl; auto).
    assert (H0 : no_newline t0) by (apply no_whitespace_no_newline, Hws; simpl; auto).
    assert (H1 : no_newline t1) by (apply no_whitespace_no_newline, Hws; simpl; auto).
    assert (H2 : no_newline t2) by (apply no_whitespace_no_newline, Hws; simpl; auto).
    pose proof no_newline_space. pose proof no_newline_nil.
    link_form (sp t0 ++ lit " " ++ sp t1 ++ lit " " ++ sp t2).
  - exact S4.
  - exact Sm.
Qed.

Lemma no_newline_lit_cons c s :
  Ascii.eqb c Py.newline = false -> no_newline s -> no_newline (c :: s).
Proof.
  intros Hc Hs [H|H]; [|now apply Hs].
  subst c. now rewrite Ascii.eqb_refl in Hc.
Qed.

Lemma link_text_one_line t :
  link_text t ->
  no_newline t /\ exists rest, t = lit "<taxon genus=" ++ rest.
Proof.
  intros (a & b & c & d & e & -> & Hn).
  rewrite !no_newline_app in Hn. destruct Hn as (Ha & Hb & Hc & Hd & He).
  split.
  - unfold taxon_open, taxon_close. rewrite !no_newline_app.
    repeat split; try assumption;
      (intros Hin; cbn in Hin; intuition discriminate).
  - unfold taxon_open. rewrite <- !app_assoc. eexists. reflexivity.
Qed.

Lemma sp_sub_open_tag rest :
  exists rest',
    re_sub (lit "<\/?sp>") [] (lit "<taxon genus=" ++ rest)
    = Ok (lit "<taxon genus=" ++ rest').
Proof.
  unfold re_sub, Re.finditer. rewrite compile_sp_tag.
  fold sp_tag_regex. cbn [re_call bind].
  rewrite scan_open_tag. unfold weave.
  set (text := lit "<taxon genus=" ++ rest).
  assert (Hlen : length text = 13 + length rest) by reflexivity.
  pose proof (@scan_spans false (length text) sp_tag_regex rest 0) as Hs.
  rewrite Hlen in Hs at 1 2.
  replace (13 + length rest - length rest + 0) with 13 in Hs by lia.
  rewrite (@weave_upto_prefix _ text (length text) 13 _ 0 0)
    by (try apply Hs; lia).
  eexists. reflexivity.
Qed.

(** X16: [remove_species_link] does not undo [get_species_link]: of a
    link the formatter has written, the opening tag stays in the text
    that is returned. *)
Theorem remove_species_link_keeps_tag link :
  Py.split link <> [] ->
  (length (Py.split link) = 3 ->
   is_sp_marker (tok (Py.split link) 1) = false) ->
  exists rest,
    remove_species_link (get_species_link link)
    = Ok (lit "<taxon genus=" ++ rest).
Proof.
  intros Hne Hmid.
  destruct (link_text_one_line (get_species_link_form link Hne Hmid))
    as (Hn & rest & E).
  unfold remove_species_link. rewrite taxon_open_one_line by assumption.
  cbn [bind]. rewrite E.
  destruct (sp_sub_open_tag rest) as [rest' ->]. cbn [bind].
  rewrite replace_open_tag. eexists. reflexivity.
Qed.

Lemma remove_species_link_keeps_tag_witness :
  exists rest,
    remove_species_link (get_species_link (lit "Brassica oleracea"))
    = Ok (lit "<taxon genus=" ++ rest).
Proof.
  apply remove_species_link_keeps_tag.
  - vm_compute. discriminate.
  - vm_compute. discriminate.
Defined.

Lemma replace_absent c0 old new s :
  ~ In c0 s -> Py.replace (c0 :: old) new s = s.
Proof.
  unfold Py.replace. induction s as [|c s IH]; intros H; [reflexivity|].
  cbn [Py.replace_from Py.starts_with].
  destruct (Ascii.eqb c0 c) eqn:E.
  - apply Ascii.eqb_eq in E. subst c. exfalso. apply H. now left.
  - cbn [andb]. f_equal. apply IH. intros Hin. apply H. now right.
Qed.

(** X17: a text without the character [<] is returned by
    [remove_species_link] as it is. *)
Theorem remove_species_link_plain text :
  ~ In "<"%char text -> remove_species_link text = Ok text.
Proof.
  intros H. unfold remove_species_link.
  destruct compile_taxon_open as (r & Hc & _ & Hn).
  rewrite (@re_sub_needs "<" _ r [] text Hc Hn H). cbn [bind].
  rewrite (@re_sub_needs "<" _ _ [] text compile_sp_tag eq_refl H).
  cbn [bind]. f_equal. now apply replace_absent.
Qed.

Lemma remove_species_link_plain_witness :
  remove_species_link (lit "Zea mays L.") = Ok (lit "Zea mays L.").
Proof.
  apply remove_species_link_plain.
  vm_compute. intuition discriminate.
Defined.

(** ** What the name patterns match *)

Lemma push_lits_frame s : forall f,
  push_lits f s
  = Re.Frame (Re.branches f) (rev (map Re.Lit s) ++ Re.items f).
Proof.
  unfold push_lits. induction s as [|c s IH]; intros f.
  - now destruct f.
  - cbn [fold_left map rev]. rewrite IH. cbn [Re.push Re.branches Re.items].
    now rewrite <- app_assoc.
Qed.

Lemma seq_of_lits s rs :
  Re.seq_of (map Re.Lit s ++ rs) = lits_then s (Re.seq_of rs).
Proof.
  unfold Re.seq_of, lits_then. induction s as [|c s IH]; [reflexivity|].
  cbn [map app fold_right]. now rewrite IH.
Qed.

Lemma name_regex_eq a b :
  name_regex a b = lits_then a (separator_then (lits_then b Re.Eps)).
Proof.
  unfold name_regex, push_separator. rewrite !push_lits_frame.
  cbn [Re.push Re.branches Re.items Re.empty_frame].
  unfold Re.close, Re.new_branch. cbn [Re.branches Re.items rev app Re.alt_of].
  rewrite !rev_app_distr, app_nil_r, rev_involutive. cbn [rev app].
  rewrite rev_involutive, <- !app_assoc. cbn [app].
  rewrite seq_of_lits. unfold separator_then. f_equal.
  cbn [Re.seq_of fold_right]. do 3 f_equal.
  rewrite <- (app_nil_r (map Re.Lit b)). apply seq_of_lits.
Qed.

Lemma lower_char_space c : Py.lower_char c = " "%char -> c = " "%char.
Proof.
  destruct c as [[] [] [] [] [] [] [] []]; vm_compute; congruence.
Qed.

Lemma lower_char_newline c : Py.lower_char c = Py.newline -> c = Py.newline.
Proof.
  destruct c as [[] [] [] [] [] [] [] []]; vm_compute; congruence.
Qed.

Section NameRegex.

Variable n : nat.

Lemma matches_lits_ci p r : forall x z,
  Re.Matches true n (lits_then p r) x z
  <-> exists p' y, x = p' ++ y /\ ignorecase_eq p p'
                   /\ Re.Matches true n r y z.
Proof.
  unfold ignorecase_eq.
  induction p as [|c p IH]; intros x z; simpl.
  - split.
    + intros H. exists [], x. repeat split; [constructor|assumption].
    + intros (p' & y & -> & Hp & H). inversion Hp. exact H.
  - split.
    + intros H.
      inversion H as [| | | | | | |r1 r2 a b c0 H1 H2| | | | | | |]; subst.
      inversion H1 as [|q d w E| | | | | | | | | | | | |]; subst.
      apply IH in H2 as (p' & y & -> & Hp & H2).
      exists (d :: p'), y. repeat split; [|assumption].
      now constructor.
    + intros (p' & y & -> & Hp & H).
      inversion Hp as [|c' d p0 p1 Hd Hp']; subst.
      eapply Re.MSeq.
      * apply Re.MLit. exact Hd.
      * apply IH. now exists p1, y.
Qed.

Lemma matches_spaces_ci x y :
  Re.Matches true n (Re.Star (Re.Lit " ")) x y ->
  exists s, x = s ++ y /\ spaces s.
Proof.
  intros H. remember (Re.Star (Re.Lit " ")) as r eqn:Er.
  induction H; try discriminate.
  - exists []. split; [reflexivity|intros ? []].
  - injection Er as ->.
    destruct (IHMatches2 eq_refl) as (s & -> & Hs).
    inversion H as [|q d w E| | | | | | | | | | | | |]; subst.
    unfold Re.char_eq in E. apply Ascii.eqb_eq in E.
    symmetry in E. apply lower_char_space in E. subst d.
    exists (" "%char :: s). split; [reflexivity|].
    intros c [<-|Hc]; [reflexivity|now apply Hs].
Qed.

Lemma matches_newline_ci x y :
  Re.Matches true n (Re.Opt (Re.Lit Py.newline)) x y ->
  exists nl, x = nl ++ y /\ (nl = [] \/ nl = [Py.newline]).
Proof.
  intros H.
  inversion H as [| | | | | | | | | | |r u v H1|r u| |]; subst.
  - inversion H1 as [|q d w E| | | | | | | | | | | | |]; subst.
    unfold Re.char_eq in E. apply Ascii.eqb_eq in E.
    symmetry in E. apply lower_char_newline in E. subst d.
    exists [Py.newline]. auto.
  - exists []. auto.
Qed.

Lemma matches_name_regex a b x z :
  Re.Matches true n (name_regex a b) x z ->
  exists occ, x = occ ++ z /\ occurrence a b occ.
Proof.
  rewrite name_regex_eq. intros H.
  apply matches_lits_ci in H as (a' & y & -> & Ha & H).
  unfold separator_then in H.
  inversion H as [| | | | | | |r1 r2 u v w H1 H2| | | | | | |]; subst.
  inversion H2 as [| | | | | | |r1 r2 u v' w H3 H4| | | | | | |]; subst.
  inversion H4 as [| | | | | | |r1 r2 u v'' w H5 H6| | | | | | |]; subst.
  apply matches_spaces_ci in H1 as (s1 & -> & Hs1).
  apply matches_newline_ci in H3 as (nl & -> & Hnl).
  apply matches_spaces_ci in H5 as (s2 & -> & Hs2).
  apply matches_lits_ci in H6 as (b' & y & -> & Hb & H6).
  inversion H6; subst.
  exists (a' ++ (s1 ++ nl ++ s2) ++ b'). split.
  - now rewrite <- !app_assoc.
  - exists a', (s1 ++ nl ++ s2), b'. repeat split; try assumption.
    now exists s1, nl, s2.
Qed.

End NameRegex.

(** Every span of the scan is a match of the regex on a tail of the
    text. *)
Lemma scan_sound ci n r s e : forall rest busy,
  In (s, e) (Re.scan ci n r busy rest) ->
  exists p x y, rest = p ++ x /\ Re.Matches ci n r x y
                /\ s = n - length x /\ e = n - length y.
Proof.
  assert (Hhere : forall must rest out,
            Re.match_here ci n r must rest = Some out ->
            Re.Matches ci n r rest out).
  { intros must rest out H. unfold Re.match_here in H.
    apply rmatch_sound in H as (y & Hy & H).
    destruct (must && (length y =? length rest)); [discriminate|].
    now injection H as <-. }
  assert (Hadv : forall a rest,
            (exists p x y, rest = p ++ x /\ Re.Matches ci n r x y
                           /\ s = n - length x /\ e = n - length y) ->
            exists p x y, a :: rest = p ++ x /\ Re.Matches ci n r x y
                          /\ s = n - length x /\ e = n - length y).
  { intros a rest (p & x & y & -> & Hm & Hs & He).
    now exists (a :: p), x, y. }
  induction rest as [|a rest IH]; intros busy H.
  - destruct busy; cbn [Re.scan Re.advance] in H; [|destruct H].
    destruct (Re.match_here ci n r false []) as [out|] eqn:E; [|destruct H].
    destruct (length out =? length (@nil ascii)).
    + destruct H as [H|H].
      * injection H as <- <-. exists [], [], out. repeat split; eauto.
      * destruct (Re.match_here ci n r true []) as [out'|] eqn:E';
          [|destruct H].
        destruct H as [H|[]]. injection H as <- <-.
        exists [], [], out'. repeat split; eauto.
    + destruct H as [H|[]]. injection H as <- <-.
      exists [], [], out. repeat split; eauto.
  - destruct busy; cbn [Re.scan Re.advance] in H;
      [|apply Hadv; eapply IH; exact H].
    destruct (Re.match_here ci n r false (a :: rest)) as [out|] eqn:E;
      [|apply Hadv; eapply IH; exact H].
    destruct (length out =? length (a :: rest)).
    + destruct H as [H|H].
      * injection H as <- <-. exists [], (a :: rest), out. eauto.
      * destruct (Re.match_here ci n r true (a :: rest)) as [out'|] eqn:E';
          [|apply Hadv; eapply IH; exact H].
        destruct H as [H|H].
        -- injection H as <- <-. exists [], (a :: rest), out'. eauto.
        -- apply Hadv; eapply IH; exact H.
    + destruct H as [H|H].
      * injection H as <- <-. exists [], (a :: rest), out. eauto.
      * apply Hadv; eapply IH; exact H.
Qed.

Lemma slice_middle (p occ z : str) :
  Py.slice (p ++ occ ++ z) (length p) (length p + length occ) = occ.
Proof.
  unfold Py.slice. rewrite app_assoc, firstn_app.
  rewrite <- length_app, firstn_all.
  replace (length (p ++ occ) - length (p ++ occ)) with 0 by lia.
  cbn [firstn]. rewrite app_nil_r, skipn_app, skipn_all, Nat.sub_diag.
  reflexivity.
Qed.

(** The spans of a name pattern cover occurrences of the name. *)
Lemma name_pattern_occurrence a b text s e :
  In (s, e) (Re.scan true (length text) (name_regex a b) 0 text) ->
  occurrence a b (Py.slice text s e).
Proof.
  intros H. apply scan_sound in H as (p & x & y & -> & Hm & -> & ->).
  apply matches_name_regex in Hm as (occ & -> & Hocc).
  rewrite !length_app.
  replace (length p + (length occ + length y) - (length occ + length y))
    with (length p) by lia.
  replace (length p + (length occ + length y) - length y)
    with (length p + length occ) by lia.
  now rewrite slice_middle.
Qed.

(** X18: every stretch of text the loop replaces for the full name of
    an entry is made of three parts: one character for each character
    of the genus, the two accepted by the comparison of characters of
    [re.IGNORECASE]; a run of blanks (spaces, at most one line break,
    spaces; the run may be empty); and one character for each
    character of the epithet, accepted in the same way. *)
Theorem full_matches_are_occurrences parts text matches s e :
  Re.finditer (full_pattern parts) text true = inr matches ->
  In (s, e) matches ->
  occurrence (tok parts 0) (tok parts 1) (Py.slice text s e).
Proof.
  unfold full_pattern. rewrite finditer_name_pattern. intros [= <-].
  apply name_pattern_occurrence.
Qed.

Lemma full_matches_are_occurrences_witness :
  occurrence (lit "Zea") (lit "mays") (lit "ZEA"  ++ [" "%char; Py.newline] ++ lit "mays").
Proof.
  exact (@full_matches_are_occurrences [lit "Zea"; lit "mays"]
           (lit "The ZEA " ++ [Py.newline] ++ lit "mays plant")
           [(4, 13)] 4 13 ltac:(vm_compute; reflexivity)
           ltac:(left; reflexivity)).
Defined.

Lemma short_parts_head initial parts :
  initial <> " "%char ->
  tok (short_parts_of initial parts) 0 = [initial; "."%char].
Proof.
  intros Hi. unfold tok, short_parts_of, Py.split_on.
  cbn [app lit list_ascii_of_string Py.split_on_from].
  destruct (Ascii.eqb initial " ") eqn:E;
    [apply Ascii.eqb_eq in E; contradiction|].
  cbn [Ascii.eqb Bool.eqb andb nth rev app]. reflexivity.
Qed.

(** X19: every stretch of text the loop replaces for the short form of
    an entry is made of three parts: a character that the comparison
    of characters of [re.IGNORECASE] accepts for the first letter of
    the genus and a full stop; a run of blanks; and one character for
    each character of what follows the genus in the entry, accepted by
    the same comparison. *)
Theorem short_matches_are_occurrences initial parts text matches s e :
  initial <> " "%char ->
  Re.finditer (short_pattern (short_parts_of initial parts) parts) text true
  = inr matches ->
  In (s, e) matches ->
  occurrence [initial; "."%char] (Py.join (lit " ") (skipn 1 parts))
    (Py.slice text s e).
Proof.
  intros Hi. unfold short_pattern. rewrite finditer_name_pattern.
  intros [= <-]. rewrite short_parts_head by assumption.
  apply name_pattern_occurrence.
Qed.

Lemma short_matches_are_occurrences_witness :
  occurrence (lit "B.") (lit "oleracea var. capitata")
    (lit "b.  oleracea VAR. capitata").
Proof.
  exact (@short_matches_are_occurrences "B"
           [lit "Brassica"; lit "oleracea"; lit "var."; lit "capitata"]
           (lit "Of b.  oleracea VAR. capitata here")
           [(3, 29)] 3 29 ltac:(discriminate)
           ltac:(vm_compute; reflexivity) ltac:(left; reflexivity)).
Defined.

Lemma in_slice (text : str) s e c : In c (Py.slice text s e) -> In c text.
Proof.
  unfold Py.slice. intros H. apply in_skipn in H. revert H. apply in_firstn.
Qed.

Lemma lacks_initial_scan initial a b text :
  lacks_initial initial text ->
  Re.scan true (length text) (name_regex (initial :: a) b) 0 text = [].
Proof.
  intros H.
  destruct (Re.scan true (length text) (name_regex (initial :: a) b) 0 text)
    as [|[s e] ms] eqn:E; [reflexivity|].
  assert (Hin : In (s, e)
                  (Re.scan true (length text) (name_regex (initial :: a) b)
                     0 text)) by (rewrite E; now left).
  apply name_pattern_occurrence in Hin
    as (a' & sep & b' & Hocc & Ha & _).
  inversion Ha as [|c0 c p0 a0 Hc Ha']; subst.
  assert (Hin : In c text)
    by (apply in_slice with (s := s) (e := e); rewrite Hocc; now left).
  rewrite (H c Hin) in Hc. discriminate.
Qed.

Lemma entry_effect_lacks ctx pseudo parts initial index text :
  first_char (tok parts 0) = Ok initial ->
  initial <> " "%char ->
  lacks_initial initial text ->
  entry_effect ctx pseudo parts initial index text = text.
Proof.
  intros Hi Hsp H. unfold entry_effect, after_full_names, full_matches.
  destruct (tok parts 0) as [|c a] eqn:Et; [discriminate|].
  injection Hi as ->.
  rewrite lacks_initial_scan by assumption. rewrite weave_nil.
  unfold short_matches. rewrite short_parts_head by assumption.
  rewrite lacks_initial_scan by assumption. apply weave_nil.
Qed.

Lemma first_char_not_space species initial :
  first_char (tok (Py.split_on " " species) 0) = Ok initial ->
  initial <> " "%char.
Proof.
  rewrite first_char_genus. destruct species as [|c s]; [discriminate|].
  destruct (Ascii.eqb c " ") eqn:E; [discriminate|].
  intros [= <-] ->. discriminate.
Qed.

Lemma species_step_lacks slot ctx line dicts text dicts' text' :
  (In " "%char line ->
   forall initial, genus_initial line = Some initial ->
                   lacks_initial initial text) ->
  species_step slot ctx line (dicts, text) = Ok (dicts', text') ->
  text' = text.
Proof.
  intros H.
  destruct (has_space_dec line) as [Hsp|Hsp];
    [|rewrite species_step_skip by assumption; now intros [= _ <-]].
  specialize (H Hsp). unfold genus_initial in H.
  destruct (strip_asterisk_total line Hsp) as (pseudo & species & Hs & _).
  rewrite Hs in H.
  destruct (list_index dicts slot) as [pos|e1] eqn:Hpos.
  - destruct (first_char (tok (Py.split_on " " species) 0))
      as [initial|e2] eqn:Hi.
    + rewrite (@species_step_entry slot ctx line dicts text pseudo species
                 pos initial Hsp Hs Hpos Hi).
      cbv zeta. intros [= _ <-].
      apply entry_effect_lacks; [assumption| |now apply H].
      now apply first_char_not_space with (species := species).
    + unfold species_step.
      destruct (space_filter_pass line Hsp) as [sp0 ->].
      cbn [re_call bind]. rewrite Hs. cbn [bind]. rewrite Hpos. cbn [bind].
      rewrite Hi. discriminate.
  - unfold species_step.
    destruct (space_filter_pass line Hsp) as [sp0 ->].
    cbn [re_call bind]. rewrite Hs. cbn [bind]. rewrite Hpos. discriminate.
Qed.

(** X20: the loop over the species list leaves alone a text in which
    no character is one that the comparison of characters of
    [re.IGNORECASE] accepts for the first letter of the genus of an
    entry: when the loop returns, the text is the one it was given. *)
Theorem species_loop_lacks slot ctx species_list dicts text dicts' text' :
  (forall line initial,
     In line species_list -> In " "%char line ->
     genus_initial line = Some initial -> lacks_initial initial text) ->
  species_loop slot ctx species_list (dicts, text) = Ok (dicts', text') ->
  text' = text.
Proof.
  revert dicts. induction species_list as [|line rest IH]; intros dicts H.
  - now intros [= _ <-].
  - cbn [species_loop].
    destruct (species_step slot ctx line (dicts, text)) as [[d1 t1]|e] eqn:E;
      [|discriminate].
    cbn [bind]. intros Hloop.
    apply species_step_lacks in E;
      [|intros Hsp initial Hg; apply (H line initial); auto; now left].
    subst t1. apply IH in Hloop; [assumption|].
    intros l i Hl. apply H. now right.
Qed.

Lemma species_loop_lacks_witness :
  let species_list := [lit "Zea mays"; lit "*Brassica oleracea"] in
  let index :=
    [(lit "Zea", [lit "mays"]); (lit "*Brassica", [lit "oleracea"])] in
  species_loop (-1) false species_list ([[]], lit "a quiet title")
  = Ok ([index], lit "a quiet title")
  /\ lit "a quiet title" = lit "a quiet title".
Proof.
  intros species_list index.
  assert (Hloop : species_loop (-1) false species_list
                    ([[]], lit "a quiet title")
                  = Ok ([index], lit "a quiet title"))
    by (vm_compute; reflexivity).
  split; [exact Hloop|].
  refine (@species_loop_lacks (-1) false species_list [[]]
            (lit "a quiet title") [index] (lit "a quiet title") _ Hloop).
  intros line initial [<-|[<-|[]]] _ [= <-] c Hc;
    vm_compute in Hc;
    repeat (destruct Hc as [<-|Hc]; [vm_compute; reflexivity|]);
    destruct Hc.
Defined.

(** ** A name written without a blank *)

Lemma split_on_from_piece sep s : forall cur,
  ~ In sep s -> Py.split_on_from sep cur s = [rev cur ++ s].
Proof.
  induction s as [|c s IH]; intros cur H; cbn [Py.split_on_from].
  - now rewrite app_nil_r.
  - destruct (Ascii.eqb c sep) eqn:E.
    + apply Ascii.eqb_eq in E. subst c. exfalso. apply H. now left.
    + rewrite IH by (intros Hin; apply H; now right).
      cbn [rev]. now rewrite <- app_assoc.
Qed.

Lemma split_on_two sep a b :
  ~ In sep a -> ~ In sep b ->
  Py.split_on sep (a ++ sep :: b) = [a; b].
Proof.
  intros Ha Hb. unfold Py.split_on.
  assert (H : forall cur,
            Py.split_on_from sep cur (a ++ sep :: b) = [rev cur ++ a; b]).
  { induction a as [|c a IH]; intros cur; cbn [app Py.split_on_from].
    - rewrite Ascii.eqb_refl, app_nil_r.
      now rewrite split_on_from_piece by assumption.
    - destruct (Ascii.eqb c sep) eqn:E.
      + apply Ascii.eqb_eq in E. subst c. exfalso. apply Ha. now left.
      + rewrite IH by (intros Hin; apply Ha; now right).
        cbn [rev]. now rewrite <- app_assoc. }
  apply (H []).
Qed.

Lemma no_whitespace_space t : no_whitespace t -> ~ In " "%char t.
Proof. intros H Hin. now specialize (H _ Hin). Qed.

Lemma remove_blank_chars_token t :
  no_whitespace t -> remove_blank_chars t = t.
Proof.
  intros H. rewrite remove_blank_chars_squeeze.
  rewrite newline_to_space_id by now apply no_whitespace_no_newline.
  apply no_whitespace_space in H. generalize false.
  induction t as [|c t IH]; intros after; [reflexivity|].
  cbn [squeeze]. destruct (Ascii.eqb c " ") eqn:E.
  - apply Ascii.eqb_eq in E. subst c. exfalso. apply H. now left.
  - f_equal. apply IH. intros Hin. apply H. now right.
Qed.

Lemma ignorecase_eq_length p x : ignorecase_eq p x -> length p = length x.
Proof. apply Forall2_length. Qed.

Lemma ignorecase_eq_refl p : ignorecase_eq p p.
Proof.
  unfold ignorecase_eq. induction p as [|c p IH]; constructor; [|exact IH].
  unfold Re.char_eq. apply Ascii.eqb_refl.
Qed.

Lemma occurrence_length a b occ :
  occurrence a b occ -> length a + length b <= length occ.
Proof.
  intros (a' & sep & b' & -> & Ha & _ & Hb).
  apply ignorecase_eq_length in Ha, Hb. rewrite !length_app. lia.
Qed.

Lemma matches_joined n a b :
  Re.Matches true n (name_regex a b) (a ++ b) [].
Proof.
  rewrite name_regex_eq. apply matches_lits_ci.
  exists a, b. repeat split; [apply ignorecase_eq_refl|].
  unfold separator_then.
  eapply Re.MSeq; [apply Re.MStarNil|].
  eapply Re.MSeq; [apply Re.MOptNone|].
  eapply Re.MSeq; [apply Re.MStarNil|].
  apply matches_lits_ci. exists b, []. rewrite app_nil_r.
  repeat split; [apply ignorecase_eq_refl|]. constructor.
Qed.

Lemma match_here_sound ci n r must rest out :
  Re.match_here ci n r must rest = Some out -> Re.Matches ci n r rest out.
Proof.
  unfold Re.match_here. intros H.
  apply rmatch_sound in H as (y & Hy & H).
  destruct (must && (length y =? length rest)); [discriminate|].
  now injection H as <-.
Qed.

Lemma match_here_joined n a b :
  Re.match_here true n (name_regex a b) false (a ++ b) = Some [].
Proof.
  destruct (Re.match_here true n (name_regex a b) false (a ++ b))
    as [out|] eqn:E.
  - pose proof (match_here_sound _ _ _ _ _ E) as H.
    apply matches_name_regex in H as (occ & Hx & Hocc).
    apply occurrence_length in Hocc.
    apply (f_equal (@length ascii)) in Hx. rewrite !length_app in Hx.
    destruct out; [reflexivity|]. cbn [length] in Hx. lia.
  - exfalso. revert E. unfold Re.match_here.
    apply rmatch_complete with (y := []); [apply matches_joined|].
    discriminate.
Qed.

Lemma match_here_empty n c a b must :
  Re.match_here true n (name_regex (c :: a) b) must [] = None.
Proof.
  destruct (Re.match_here true n (name_regex (c :: a) b) must [])
    as [out|] eqn:E; [|reflexivity].
  apply match_here_sound, matches_name_regex in E as (occ & Hx & Hocc).
  apply occurrence_length in Hocc.
  apply (f_equal (@length ascii)) in Hx. rewrite length_app in Hx.
  cbn [length] in Hx, Hocc. lia.
Qed.

Lemma scan_busy ci n r rest :
  Re.scan ci n r (length rest) rest = Re.scan ci n r 0 [].
Proof.
  induction rest as [|c rest IH]; [reflexivity|].
  cbn [length Re.scan Re.advance]. exact IH.
Qed.

Lemma scan_whole ci n r c rest :
  Re.match_here ci n r false (c :: rest) = Some [] ->
  Re.match_here ci n r false [] = None ->
  Re.scan ci n r 0 (c :: rest) = [(n - length (c :: rest), n)].
Proof.
  intros H1 H2. cbn [Re.scan]. rewrite H1.
  cbn [length Nat.eqb Re.advance]. unfold Re.span_of.
  match goal with
  | |- context [Re.scan ci n r ?busy rest] =>
      replace busy with (length rest) by (cbn [length]; lia)
  end.
  rewrite scan_busy. cbn [Re.scan]. rewrite H2.
  cbn [length Re.advance]. now rewrite Nat.sub_0_r.
Qed.

Lemma scan_joined c a b :
  Re.scan true (length ((c :: a) ++ b)) (name_regex (c :: a) b) 0
    ((c :: a) ++ b)
  = [(0, length ((c :: a) ++ b))].
Proof.
  pose proof (match_here_joined (length ((c :: a) ++ b)) (c :: a) b) as H1.
  pose proof (match_here_empty (length ((c :: a) ++ b)) c a b false) as H2.
  cbn [app] in *. rewrite (@scan_whole _ _ _ _ _ H1 H2).
  now rewrite Nat.sub_diag.
Qed.

Lemma weave_whole repl (text : str) :
  weave repl text [(0, length text)] = repl 0 text.
Proof.
  unfold weave. cbn [weave_upto]. unfold Py.slice.
  rewrite firstn_all, skipn_all. cbn [firstn skipn app].
  apply app_nil_r.
Qed.

Lemma lower_char_dot c : Py.lower_char c = "."%char -> c = "."%char.
Proof.
  destruct c as [[] [] [] [] [] [] [] []]; vm_compute; congruence.
Qed.

Lemma no_short_form_without_dot initial rest text :
  ~ In "."%char text ->
  Re.scan true (length text) (name_regex [initial; "."%char] rest) 0 text = [].
Proof.
  intros H.
  destruct (Re.scan true (length text) (name_regex [initial; "."%char] rest)
              0 text) as [|[s e] ms] eqn:E; [reflexivity|].
  assert (Hin : In (s, e)
                  (Re.scan true (length text)
                     (name_regex [initial; "."%char] rest) 0 text))
    by (rewrite E; now left).
  apply name_pattern_occurrence in Hin as (a' & sep & b' & Hocc & Ha & _).
  inversion Ha as [|i0 c0 p0 a0 _ Ha0]; subst.
  inversion Ha0 as [|d0 c1 p1 a1 Hc _]; subst.
  unfold Re.char_eq in Hc. apply Ascii.eqb_eq in Hc.
  symmetry in Hc. apply lower_char_dot in Hc. subst c1.
  exfalso. apply H. apply in_slice with (s := s) (e := e).
  rewrite Hocc. right. now left.
Qed.

Lemma genus_spp_no_dot t :
  ~ In "."%char t -> ~ In "."%char (genus_spp [t]).
Proof.
  intros H. unfold genus_spp, taxon_open, sp, taxon_close, tok.
  cbn [nth]. rewrite !in_app_iff. cbn [In lit list_ascii_of_string].
  intuition discriminate.
Qed.

(** The effect of the entry [a b] on the text [ab]. *)
Lemma entry_effect_joined c a b index :
  no_whitespace (c :: a) -> no_whitespace b ->
  ~ In "."%char ((c :: a) ++ b) ->
  entry_effect false false [c :: a; b] c index ((c :: a) ++ b)
  = genus_spp [(c :: a) ++ b].
Proof.
  intros Ha Hb Hdot.
  assert (Hws : no_whitespace ((c :: a) ++ b)).
  { intros x Hx. apply in_app_or in Hx as [Hx|Hx]; auto. }
  unfold entry_effect, after_full_names, full_matches.
  change (tok [c :: a; b] 0) with (c :: a).
  change (tok [c :: a; b] 1) with b.
  rewrite (scan_joined c a b), weave_whole.
  unfold full_replacement. cbn [Nat.eqb negb andb].
  rewrite remove_blank_chars_token by assumption.
  assert (Hlink : get_species_link ((c :: a) ++ b)
                  = genus_spp [(c :: a) ++ b]).
  { unfold get_species_link.
    rewrite split_token by (assumption || discriminate). reflexivity. }
  rewrite Hlink. unfold short_matches.
  rewrite short_parts_head
    by (intros ->; now specialize (Ha " "%char (or_introl eq_refl))).
  rewrite no_short_form_without_dot by now apply genus_spp_no_dot.
  apply weave_nil.
Qed.

(** X21: the blank between genus and epithet may be missing in the
    text.  With the entry [a b] in the list, the title [ab], one word,
    is found as an occurrence of the name and becomes the link of a
    genus [ab] without species. *)
Theorem names_run_together a b :
  a <> [] ->
  Py.starts_with (lit "*") a = false ->
  no_whitespace a -> no_whitespace b ->
  ~ In "."%char (a ++ b) ->
  insert_species_links [a ++ lit " " ++ b] (Document [a ++ b] [])
  = Ok (Document [genus_spp [a ++ b]] []).
Proof.
  intros Hne Hstar Ha Hb Hdot. destruct a as [|c a]; [congruence|].
  cbn [Py.starts_with lit list_ascii_of_string] in Hstar.
  rewrite andb_true_r in Hstar.
  assert (Hc : Ascii.eqb c " " = false).
  { destruct (Ascii.eqb c " ") eqn:E; [|reflexivity].
    apply Ascii.eqb_eq in E. subst c.
    now specialize (Ha " "%char (or_introl eq_refl)). }
  assert (Hsp : existsb (Ascii.eqb " ") ((c :: a) ++ lit " " ++ b) = true).
  { apply has_space_existsb, in_or_app. right. now left. }
  unfold insert_species_links.
  rewrite titles_loop_effect.
  - cbn [titles abstracts map bind abstracts_loop]. do 3 f_equal.
    unfold title_effect. cbn [loop_effect]. unfold line_effect.
    rewrite Hsp. unfold strip_asterisk. cbn [app first_char bind].
    rewrite Ascii.eqb_sym, Hstar.
    change (c :: a ++ lit " " ++ b) with ((c :: a) ++ " "%char :: b).
    rewrite split_on_two by now apply no_whitespace_space.
    change (tok [c :: a; b] 0) with (c :: a). cbn [first_char].
    now apply entry_effect_joined.
  - intros line [<-|[]] _. unfold empty_genus.
    cbn [app Py.starts_with lit list_ascii_of_string].
    rewrite andb_true_r, Ascii.eqb_sym, Hc, Hstar. reflexivity.
Qed.

Lemma names_run_together_witness :
  insert_species_links [lit "Zea mays"] (Document [lit "Zeamays"] [])
  = Ok (Document [genus_spp [lit "Zeamays"]] []).
Proof.
  apply (@names_run_together (lit "Zea") (lit "mays")).
  - discriminate.
  - reflexivity.
  - intros c Hc. vm_compute in Hc.
    repeat (destruct Hc as [<-|Hc]; [reflexivity|]). destruct Hc.
  - intros c Hc. vm_compute in Hc.
    repeat (destruct Hc as [<-|Hc]; [reflexivity|]). destruct Hc.
  - vm_compute. intuition discriminate.
Defined.

(** ** The dicts of the titles *)

Lemma titles_loop_index species_list titles dicts titles' d :
  titles_loop species_list titles [] = Ok (dicts, titles') ->
  In d dicts -> d = register_lines species_list [].
Proof.
  intros H Hin. apply titles_loop_dicts in H. cbn [app] in H. subst dicts.
  apply in_map_iff in Hin as (t & <- & _). reflexivity.
Qed.

(** X5: the dict the loop of a title builds from the species list
    names every genus once and lists no epithet of a genus twice,
    however often the list repeats a line. *)
Theorem genus_index_set_map species_list titles dicts titles' d :
  titles_loop species_list titles [] = Ok (dicts, titles') ->
  In d dicts ->
  NoDup (dict_keys d) /\ forall key, NoDup (dict_get key d).
Proof.
  intros H Hin. rewrite (@titles_loop_index _ _ _ _ _ H Hin).
  apply register_lines_set_map.
Qed.

Lemma genus_index_set_map_witness :
  let index := [(lit "Zea", [lit "mays"; lit "diploperennis"])] in
  NoDup (dict_keys index) /\ forall key, NoDup (dict_get key index).
Proof.
  intros index.
  apply (@genus_index_set_map
           [lit "Zea mays"; lit "Zea diploperennis"; lit "Zea mays"]
           [lit "Maize"] [index] [lit "Maize"] index).
  - vm_compute. reflexivity.
  - now left.
Defined.

Lemma split_on_from_pieces sep s : forall cur piece,
  ~ In sep cur -> In piece (Py.split_on_from sep cur s) -> ~ In sep piece.
Proof.
  induction s as [|c s IH]; intros cur piece Hcur; cbn [Py.split_on_from].
  - intros [<-|[]]. now rewrite <- in_rev.
  - destruct (Ascii.eqb c sep) eqn:E.
    + intros [<-|H]; [now rewrite <- in_rev|].
      revert H. apply IH. intros [].
    + apply IH. intros [->|H]; [|now apply Hcur].
      now rewrite Ascii.eqb_refl in E.
Qed.

Lemma entry_key_no_space pseudo species :
  ~ In " "%char (entry_key pseudo (Py.split_on " " species)).
Proof.
  assert (H : ~ In " "%char (tok (Py.split_on " " species) 0)).
  { unfold tok.
    destruct (nth_in_or_default 0 (Py.split_on " " species) []) as [H| ->];
      [|intros []].
    revert H. apply split_on_from_pieces. intros []. }
  unfold entry_key. destruct pseudo; [|assumption].
  intros [Hc|Hc]; [discriminate|now apply H].
Qed.

Lemma register_line_keys line d :
  (forall key, In key (dict_keys d) -> ~ In " "%char key) ->
  forall key, In key (dict_keys (register_line line d)) ->
              ~ In " "%char key.
Proof.
  intros Hd key. unfold register_line.
  destruct (existsb (Ascii.eqb " ") line); [|apply Hd].
  destruct (strip_asterisk line) as [[pseudo species]|e]; [|apply Hd].
  destruct (register_equations (entry_key pseudo (Py.split_on " " species))
              (tok (Py.split_on " " species) 1) d) as (E & _).
  rewrite E. intros Hin. apply in_app_or in Hin as [Hin|Hin];
    [now apply Hd|].
  destruct (dict_mem _ d); [destruct Hin|].
  destruct Hin as [<-|[]]. apply entry_key_no_space.
Qed.

Lemma register_lines_keys lines : forall d,
  (forall key, In key (dict_keys d) -> ~ In " "%char key) ->
  forall key, In key (dict_keys (register_lines lines d)) ->
              ~ In " "%char key.
Proof.
  unfold register_lines.
  induction lines as [|line lines IH]; intros d Hd; [exact Hd|].
  cbn [fold_left]. apply IH. now apply register_line_keys.
Qed.

Lemma squeeze_keeps_space s : forall b,
  In " "%char s -> (b = true -> forall s', s <> " "%char :: s') ->
  In " "%char (squeeze b s).
Proof.
  induction s as [|c s IH]; intros b Hin Hb; [destruct Hin|].
  cbn [squeeze]. destruct (Ascii.eqb c " ") eqn:E.
  - apply Ascii.eqb_eq in E. subst c. destruct b.
    + now specialize (Hb eq_refl s).
    + now left.
  - right. apply IH; [|discriminate].
    destruct Hin as [->|Hin]; [|assumption].
    now rewrite Ascii.eqb_refl in E.
Qed.

Lemma remove_blank_chars_blank matched :
  In " "%char matched \/ In Py.newline matched ->
  In " "%char (remove_blank_chars matched).
Proof.
  intros H. rewrite remove_blank_chars_squeeze.
  apply squeeze_keeps_space; [|discriminate].
  apply in_map_iff. destruct H as [H|H].
  - now exists " "%char.
  - now exists Py.newline.
Qed.

(** X22: the keys of the dicts are genus names, with or without the
    asterisk, and hold no space.  So the test of the abstract loop,
    [spec not in genus_to_species[j]], succeeds for every matched name
    written with a blank, whatever the list: such a first occurrence
    is linked in an abstract as it is in a title. *)
Theorem blank_name_never_registered species_list titles dicts titles' d
        matched :
  titles_loop species_list titles [] = Ok (dicts, titles') ->
  In d dicts ->
  In " "%char matched \/ In Py.newline matched ->
  dict_mem (remove_blank_chars matched) d = false.
Proof.
  intros H Hin Hblank. rewrite (@titles_loop_index _ _ _ _ _ H Hin).
  destruct (dict_mem _ _) eqn:E; [|reflexivity].
  apply dict_mem_keys in E. exfalso. revert E.
  intros E. apply register_lines_keys in E; [|intros key []].
  now apply E, remove_blank_chars_blank.
Qed.

Lemma blank_name_never_registered_witness :
  dict_mem (remove_blank_chars (lit "Zea  mays"))
    [(lit "Zea", [lit "mays"])] = false.
Proof.
  apply (@blank_name_never_registered [lit "Zea mays"] [lit "Maize"]
           [[(lit "Zea", [lit "mays"])]] [lit "Maize"]
           [(lit "Zea", [lit "mays"])] (lit "Zea  mays")).
  - vm_compute. reflexivity.
  - now left.
  - left. vm_compute. tauto.
Defined.

(** ** What a run that returns has done *)

Lemma entries_decompose species_list :
  entries_have_genus species_list
  \/ exists before line rest,
       species_list = before ++ line :: rest
       /\ entries_have_genus before /\ empty_genus line = true.
Proof.
  induction species_list as [|l lines IH].
  - left. intros line [].
  - destruct (empty_genus l) eqn:El.
    + right. exists [], l, lines. repeat split; [|assumption].
      intros line [].
    + destruct IH as [IH|(before & line & rest & -> & Hb & Hl)].
      * left. intros line [<-|Hin] Hsp; [assumption|now apply IH].
      * right. exists (l :: before), line, rest. repeat split; [|assumption].
        intros x [<-|Hin] Hsp; [assumption|now apply Hb].
Qed.

Lemma entry_dec (species_list : list str) :
  (forall line, In line species_list -> ~ In " "%char line)
  \/ exists line, In line species_list /\ In " "%char line.
Proof.
  induction species_list as [|l lines IH].
  - left. intros line [].
  - destruct (has_space_dec l) as [Hl|Hl].
    + right. exists l. split; [now left|assumption].
    + destruct IH as [IH|(line & Hin & Hsp)].
      * left. intros line [<-|Hin]; [assumption|now apply IH].
      * right. exists line. split; [now right|assumption].
Qed.

(** X23: a run of [insert_species_links] that returns has changed no
    abstract.  With an abstract in the document, it returns only for a
    species list without entries, and then the document is returned as
    it is; with entries, every run on a document with an abstract ends
    in an exception. *)
Theorem abstracts_never_rewritten species_list root root' :
  insert_species_links species_list root = Ok root' ->
  abstracts root' = abstracts root
  /\ (abstracts root <> [] ->
      root' = root
      /\ forall line, In line species_list -> ~ In " "%char line).
Proof.
  intros H. destruct (abstracts root) as [|a abs] eqn:Ha.
  - split; [|congruence]. revert H. unfold insert_species_links.
    destruct (titles_loop species_list (titles root) []) as [[d t]|e];
      [|discriminate].
    cbn [bind]. rewrite Ha. cbn [abstracts_loop bind].
    now intros [= <-].
  - assert (Hne : abstracts root <> []) by (rewrite Ha; discriminate).
    destruct (entry_dec species_list) as [Hno|Hentry].
    + rewrite (@no_entry_cases species_list root Hno), Ha in H.
      destruct (titles root); [discriminate|].
      injection H as <-. rewrite Ha. auto.
    + exfalso. destruct (titles root) as [|t ts] eqn:Ht.
      * revert H. unfold insert_species_links. rewrite Ht, Ha.
        cbn [titles_loop bind abstracts_loop]. unfold abstract_block.
        now rewrite species_loop_no_dict.
      * assert (Hts : titles root <> []) by (rewrite Ht; discriminate).
        destruct (entries_decompose species_list)
          as [Hg|(before & line & rest & -> & Hb & Hl)].
        -- now rewrite (@entry_title_abstract_cases species_list root Hg Hentry Hts Hne) in H.
        -- now rewrite (@empty_genus_cases before line rest root Hb Hl Hts) in H.
Qed.

Lemma abstracts_never_rewritten_witness :
  let root := Document [lit "Zea"] [lit "Zea mays grows."] in
  abstracts root = abstracts root
  /\ (abstracts root <> [] ->
      root = root
      /\ forall line, In line [lit "Zea"; lit "mays"] -> ~ In " "%char line).
Proof.
  intros root.
  apply (@abstracts_never_rewritten [lit "Zea"; lit "mays"] root root).
  vm_compute. reflexivity.
Defined.

(** ** What the formatter makes of the first occurrence *)





(** A first occurrence that stays plain text: the line "Brassica
    sp.<TAB>nov" has no asterisk and one space, its normalised match
    has three tokens with "sp." in the middle. *)
Lemma first_occurrence_rank_marker_example :
  let name := lit "Brassica sp." ++ [ascii_of_nat 9] ++ lit "nov" in
  let text := name ++ lit " and " ++ name in
  left_as_text name = true
  /\ species_step (-1) false name ([[]], text)
     = Ok ([[(lit "Brassica", [lit "sp." ++ [ascii_of_nat 9] ++ lit "nov"])]],
           name ++ lit " and " ++ italic name)
  /\ is_species_link name = Ok false.
Proof. repeat split; vm_compute; reflexivity. Qed.

(** The defect behind C6 in general: two links on one line each, one
    after the other, are accepted as a link. *)
Lemma concatenated_links_accepted first second :
  link_text first -> link_text second ->
  is_species_link (first ++ second) = Ok true.
Proof.
  intros (a & b & c & d & e & -> & Hn) (a' & b' & c' & d' & e' & -> & Hn').
  replace ((taxon_open a b c d ++ e ++ taxon_close)
           ++ taxon_open a' b' c' d' ++ e' ++ taxon_close)
    with (taxon_open a b c d
          ++ (e ++ taxon_close ++ taxon_open a' b' c' d' ++ e')
          ++ taxon_close)
    by (now rewrite <- !app_assoc).
  apply is_species_link_accepts.
  rewrite !no_newline_app in Hn, Hn'.
  destruct Hn as (Ha & Hb & Hc & Hd & He).
  destruct Hn' as (Ha' & Hb' & Hc' & Hd' & He').
  unfold taxon_open, taxon_close. rewrite !no_newline_app.
  repeat split; try assumption;
    (intros Hin; cbn in Hin; intuition discriminate).
Qed.
